(** * py-wappalyzer: the signal extractor and the detection engine

    A shallow embedding of [py_wappalyzer/har.py] and
    [py_wappalyzer/analyzer.py], and the properties of the two that the
    specification states.

    Conventions.
    - A Python [str] is a [string]; where bytes are decoded into text the
      string holds the UTF-8 encoding of the text.
    - A Python [dict] that is only read by key is a [gmap]; a [dict] whose
      iteration order is observable (the technology table, a versioned
      pattern map, [self.detected]) is an association list in insertion
      order; a [set] is a [gset].
    - What the interpreter and the libraries provide (the [re] engine, the
      HTML parsers, Unicode case mapping, the file system) is a [Runtime];
      every theorem holds for every runtime, and [ref_runtime] is a concrete
      one on which closed examples are evaluated. *)

From Stdlib Require Import String Ascii Strings.Byte List ZArith Lia DecimalString.
From Stdlib Require Import Sorting.Permutation Sorting.Sorted.
From stdpp Require Import gmap strings list pretty.

Open Scope string_scope.
Open Scope list_scope.

(** ** Python values and exceptions *)

(** An exception that escapes a function. *)
Inductive exn : Type :=
| AttributeError
| TypeError
| ParserError
| OverflowError
| RecursionError.

(** The outcome of a call that may raise. *)
Inductive result (A : Type) : Type :=
| Ok (a : A)
| Raise (e : exn).
Arguments Ok {A} a.
Arguments Raise {A} e.

#[global] Instance result_ret : MRet result := @Ok.
#[global] Instance result_bind : MBind result := λ A B k r,
  match r with
  | Ok a => k a
  | Raise e => Raise e
  end.

Definition raises {A : Type} (r : result A) : Prop :=
  match r with
  | Ok _ => False
  | Raise _ => True
  end.

(** A member of a JSON object as [dict.get] sees it: the key is missing,
    the value is [null], or it is a value of the type the HAR format gives
    that member. *)
Inductive field (A : Type) : Type :=
| Absent
| Null
| Val (a : A).
Arguments Absent {A}.
Arguments Null {A}.
Arguments Val {A} a.

(** ** Strings *)

(** Truthiness of a [str]. *)
Definition nonempty (s : string) : bool :=
  match s with
  | EmptyString => false
  | String _ _ => true
  end.

Definition LF : ascii := "010"%char.
Definition BACKSLASH : ascii := "092"%char.

(** The two characters that open the metadata of a pattern. *)
Definition SEPARATOR : string := String BACKSLASH (String ";" EmptyString).

(** [s.startswith(prefix)]. *)
Fixpoint startswith (s prefix : string) {struct prefix} : bool :=
  match prefix with
  | EmptyString => true
  | String a prefix' =>
      match s with
      | EmptyString => false
      | String b s' => Ascii.eqb a b && startswith s' prefix'
      end
  end.

(** [old in s]. *)
Fixpoint contains (old s : string) : bool :=
  startswith s old ||
  match s with
  | EmptyString => false
  | String _ s' => contains old s'
  end.

(** [s.endswith(suffix)]. *)
Definition endswith (s suffix : string) : bool :=
  startswith (String.rev s) (String.rev suffix).

Fixpoint intersperse (new s : string) : string :=
  match s with
  | EmptyString => EmptyString
  | String c s' => String c (new +:+ intersperse new s')
  end.

(** The scan of [str.replace] for a non-empty [old]: [skip] characters of
    an occurrence just replaced are still to be passed over. *)
Fixpoint replace_scan (old new s : string) (skip : nat) : string :=
  match s with
  | EmptyString => EmptyString
  | String c s' =>
      match skip with
      | S k => replace_scan old new s' k
      | O =>
          if startswith s old
          then new +:+ replace_scan old new s' (String.length old - 1)
          else String c (replace_scan old new s' 0)
      end
  end.

(** [s.replace(old, new)]: every non-overlapping occurrence, left to
    right. *)
Definition str_replace (old new s : string) : string :=
  match old with
  | EmptyString => new +:+ intersperse new s
  | String _ _ => replace_scan old new s 0
  end.

(** [str(i)] for a non-negative [int]. *)
Definition str_of_nat (i : nat) : string :=
  NilZero.string_of_uint (Nat.to_uint i).

(** ** The regular expression engine *)

(** What [re.search(pat, text, re.IGNORECASE)] does when it raises no
    exception of another class: it raises [re.error] for a pattern that
    does not compile, returns [None], or returns a match object, of which
    the code reads [groups()]: one entry per capturing group of the
    pattern, [None] for a group that did not participate. *)
Inductive search_result : Type :=
| ReError
| NoMatch
| Match (groups : list (option string)).

(** The two HTML parsers the code tries. *)
Inductive parser : Type :=
| Lxml
| HtmlParser.

(** A [<meta>] tag, by the attributes the code reads. *)
Record meta_tag : Type := MetaTag {
  meta_name : option string;
  meta_property : option string;
  meta_http_equiv : option string;
  meta_content : option string
}.

(** A [<script>] tag: its [src] attribute and its [.string]. *)
Record script_tag : Type := ScriptTag {
  script_src : option string;
  script_string : option string
}.

(** A parsed document, by what the code asks of it:
    [find_all("meta")] and [find_all("script")]. *)
Record soup : Type := Soup {
  soup_metas : list meta_tag;
  soup_scripts : list script_tag
}.

(** ** The capture format *)

(** The members of a HAR document that [parse_har_file] reads. *)
Record har_content : Type := HarContent {
  content_mimeType : field string;
  content_text : field string;
  content_encoding : field string
}.

(** A header or a cookie: [{"name": ..., "value": ...}]. *)
Record har_pair : Type := HarPair {
  pair_name : field string;
  pair_value : field string
}.

Record har_response : Type := HarResponse {
  response_headers : field (list har_pair);
  response_cookies : field (list har_pair);
  response_content : field har_content
}.

Record har_request : Type := HarRequest {
  request_url : field string
}.

Record har_entry : Type := HarEntry {
  entry_request : field har_request;
  entry_response : field har_response
}.

Record har_log : Type := HarLog {
  log_entries : field (list har_entry)
}.

Record har_document : Type := HarDocument {
  document_log : field har_log
}.

(** The empty dict [{}] at each of these types. *)
Definition no_content : har_content := HarContent Absent Absent Absent.
Definition no_response : har_response := HarResponse Absent Absent Absent.
Definition no_request : har_request := HarRequest Absent.
Definition no_log : har_log := HarLog Absent.

(** ** The runtime *)

Class Runtime : Type := {
  (** [re.search(pat, text, re.IGNORECASE)] *)
  re_search : string → string → search_result;
  (** the exception that is not [re.error] which that call raises, when it
      raises one: [OverflowError] for a repeat count that is too large,
      [RecursionError] for a pattern that is nested too deep *)
  re_raises : string → string → option exn;
  (** [str.lower] and [str.upper] *)
  str_lower : string → string;
  str_upper : string → string;
  (** [BeautifulSoup(html, parser)]; [None] when the constructor raises *)
  BeautifulSoup : string → parser → option soup;
  (** [Path(p).open(...)] followed by [json.load]; [None] when either
      raises *)
  json_load : string → option har_document
}.

(** ** Pattern helpers ([analyzer.py]) *)

(** A fingerprint pattern as the technology table holds it: a [str], a
    [list] of [str], or a [dict] from pattern to version template. *)
Inductive patterns : Type :=
| PStr (p : string)
| PList (ps : list string)
| PDict (entries : list (string * string)).

(** Truthiness of a pattern value. *)
Definition truthy (p : patterns) : bool :=
  match p with
  | PStr s => nonempty s
  | PList ps => match ps with [] => false | _ => true end
  | PDict es => match es with [] => false | _ => true end
  end.

(** The tail [.*$] of the regex [\;.*$], tried right after an occurrence of
    the two characters: [.] passes over anything but a line feed, and [$]
    holds at the end of the string or just before a line feed that ends
    it.  Gives what is left of the string after the match, when there is
    one. *)
Fixpoint dotstar_eol (s : string) : option string :=
  match s with
  | EmptyString => Some EmptyString
  | String c s' =>
      if Ascii.eqb c LF
      then match s' with
           | EmptyString => Some s
           | String _ _ => None
           end
      else dotstar_eol s'
  end.

(** [re.sub(r"\\;.*$", "", pattern)], a regex for a backslash, a semicolon
    and the rest of the line: the leftmost match is removed; what is left
    after it is too short to hold another one. *)
Fixpoint _strip_wappalyzer_pattern (pattern : string) : string :=
  match pattern with
  | EmptyString => EmptyString
  | String c rest =>
      let skip := String c (_strip_wappalyzer_pattern rest) in
      if startswith pattern SEPARATOR
      then match rest with
           | String _ after =>
               match dotstar_eol after with
               | Some tail => tail
               | None => skip
               end
           | EmptyString => skip
           end
      else skip
  end.

(** The version a matching entry gives: for [i, group] in
    [enumerate(match.groups(), 1)], a group that is set and not empty
    replaces the token [\i] in the version built so far. *)
Fixpoint substitute_groups (version : string) (i : nat)
    (groups : list (option string)) : string :=
  match groups with
  | [] => version
  | group :: groups' =>
      let version' :=
        match group with
        | Some g =>
            if nonempty g
            then str_replace (String BACKSLASH (str_of_nat i)) g version
            else version
        | None => version
        end in
      substitute_groups version' (S i) groups'
  end.

(** The helpers as functions of what [re.search] gives when it raises no
    exception other than [re.error]; the module [Raising] below has the
    calls with those exceptions, and where such a call returns it returns
    what these functions give. *)
Section PatternHelpers.
Context {rt : Runtime}.

(** The loop of [_check_pattern], and of the list branch of
    [_check_pattern_with_version]: a pattern that does not compile is
    passed over. *)
Fixpoint any_pattern_matches (text : string) (ps : list string) : bool :=
  match ps with
  | [] => false
  | pattern :: ps' =>
      match re_search (_strip_wappalyzer_pattern pattern) text with
      | Match _ => true
      | ReError | NoMatch => any_pattern_matches text ps'
      end
  end.

Definition _check_pattern (text : string) (p : patterns) : bool :=
  if negb (nonempty text) || negb (truthy p) then false
  else
    match p with
    | PStr s => any_pattern_matches text [s]
    | PDict es => any_pattern_matches text (map fst es)
    | PList ps => any_pattern_matches text ps
    end.

(** The loop of the dict branch of [_check_pattern_with_version]. *)
Fixpoint first_versioned_match (text : string)
    (es : list (string * string)) : bool * option string :=
  match es with
  | [] => (false, None)
  | (pattern, version_info) :: es' =>
      match re_search (_strip_wappalyzer_pattern pattern) text with
      | ReError | NoMatch => first_versioned_match text es'
      | Match groups =>
          match groups with
          | _ :: _ =>
              if nonempty version_info
              then (true, Some (substitute_groups version_info 1 groups))
              else (true, None)
          | [] => (true, None)
          end
      end
  end.

Definition _check_pattern_with_version (text : string) (p : patterns)
    : bool * option string :=
  if negb (nonempty text) || negb (truthy p) then (false, None)
  else
    match p with
    | PDict es => first_versioned_match text es
    | PStr s => (any_pattern_matches text [s], None)
    | PList ps => (any_pattern_matches text ps, None)
    end.

End PatternHelpers.

(** ** The fingerprint tables and the engine ([analyzer.py]) *)

(** A value of one of the tables: a [dict] of the expected shape, or
    anything else, which the engine passes over. *)
Inductive table_entry (A : Type) : Type :=
| IsDict (a : A)
| NotDict.
Arguments IsDict {A} a.
Arguments NotDict {A}.

(** A technology; [None] where the key is not in the dict. *)
Record technology : Type := Technology {
  tech_url : option patterns;
  tech_html : option patterns;
  tech_scripts : option patterns;
  tech_headers : option (list (string * patterns));
  tech_cookies : option (list (string * patterns));
  tech_meta : option (list (string * patterns));
  tech_dns : option (list (string * patterns));
  tech_certIssuer : option patterns;
  tech_cats : option (list Z)
}.

Record category : Type := Category {
  cat_name : option string;
  cat_groups : option (list Z)
}.

Record group : Type := Group {
  grp_name : option string
}.

(** What [analyze] keeps per matched technology in [self.detected]. *)
Record detected_entry : Type := DetectedEntry {
  det_versions : list string;
  det_confidence : Z;
  det_matches : list string;
  det_categories : list Z
}.

(** A [TechDetector] instance. *)
Record TechDetector : Type := Detector {
  technologies : list (string * table_entry technology);
  categories : gmap string (table_entry category);
  groups : gmap string (table_entry group);
  detected : list (string * detected_entry)
}.

(** The keyword arguments of [analyze]; an argument left [None] is the
    empty container the code replaces it with. *)
Record signals : Type := Signals {
  sig_url : string;
  sig_html : string;
  sig_headers : gmap string string;
  sig_cookies : gmap string string;
  sig_scripts : list string;
  sig_meta : gmap string string;
  sig_dns : gmap string (list string);
  sig_certIssuer : string
}.

(** One element of the list [analyze] returns. *)
Record detection : Type := Detection {
  name : string;
  confidence : Z;
  versions : list string;
  category_names : list string;
  group_names : list string
}.

(** [d[k] = v] and [d.get(k)] on a dict kept in insertion order. *)
Fixpoint dict_set {V : Type} (k : string) (v : V) (d : list (string * V))
    : list (string * V) :=
  match d with
  | [] => [(k, v)]
  | (k', v') :: d' =>
      if String.eqb k k' then (k, v) :: d' else (k', v') :: dict_set k v d'
  end.

Fixpoint dict_get {V : Type} (k : string) (d : list (string * V)) : option V :=
  match d with
  | [] => None
  | (k', v') :: d' => if String.eqb k k' then Some v' else dict_get k d'
  end.

(** [m.get(k, "")]. *)
Definition get_str (m : gmap string string) (k : string) : string :=
  default "" (m !! k).

(** Truthiness of a dict. *)
Definition nonempty_map {V : Type} (m : gmap string V) : bool :=
  bool_decide (m ≠ ∅).

(** The working state of one technology: [matches] and [versions]. *)
Definition work : Type := list string * gset string.

(** [matches.append(label)], and [versions.add(version)] for a version
    that is not empty. *)
Definition note (label : string) (r : bool * option string) (w : work) : work :=
  if r.1
  then (w.1 ++ [label],
        match r.2 with
        | Some version => if nonempty version then w.2 ∪ {[version]} else w.2
        | None => w.2
        end)
  else w.

(** [results.sort(key=lambda x: x["confidence"], reverse=True)]: the sort
    is stable, so an element goes in front of the first one that does not
    have a greater confidence among those that followed it. *)
Fixpoint insert_by_confidence (d : detection) (l : list detection)
    : list detection :=
  match l with
  | [] => [d]
  | x :: l' =>
      if (confidence x <=? confidence d)%Z
      then d :: l
      else x :: insert_by_confidence d l'
  end.

Definition sort_by_confidence (l : list detection) : list detection :=
  foldr insert_by_confidence [] l.

Section Engine.
Context {rt : Runtime}.

(** [soup] in [analyze]: the first of the two parsers that does not raise,
    and [None] for an empty [html] or when both raise. *)
Definition analyze_soup (html : string) : option soup :=
  if nonempty html
  then match BeautifulSoup html Lxml with
       | Some s => Some s
       | None => BeautifulSoup html HtmlParser
       end
  else None.

(** [soup.find_all("script", src=True)], each tag's [src]. *)
Definition script_srcs (s : soup) : list string :=
  omap script_src (soup_scripts s).

Definition check_url (b : signals) (t : technology) (w : work) : work :=
  match tech_url t with
  | Some p =>
      if nonempty (sig_url b)
      then note "url" (_check_pattern (sig_url b) p, None) w
      else w
  | None => w
  end.

Definition check_html (b : signals) (t : technology) (w : work) : work :=
  match tech_html t with
  | Some p =>
      if nonempty (sig_html b)
      then note "html" (_check_pattern_with_version (sig_html b) p) w
      else w
  | None => w
  end.

(** Both script loops: one label per script that matches. *)
Definition check_scripts (scripts : list string) (t : technology) (w : work)
    : work :=
  match tech_scripts t with
  | Some p =>
      foldl (λ w script, note "scripts" (_check_pattern_with_version script p) w)
            w scripts
  | None => w
  end.

(** [headers.get(header_name) or headers.get(header_name.lower()) or ""] *)
Definition header_value (headers : gmap string string) (header_name : string)
    : string :=
  let by_lower := get_str headers (str_lower header_name) in
  match headers !! header_name with
  | Some v => if nonempty v then v else by_lower
  | None => by_lower
  end.

Definition check_headers (b : signals) (t : technology) (w : work) : work :=
  match tech_headers t with
  | Some items =>
      if nonempty_map (sig_headers b)
      then foldl (λ w '(header_name, header_patterns),
                    let value := header_value (sig_headers b) header_name in
                    if nonempty value
                    then note ("headers:" +:+ header_name)
                              (_check_pattern_with_version value header_patterns) w
                    else w)
                 w items
      else w
  | None => w
  end.

Definition check_cookies (b : signals) (t : technology) (w : work) : work :=
  match tech_cookies t with
  | Some items =>
      if nonempty_map (sig_cookies b)
      then foldl (λ w '(cookie_name, cookie_patterns),
                    let value := get_str (sig_cookies b) cookie_name in
                    note ("cookies:" +:+ cookie_name)
                         (nonempty value && _check_pattern value cookie_patterns,
                          None) w)
                 w items
      else w
  | None => w
  end.

Definition check_meta (b : signals) (t : technology) (w : work) : work :=
  match tech_meta t with
  | Some items =>
      if nonempty_map (sig_meta b)
      then foldl (λ w '(meta_name, meta_patterns),
                    let value := get_str (sig_meta b) meta_name in
                    if nonempty value
                    then note ("meta:" +:+ meta_name)
                              (_check_pattern_with_version value meta_patterns) w
                    else w)
                 w items
      else w
  | None => w
  end.

Definition check_dns (b : signals) (t : technology) (w : work) : work :=
  match tech_dns t with
  | Some items =>
      if nonempty_map (sig_dns b)
      then foldl (λ w '(record_type, record_patterns),
                    foldl (λ w record_value,
                             note ("dns:" +:+ record_type)
                                  (_check_pattern record_value record_patterns,
                                   None) w)
                          w (default [] (sig_dns b !! str_upper record_type)))
                 w items
      else w
  | None => w
  end.

Definition check_certIssuer (b : signals) (t : technology) (w : work) : work :=
  match tech_certIssuer t with
  | Some p =>
      if nonempty (sig_certIssuer b)
      then note "certIssuer" (_check_pattern (sig_certIssuer b) p, None) w
      else w
  | None => w
  end.

(** The body of the loop over the technologies, up to [if matches:]:
    the checks in the order of the code, from empty [matches] and
    [versions]. *)
Definition tech_checks (b : signals) (t : technology) : work :=
  let w := ([], ∅) in
  let w := check_url b t w in
  let w := check_html b t w in
  let w := match analyze_soup (sig_html b) with
           | Some s => check_scripts (script_srcs s) t w
           | None => w
           end in
  let w := check_scripts (sig_scripts b) t w in
  let w := check_headers b t w in
  let w := check_cookies b t w in
  let w := check_meta b t w in
  let w := check_dns b t w in
  check_certIssuer b t w.

(** [min(len(matches) * 10, 100)] *)
Definition confidence_of (matches : list string) : Z :=
  Z.min (Z.of_nat (length matches) * 10) 100.

(** What one turn of the loop over [self.technologies.items()] stores
    under [tech_name], when it stores anything: nothing for a value that
    is not a dict, nor when [matches] is empty. *)
Definition detected_entry_of (b : signals) (tech_data : table_entry technology)
    : option detected_entry :=
  match tech_data with
  | NotDict => None
  | IsDict t =>
      let w := tech_checks b t in
      match w.1 with
      | [] => None
      | _ :: _ =>
          Some {| det_versions := elements w.2;
                  det_confidence := confidence_of w.1;
                  det_matches := w.1;
                  det_categories := default [] (tech_cats t) |}
      end
  end.

(** One turn of that loop, on [self.detected]. *)
Definition analyze_step (b : signals) (det : list (string * detected_entry))
    (item : string * table_entry technology) : list (string * detected_entry) :=
  match detected_entry_of b item.2 with
  | Some entry => dict_set item.1 entry det
  | None => det
  end.

(** [tech_info.get("cats", [])] for
    [tech_info = self.technologies.get(tech_name, {})]. *)
Definition cats_of (self : TechDetector) (tech_name : string) : list Z :=
  match dict_get tech_name (technologies self) with
  | Some (IsDict t) => default [] (tech_cats t)
  | _ => []
  end.

(** The loop over [cat_ids]: the names of the categories the table
    resolves, and the ids of their groups. *)
Definition resolve_categories (self : TechDetector) (cat_ids : list Z)
    : list string * gset Z :=
  foldl (λ acc cat_id,
           match categories self !! pretty cat_id with
           | Some (IsDict cat_info) =>
               (acc.1 ++ [default ("Category " +:+ pretty cat_id) (cat_name cat_info)],
                foldl (λ ids grp_id, ids ∪ {[grp_id]}) acc.2
                      (default [] (cat_groups cat_info)))
           | _ => acc
           end)
        ([], ∅) cat_ids.

(** The body of the loop over [group_ids]: the name appended for a group
    id, when the groups table holds a dict for it. *)
Definition group_display (self : TechDetector) (grp_id : Z) : option string :=
  match groups self !! pretty grp_id with
  | Some (IsDict grp_info) =>
      Some (default ("Group " +:+ pretty grp_id) (grp_name grp_info))
  | _ => None
  end.

(** The loop over [group_ids]; the set is gone through in the order of
    [elements]. *)
Definition resolve_groups (self : TechDetector) (group_ids : gset Z)
    : list string :=
  omap (group_display self) (elements group_ids).

Definition format_result (self : TechDetector)
    (item : string * detected_entry) : detection :=
  let cats := resolve_categories self (cats_of self item.1) in
  {| name := item.1;
     confidence := det_confidence item.2;
     versions := det_versions item.2;
     category_names := cats.1;
     group_names := resolve_groups self cats.2 |}.

Definition _format_results (self : TechDetector) : list detection :=
  sort_by_confidence (map (format_result self) (detected self)).

(** [analyze]: the instance afterwards, and the list returned. *)
Definition analyze (self : TechDetector) (b : signals)
    : TechDetector * list detection :=
  let self' :=
    {| technologies := technologies self;
       categories := categories self;
       groups := groups self;
       detected := foldl (analyze_step b) [] (technologies self) |} in
  (self', _format_results self').

End Engine.

(** ** The exceptions that [except re.error] does not catch

    [re.search] raises [OverflowError] or [RecursionError] for some
    patterns.  These are not [re.error]: they escape the checks and
    [analyze].  The definitions of this module are [_check_pattern],
    [_check_pattern_with_version] and [analyze] with these exceptions;
    the definitions above give what a call returns when it returns. *)

(** A [for] loop whose body may raise. *)
Fixpoint for_each {A B : Type} (body : A → B → result A) (a : A) (l : list B)
    : result A :=
  match l with
  | [] => Ok a
  | x :: l' =>
      match body a x with
      | Ok a' => for_each body a' l'
      | Raise e => Raise e
      end
  end.

Module Raising.
Section Raising.
Context {rt : Runtime}.

(** [re.search(pat, text, re.IGNORECASE)] *)
Definition search (pat text : string) : result search_result :=
  match re_raises pat text with
  | Some e => Raise e
  | None => Ok (re_search pat text)
  end.

(** The loop of [_check_pattern], and of the list branch of
    [_check_pattern_with_version]: [re.error] is caught and the loop goes
    on, another exception leaves the loop. *)
Fixpoint any_pattern_matches (text : string) (ps : list string) : result bool :=
  match ps with
  | [] => Ok false
  | pattern :: ps' =>
      match search (_strip_wappalyzer_pattern pattern) text with
      | Raise e => Raise e
      | Ok (Match _) => Ok true
      | Ok ReError | Ok NoMatch => any_pattern_matches text ps'
      end
  end.

Definition _check_pattern (text : string) (p : patterns) : result bool :=
  if negb (nonempty text) || negb (truthy p) then Ok false
  else
    match p with
    | PStr s => any_pattern_matches text [s]
    | PDict es => any_pattern_matches text (map fst es)
    | PList ps => any_pattern_matches text ps
    end.

(** The loop of the dict branch of [_check_pattern_with_version]. *)
Fixpoint first_versioned_match (text : string)
    (es : list (string * string)) : result (bool * option string) :=
  match es with
  | [] => Ok (false, None)
  | (pattern, version_info) :: es' =>
      match search (_strip_wappalyzer_pattern pattern) text with
      | Raise e => Raise e
      | Ok ReError | Ok NoMatch => first_versioned_match text es'
      | Ok (Match groups) =>
          match groups with
          | _ :: _ =>
              if nonempty version_info
              then Ok (true, Some (substitute_groups version_info 1 groups))
              else Ok (true, None)
          | [] => Ok (true, None)
          end
      end
  end.

Definition _check_pattern_with_version (text : string) (p : patterns)
    : result (bool * option string) :=
  if negb (nonempty text) || negb (truthy p) then Ok (false, None)
  else
    match p with
    | PDict es => first_versioned_match text es
    | PStr s => r ← any_pattern_matches text [s]; Ok (r, None)
    | PList ps => r ← any_pattern_matches text ps; Ok (r, None)
    end.

Definition check_url (b : signals) (t : technology) (w : work) : result work :=
  match tech_url t with
  | Some p =>
      if nonempty (sig_url b)
      then r ← _check_pattern (sig_url b) p; Ok (note "url" (r, None) w)
      else Ok w
  | None => Ok w
  end.

Definition check_html (b : signals) (t : technology) (w : work) : result work :=
  match tech_html t with
  | Some p =>
      if nonempty (sig_html b)
      then r ← _check_pattern_with_version (sig_html b) p;
           Ok (note "html" r w)
      else Ok w
  | None => Ok w
  end.

Definition check_scripts (scripts : list string) (t : technology) (w : work)
    : result work :=
  match tech_scripts t with
  | Some p =>
      for_each (λ w script,
                  r ← _check_pattern_with_version script p;
                  Ok (note "scripts" r w))
               w scripts
  | None => Ok w
  end.

Definition check_headers (b : signals) (t : technology) (w : work)
    : result work :=
  match tech_headers t with
  | Some items =>
      if nonempty_map (sig_headers b)
      then for_each (λ w '(header_name, header_patterns),
                       let value := header_value (sig_headers b) header_name in
                       if nonempty value
                       then r ← _check_pattern_with_version value header_patterns;
                            Ok (note ("headers:" +:+ header_name) r w)
                       else Ok w)
                    w items
      else Ok w
  | None => Ok w
  end.

Definition check_cookies (b : signals) (t : technology) (w : work)
    : result work :=
  match tech_cookies t with
  | Some items =>
      if nonempty_map (sig_cookies b)
      then for_each (λ w '(cookie_name, cookie_patterns),
                       let value := get_str (sig_cookies b) cookie_name in
                       if nonempty value
                       then r ← _check_pattern value cookie_patterns;
                            Ok (note ("cookies:" +:+ cookie_name) (r, None) w)
                       else Ok w)
                    w items
      else Ok w
  | None => Ok w
  end.

Definition check_meta (b : signals) (t : technology) (w : work) : result work :=
  match tech_meta t with
  | Some items =>
      if nonempty_map (sig_meta b)
      then for_each (λ w '(meta_name, meta_patterns),
                       let value := get_str (sig_meta b) meta_name in
                       if nonempty value
                       then r ← _check_pattern_with_version value meta_patterns;
                            Ok (note ("meta:" +:+ meta_name) r w)
                       else Ok w)
                    w items
      else Ok w
  | None => Ok w
  end.

Definition check_dns (b : signals) (t : technology) (w : work) : result work :=
  match tech_dns t with
  | Some items =>
      if nonempty_map (sig_dns b)
      then for_each (λ w '(record_type, record_patterns),
                       for_each (λ w record_value,
                                   r ← _check_pattern record_value record_patterns;
                                   Ok (note ("dns:" +:+ record_type) (r, None) w))
                                w (default [] (sig_dns b !! str_upper record_type)))
                    w items
      else Ok w
  | None => Ok w
  end.

Definition check_certIssuer (b : signals) (t : technology) (w : work)
    : result work :=
  match tech_certIssuer t with
  | Some p =>
      if nonempty (sig_certIssuer b)
      then r ← _check_pattern (sig_certIssuer b) p;
           Ok (note "certIssuer" (r, None) w)
      else Ok w
  | None => Ok w
  end.

(** The body of the loop over the technologies, up to [if matches:]. *)
Definition tech_checks (b : signals) (t : technology) : result work :=
  w ← check_url b t ([], ∅);
  w ← check_html b t w;
  w ← match analyze_soup (sig_html b) with
      | Some s => check_scripts (script_srcs s) t w
      | None => Ok w
      end;
  w ← check_scripts (sig_scripts b) t w;
  w ← check_headers b t w;
  w ← check_cookies b t w;
  w ← check_meta b t w;
  w ← check_dns b t w;
  check_certIssuer b t w.

(** What one turn of the loop over [self.technologies.items()] stores
    under [tech_name], when it stores anything. *)
Definition detected_entry_of (b : signals) (tech_data : table_entry technology)
    : result (option detected_entry) :=
  match tech_data with
  | NotDict => Ok None
  | IsDict t =>
      w ← tech_checks b t;
      Ok match w.1 with
         | [] => None
         | _ :: _ =>
             Some {| det_versions := elements w.2;
                     det_confidence := confidence_of w.1;
                     det_matches := w.1;
                     det_categories := default [] (tech_cats t) |}
         end
  end.

(** The loop over the technologies: [self.detected] when the loop is left,
    and the exception that left it, if one did. *)
Fixpoint analyze_loop (b : signals) (det : list (string * detected_entry))
    (techs : list (string * table_entry technology))
    : list (string * detected_entry) * option exn :=
  match techs with
  | [] => (det, None)
  | item :: techs' =>
      match detected_entry_of b item.2 with
      | Raise e => (det, Some e)
      | Ok None => analyze_loop b det techs'
      | Ok (Some entry) => analyze_loop b (dict_set item.1 entry det) techs'
      end
  end.

(** [analyze]: the instance afterwards, and the list returned or the
    exception raised. *)
Definition analyze (self : TechDetector) (b : signals)
    : TechDetector * result (list detection) :=
  let loop := analyze_loop b [] (technologies self) in
  let self' :=
    {| technologies := technologies self;
       categories := categories self;
       groups := groups self;
       detected := loop.1 |} in
  (self',
   match loop.2 with
   | Some e => Raise e
   | None => Ok (_format_results self')
   end).

End Raising.
End Raising.

(** ** Decoding a base64 body ([har.py]) *)

(** The value of a character of the base64 alphabet. *)
Definition b64_value (c : ascii) : option N :=
  let n := N_of_ascii c in
  if (65 <=? n)%N && (n <=? 90)%N then Some (n - 65)%N
  else if (97 <=? n)%N && (n <=? 122)%N then Some (n - 71)%N
  else if (48 <=? n)%N && (n <=? 57)%N then Some (n + 4)%N
  else if (n =? 43)%N then Some 62%N
  else if (n =? 47)%N then Some 63%N
  else None.

Definition byte_of_N (n : N) : byte := byte_of_ascii (ascii_of_N n).

(** [binascii.a2b_base64] as [base64.b64decode] calls it (not strict):
    characters outside the alphabet are passed over; [quad_pos] counts the
    characters of the current group of four, [leftchar] holds the bits not
    yet written, [pads] the padding characters seen in a row.  [None] is
    [binascii.Error]. *)
Fixpoint a2b_base64 (s : string) (quad_pos : nat) (leftchar : N) (pads : nat)
    : option (list byte) :=
  match s with
  | EmptyString => if Nat.eqb quad_pos 0 then Some [] else None
  | String c s' =>
      if Ascii.eqb c "="
      then if Nat.leb 2 quad_pos
           then if Nat.leb 4 (quad_pos + S pads)
                then Some []
                else a2b_base64 s' quad_pos leftchar (S pads)
           else a2b_base64 s' quad_pos leftchar pads
      else
        match b64_value c with
        | None => a2b_base64 s' quad_pos leftchar pads
        | Some v =>
            match quad_pos with
            | 0 => a2b_base64 s' 1 v 0
            | 1 =>
                cons (byte_of_N (N.lor (N.shiftl leftchar 2) (N.shiftr v 4)))
                  <$> a2b_base64 s' 2 (N.land v 15) 0
            | 2 =>
                cons (byte_of_N (N.lor (N.shiftl leftchar 4) (N.shiftr v 2)))
                  <$> a2b_base64 s' 3 (N.land v 3) 0
            | _ =>
                cons (byte_of_N (N.lor (N.shiftl leftchar 6) v))
                  <$> a2b_base64 s' 0 0%N 0
            end
        end
  end.

Definition is_ascii_str (s : string) : bool :=
  forallb (λ c, (N_of_ascii c <? 128)%N) (list_ascii_of_string s).

(** [base64.b64decode(text)] for a [str]: [ValueError] for a character that
    is not ASCII, else the decoder above. *)
Definition b64decode (text : string) : option (list byte) :=
  if is_ascii_str text then a2b_base64 text 0 0%N 0 else None.

(** ** Decoding UTF-8 *)

(** The pieces the UTF-8 decoder cuts its input into: a well-formed
    sequence, or a range of bytes it hands to the error handler. *)
Inductive segment : Type :=
| Valid (bs : list byte)
| Invalid (bs : list byte).

Definition in_range (lo hi : N) (b : byte) : bool :=
  (lo <=? Byte.to_N b)%N && (Byte.to_N b <=? hi)%N.

(** The second byte a lead byte admits. *)
Definition second_ok (lead : byte) (b : byte) : bool :=
  let l := Byte.to_N lead in
  if (l =? 224)%N then in_range 160 191 b
  else if (l =? 237)%N then in_range 128 159 b
  else if (l =? 240)%N then in_range 144 191 b
  else if (l =? 244)%N then in_range 128 143 b
  else in_range 128 191 b.

Definition continuation (b : byte) : bool := in_range 128 191 b.

(** The decoder of [bytes.decode("utf-8", ...)]: an invalid start byte is
    a range of one byte; a sequence broken by a byte that cannot continue
    it is a range of the bytes before that byte; a sequence cut by the end
    of the data is a range up to the end. *)
Fixpoint utf8_segments (bs : list byte) : list segment :=
  match bs with
  | [] => []
  | b0 :: r0 =>
      let n := Byte.to_N b0 in
      if (n <? 128)%N then Valid [b0] :: utf8_segments r0
      else if (n <? 194)%N || (244 <? n)%N then Invalid [b0] :: utf8_segments r0
      else
        match r0 with
        | [] => [Invalid [b0]]
        | b1 :: r1 =>
            if negb (second_ok b0 b1) then Invalid [b0] :: utf8_segments r0
            else if (n <? 224)%N then Valid [b0; b1] :: utf8_segments r1
            else
              match r1 with
              | [] => [Invalid [b0; b1]]
              | b2 :: r2 =>
                  if negb (continuation b2)
                  then Invalid [b0; b1] :: utf8_segments r1
                  else if (n <? 240)%N
                  then Valid [b0; b1; b2] :: utf8_segments r2
                  else
                    match r2 with
                    | [] => [Invalid [b0; b1; b2]]
                    | b3 :: r3 =>
                        if negb (continuation b3)
                        then Invalid [b0; b1; b2] :: utf8_segments r2
                        else Valid [b0; b1; b2; b3] :: utf8_segments r3
                    end
              end
        end
  end.

(** The [errors] argument of [bytes.decode]. *)
Inductive errors : Type :=
| Strict
| Ignore
| Replace.

Definition str_of_bytes (bs : list byte) : string :=
  string_of_list_ascii (map ascii_of_byte bs).

(** U+FFFD, in UTF-8. *)
Definition REPLACEMENT_CHARACTER : string :=
  str_of_bytes [byte_of_N 239; byte_of_N 191; byte_of_N 189].

(** [bs.decode("utf-8", errors=...)]; [None] is [UnicodeDecodeError]. *)
Fixpoint decode_segments (how : errors) (segs : list segment) : option string :=
  match segs with
  | [] => Some EmptyString
  | Valid bs :: segs' => String.app (str_of_bytes bs) <$> decode_segments how segs'
  | Invalid _ :: segs' =>
      match how with
      | Strict => None
      | Ignore => decode_segments how segs'
      | Replace => String.app REPLACEMENT_CHARACTER <$> decode_segments how segs'
      end
  end.

Definition decode_utf8 (how : errors) (bs : list byte) : option string :=
  decode_segments how (utf8_segments bs).

(** ** The signal extractor ([har.py]) *)

(** The dict [parse_har_file] returns. *)
Record har_result : Type := HarResult {
  res_url : string;
  res_html : string;
  res_headers : gmap string string;
  res_cookies : gmap string string;
  res_scripts : list string;
  res_meta : gmap string string
}.

Definition EMPTY_HAR_RESULT : har_result :=
  {| res_url := ""; res_html := ""; res_headers := ∅; res_cookies := ∅;
     res_scripts := []; res_meta := ∅ |}.

(** [obj.get(key, default)] where [obj] may be [None], which has no
    [get]. *)
Definition py_get {A B : Type} (obj : option A) (member : A → field B)
    (default : option B) : result (option B) :=
  match obj with
  | None => Raise AttributeError
  | Some a =>
      Ok match member a with
         | Absent => default
         | Null => None
         | Val b => Some b
         end
  end.

(** [d.get(key)] on a dict. *)
Definition get_or_none {B : Type} (f : field B) : option B :=
  match f with
  | Val b => Some b
  | Absent | Null => None
  end.

(** [x or ""] *)
Definition or_empty (x : option string) : string := default "" x.

(** [x.lower()] where [x] may be [None]. *)
Definition py_lower `{Runtime} (x : option string) : result string :=
  match x with
  | None => Raise AttributeError
  | Some s => Ok (str_lower s)
  end.

(** [for _ in x] where [x] may be [None]. *)
Definition py_iter {A : Type} (x : option (list A)) : result (list A) :=
  match x with
  | None => Raise TypeError
  | Some l => Ok l
  end.

(** The first [n] characters of a string, [s[:n]]: a character is a byte
    with the continuation bytes that follow it. *)
Fixpoint str_take (n : nat) (s : string) : string :=
  match s with
  | EmptyString => EmptyString
  | String c s' =>
      if continuation (byte_of_ascii c) then String c (str_take n s')
      else match n with
           | O => EmptyString
           | S k => String c (str_take k s')
           end
  end.

(** The loop that removes duplicates, with its set [seen]. *)
Fixpoint dedupe (seen : gset string) (candidates : list string) : list string :=
  match candidates with
  | [] => []
  | s :: rest =>
      if bool_decide (s ∈ seen) then dedupe seen rest
      else s :: dedupe (seen ∪ {[s]}) rest
  end.

(** The text of the body: decoded when the content says [base64] and the
    decoding does not raise. *)
Definition body_text (content : har_content) (text : string) : string :=
  match content_encoding content with
  | Val "base64" =>
      match b64decode text ≫= decode_utf8 Ignore with
      | Some decoded => decoded
      | None => text
      end
  | _ => text
  end.

(** Truthiness of a value that is a [str] or [None], and [x or y]. *)
Definition is_truthy (x : option string) : bool :=
  match x with
  | Some s => nonempty s
  | None => false
  end.

Definition py_or (x y : option string) : option string :=
  if is_truthy x then x else y.

(** The loop over [soup.find_all("meta")]. *)
Definition collect_meta (s : soup) : gmap string string :=
  foldl (λ meta tag,
           let name := py_or (meta_name tag)
                         (py_or (meta_property tag) (meta_http_equiv tag)) in
           let content_val := meta_content tag in
           if is_truthy name && is_truthy content_val
           then <[or_empty name := or_empty content_val]> meta
           else meta)
        ∅ (soup_metas s).

(** The loop over [soup.find_all("script")]: the inline scripts. *)
Definition inline_scripts (s : soup) : list string :=
  omap (λ tag,
          if negb (is_truthy (script_src tag)) && is_truthy (script_string tag)
          then Some (str_take 500 (or_empty (script_string tag)))
          else None)
       (soup_scripts s).

Section SignalExtractor.
Context {rt : Runtime}.

(** [e.get("response", {}).get("content", {}).get("mimeType", "")] *)
Definition entry_mimeType (e : har_entry) : result (option string) :=
  response ← py_get (Some e) entry_response (Some no_response);
  content ← py_get response response_content (Some no_content);
  py_get content content_mimeType (Some "").

(** The generator under [next]: the first entry whose mime type, in lower
    case, contains [html]. *)
Fixpoint first_html_entry (entries : list har_entry) : result (option har_entry) :=
  match entries with
  | [] => Ok None
  | e :: rest =>
      mime ← entry_mimeType e;
      lowered ← py_lower mime;
      if contains "html" lowered then Ok (Some e) else first_html_entry rest
  end.

Definition collect_headers (hs : list har_pair) : gmap string string :=
  foldl (λ headers h,
           let name := str_lower (or_empty (get_or_none (pair_name h))) in
           let value := or_empty (get_or_none (pair_value h)) in
           if nonempty name then <[name := value]> headers else headers)
        ∅ hs.

Definition collect_cookies (cs : list har_pair) : gmap string string :=
  foldl (λ cookies c,
           match get_or_none (pair_name c) with
           | Some name =>
               if nonempty name
               then <[name := or_empty (get_or_none (pair_value c))]> cookies
               else cookies
           | None => cookies
           end)
        ∅ cs.

(** The loop "Scripts from entries". *)
Fixpoint entry_scripts (entries : list har_entry) : result (list string) :=
  match entries with
  | [] => Ok []
  | entry :: rest =>
      req ← py_get (Some entry) entry_request (Some no_request);
      url ← py_get req request_url (Some "");
      mime ← entry_mimeType entry;
      let url := or_empty url in
      let keep := contains "javascript" (str_lower (or_empty mime))
                  || endswith url ".js" in
      more ← entry_scripts rest;
      Ok (if keep then url :: more else more)
  end.

(** The parse of [result["html"]]: [lxml], and [html.parser] when that
    raises. *)
Definition har_soup (html : string) : result soup :=
  match BeautifulSoup html Lxml with
  | Some s => Ok s
  | None =>
      match BeautifulSoup html HtmlParser with
      | Some s => Ok s
      | None => Raise ParserError
      end
  end.

(** [parse_har_file] after the document is loaded. *)
Definition parse_har_document (har_data : har_document) : result har_result :=
  log ← py_get (Some har_data) document_log (Some no_log);
  entries ← py_get log log_entries (Some []);
  match entries with
  | None | Some [] => Ok EMPTY_HAR_RESULT
  | Some ((first :: _) as entries) =>
      found ← first_html_entry entries;
      let main_entry := default first found in
      request_obj ← py_get (Some main_entry) entry_request (Some no_request);
      response_obj ← py_get (Some main_entry) entry_response (Some no_response);
      url ← py_get request_obj request_url (Some "");
      hs ← py_get response_obj response_headers (Some []);
      hs ← py_iter hs;
      cs ← py_get response_obj response_cookies (Some []);
      cs ← py_iter cs;
      content ← py_get response_obj response_content (Some no_content);
      text ← py_get content content_text (Some "");
      let text := or_empty text in
      let html := if nonempty text
                  then body_text (default no_content content) text
                  else "" in
      script_candidates ← entry_scripts entries;
      parsed ← (if nonempty html
                then s ← har_soup html; Ok (Some s)
                else Ok None);
      Ok {| res_url := or_empty url;
            res_html := html;
            res_headers := collect_headers hs;
            res_cookies := collect_cookies cs;
            res_scripts :=
              dedupe ∅ (script_candidates
                        ++ from_option inline_scripts [] parsed);
            res_meta := from_option collect_meta ∅ parsed |}
  end.

(** [parse_har_file]: a file that cannot be opened or is not JSON gives a
    copy of [EMPTY_HAR_RESULT]. *)
Definition parse_har_file (har_path : string) : result har_result :=
  match json_load har_path with
  | None => Ok EMPTY_HAR_RESULT
  | Some har_data => parse_har_document har_data
  end.

End SignalExtractor.

(** ** The public entry points ([analyzer.py]) *)

(** The dict given to [analyze_json], by the keys the code reads. *)
Record json_data : Type := JsonData {
  jd_har_path : field string;
  jd_url : field string;
  jd_html : field string;
  jd_headers : field (gmap string string);
  jd_cookies : field (gmap string string);
  jd_scripts : field (list string);
  jd_meta : field (gmap string string);
  jd_dns : field (gmap string (list string));
  jd_certIssuer : field string
}.

(** [str(d[key])] and [str(d.get(key, ""))] for a member that is a [str]
    or [null]: [str(None)] is ["None"]. *)
Definition str_of_field (f : field string) : string :=
  match f with
  | Absent => ""
  | Null => "None"
  | Val s => s
  end.

(** [d.get(key, default) or default] *)
Definition field_or {A : Type} (f : field A) (default : A) : A :=
  match f with
  | Val a => a
  | Absent | Null => default
  end.

(** The keyword arguments of [detect_technologies]. *)
Record detect_args : Type := DetectArgs {
  arg_signals : signals;
  arg_har_path : option string;
  arg_json_data : option json_data
}.

Section PublicApi.
Context {rt : Runtime}.

(** The tables [TechDetector.__init__] loads. *)
Variable load_technologies : list (string * table_entry technology).
Variable load_categories : gmap string (table_entry category).
Variable load_groups : gmap string (table_entry group).

(** [TechDetector()] *)
Definition new_TechDetector : TechDetector :=
  {| technologies := load_technologies;
     categories := load_categories;
     groups := load_groups;
     detected := [] |}.

Definition analyze_har (self : TechDetector) (har_path : string)
    : result (TechDetector * list detection) :=
  data ← parse_har_file har_path;
  Ok (analyze self
        {| sig_url := res_url data;
           sig_html := res_html data;
           sig_headers := res_headers data;
           sig_cookies := res_cookies data;
           sig_scripts := res_scripts data;
           sig_meta := res_meta data;
           sig_dns := ∅;
           sig_certIssuer := "" |}).

Definition analyze_json (self : TechDetector) (jd : json_data)
    : result (TechDetector * list detection) :=
  match jd_har_path jd with
  | Null | Val _ => analyze_har self (str_of_field (jd_har_path jd))
  | Absent =>
      Ok (analyze self
            {| sig_url := str_of_field (jd_url jd);
               sig_html := str_of_field (jd_html jd);
               sig_headers := field_or (jd_headers jd) ∅;
               sig_cookies := field_or (jd_cookies jd) ∅;
               sig_scripts := field_or (jd_scripts jd) [];
               sig_meta := field_or (jd_meta jd) ∅;
               sig_dns := field_or (jd_dns jd) ∅;
               sig_certIssuer := field_or (jd_certIssuer jd) "" |})
  end.

(** [detect_technologies], given the value of [_GLOBAL_DETECTOR]; the
    instance in the result is the value of the global afterwards. *)
Definition detect_technologies (global_detector : option TechDetector)
    (args : detect_args) : result (TechDetector * list detection) :=
  let detector := default new_TechDetector global_detector in
  if is_truthy (arg_har_path args)
  then analyze_har detector (or_empty (arg_har_path args))
  else match arg_json_data args with
       | Some jd => analyze_json detector jd
       | None => Ok (analyze detector (arg_signals args))
       end.

End PublicApi.

(** ** A reference runtime

    A runtime that computes, for the closed examples.  It agrees with the
    libraries on what the examples give it: regular expressions made of
    ordinary characters, [.] and groups; ASCII letters; texts without
    markup; a file system with the three files below. *)

Definition ascii_lower (c : ascii) : ascii :=
  let n := N_of_ascii c in
  if (65 <=? n)%N && (n <=? 90)%N then ascii_of_N (n + 32) else c.

Definition ascii_upper (c : ascii) : ascii :=
  let n := N_of_ascii c in
  if (97 <=? n)%N && (n <=? 122)%N then ascii_of_N (n - 32) else c.

Fixpoint map_string (f : ascii → ascii) (s : string) : string :=
  match s with
  | EmptyString => EmptyString
  | String c s' => String (f c) (map_string f s')
  end.

(** A compiled pattern of the fragment. *)
Inductive re_item : Type :=
| ReChar (c : ascii)
| ReAny
| ReOpen (index : nat)
| ReClose.

Definition is_operator (c : ascii) : bool :=
  existsb (Ascii.eqb c) (list_ascii_of_string "\[]{}*+?|^$").

(** The compiler: groups are numbered by their opening parenthesis, from 0
    here; [depth] counts the groups still open.  [None] is [re.error]
    (unbalanced parentheses), and also an operator outside the fragment. *)
Fixpoint re_compile (pattern : string) (next depth : nat) : option (list re_item) :=
  match pattern with
  | EmptyString => if Nat.eqb depth 0 then Some [] else None
  | String c rest =>
      if Ascii.eqb c "(" then cons (ReOpen next) <$> re_compile rest (S next) (S depth)
      else if Ascii.eqb c ")" then
        match depth with
        | O => None
        | S d => cons ReClose <$> re_compile rest next d
        end
      else if Ascii.eqb c "." then cons ReAny <$> re_compile rest next depth
      else if is_operator c then None
      else cons (ReChar c) <$> re_compile rest next depth
  end.

(** A match tried at the start of [text]: [open] is the stack of the
    groups entered and not left, each with what it has captured so far;
    [groups] holds the groups left. *)
Fixpoint re_match_here (items : list re_item) (text : string)
    (open : list (nat * string)) (groups : list (option string))
    : option (list (option string)) :=
  match items with
  | [] => Some groups
  | ReOpen i :: items' => re_match_here items' text ((i, EmptyString) :: open) groups
  | ReClose :: items' =>
      match open with
      | (i, captured) :: open' =>
          re_match_here items' text open' (<[i := Some captured]> groups)
      | [] => None
      end
  | item :: items' =>
      match text with
      | EmptyString => None
      | String c text' =>
          let accepts :=
            match item with
            | ReChar p => Ascii.eqb (ascii_lower p) (ascii_lower c)
            | _ => negb (Ascii.eqb c LF)
            end in
          if accepts
          then re_match_here items' text'
                 (map (λ g, (g.1, g.2 +:+ String c EmptyString)) open) groups
          else None
      end
  end.

Fixpoint count_groups (items : list re_item) : nat :=
  match items with
  | [] => 0
  | ReOpen _ :: items' => S (count_groups items')
  | _ :: items' => count_groups items'
  end.

(** The leftmost position at which the pattern matches. *)
Fixpoint re_scan (items : list re_item) (text : string) : search_result :=
  match re_match_here items text [] (replicate (count_groups items) None) with
  | Some groups => Match groups
  | None =>
      match text with
      | EmptyString => NoMatch
      | String _ text' => re_scan items text'
      end
  end.

Definition ref_search (pattern text : string) : search_result :=
  match re_compile pattern 0 0 with
  | None => ReError
  | Some items => re_scan items text
  end.

(** No element in a text without markup; the parsers do not raise. *)
Definition ref_BeautifulSoup (html : string) (_ : parser) : option soup :=
  Some (Soup [] []).

(** A capture of one entry whose mime type is [null]. *)
Definition null_mime_capture : har_document :=
  HarDocument (Val (HarLog (Val [
    HarEntry (Val (HarRequest (Val "http://example.test/")))
             (Val (HarResponse Absent Absent
                     (Val (HarContent Null Absent Absent))))]))).

(** A capture of one entry with a script URL and no body. *)
Definition script_capture : har_document :=
  HarDocument (Val (HarLog (Val [
    HarEntry (Val (HarRequest (Val "http://example.test/app.js")))
             (Val (HarResponse (Val [HarPair (Val "Server") (Val "nginx")]) Absent
                     (Val (HarContent (Val "text/javascript") Absent Absent))))]))).

(** A capture of one entry whose body, [hello], is in base64. *)
Definition base64_capture : har_document :=
  HarDocument (Val (HarLog (Val [
    HarEntry (Val (HarRequest (Val "http://example.test/")))
             (Val (HarResponse Absent Absent
                     (Val (HarContent (Val "text/html") (Val "aGVsbG8=")
                             (Val "base64")))))]))).

Definition ref_json_load (path : string) : option har_document :=
  if String.eqb path "null_mime.har" then Some null_mime_capture
  else if String.eqb path "script.har" then Some script_capture
  else if String.eqb path "base64.har" then Some base64_capture
  else None.

(** A repeat count of [2**32] does not fit: the pattern raises
    [OverflowError], whatever the text. *)
Definition HUGE_REPEAT : string := "a{4294967296}".

Definition ref_raises (pattern text : string) : option exn :=
  if String.eqb pattern HUGE_REPEAT then Some OverflowError else None.

Definition ref_runtime : Runtime :=
  {| re_search := ref_search;
     re_raises := ref_raises;
     str_lower := map_string ascii_lower;
     str_upper := map_string ascii_upper;
     BeautifulSoup := ref_BeautifulSoup;
     json_load := ref_json_load |}.

(** ** Vocabulary of the statements *)

Definition has_lf (s : string) : bool :=
  existsb (Ascii.eqb LF) (list_ascii_of_string s).

Definition is_match (r : search_result) : bool :=
  match r with
  | Match _ => true
  | ReError | NoMatch => false
  end.

(** The pattern does not match the text, or does not compile. *)
Definition fails `{Runtime} (text pattern : string) : Prop :=
  is_match (re_search (_strip_wappalyzer_pattern pattern) text) = false.

(** The bytes of a segment, and the bytes the decoder keeps. *)
Definition segment_bytes (seg : segment) : list byte :=
  match seg with
  | Valid bs | Invalid bs => bs
  end.

Definition valid_bytes (seg : segment) : list byte :=
  match seg with
  | Valid bs => bs
  | Invalid _ => []
  end.




(** The order the sort leaves: confidences go down. *)
Definition descending (x y : detection) : Prop :=
  (confidence y ≤ confidence x)%Z.

(** The technologies that match, with what the loop stores for each, in the
    order in which the table goes through them. *)
Definition table_detections `{Runtime} (b : signals)
    (techs : list (string * table_entry technology))
    : list (string * detected_entry) :=
  omap (λ item, pair item.1 <$> detected_entry_of b item.2) techs.

(** ** An example store and an example bundle *)

Definition no_patterns : technology :=
  Technology None None None None None None None None None.

(** Two technologies that match twice, one of them past a regex that does
    not compile; one whose only regex does not compile; one that matches
    three times; and a value that is not a dict. *)
Definition example_alpha : technology :=
  Technology (Some (PStr "example")) None None
    (Some [("Server", PStr "nginx")]) None None None None (Some [1%Z]).

Definition example_broken : technology :=
  Technology (Some (PStr "(")) None None None None None None None (Some [1%Z]).

Definition example_beta : technology :=
  Technology (Some (PList ["("; "example"])) None None None
    (Some [("sid", PStr ".")]) None None None None.

Definition example_gamma : technology :=
  Technology (Some (PStr "example")) None
    (Some (PDict [("jquery.(.)", "\1")])) None None None None None
    (Some [1%Z; 2%Z; 3%Z]).

Definition example_technologies : list (string * table_entry technology) :=
  [ ("Alpha", IsDict example_alpha);
    ("Broken", IsDict example_broken);
    ("Beta", IsDict example_beta);
    ("Gamma", IsDict example_gamma);
    ("Raw", NotDict) ].

(** Two categories that share the group 10, and two groups of one name. *)
Definition example_categories : gmap string (table_entry category) :=
  {[ "1" := IsDict (Category (Some "CMS") (Some [10%Z; 11%Z]));
     "2" := IsDict (Category (Some "Blogs") (Some [10%Z])) ]}.

Definition example_groups : gmap string (table_entry group) :=
  {[ "10" := IsDict (Group (Some "Content"));
     "11" := IsDict (Group (Some "Content")) ]}.

Definition example_detector : TechDetector :=
  {| technologies := example_technologies;
     categories := example_categories;
     groups := example_groups;
     detected := [] |}.

Definition example_signals : signals :=
  {| sig_url := "http://example.test/";
     sig_html := "";
     sig_headers := {[ "server" := "nginx" ]};
     sig_cookies := {[ "sid" := "1" ]};
     sig_scripts := ["jquery.3.js"; "main.js"; "jquery.4.js"];
     sig_meta := ∅;
     sig_dns := ∅;
     sig_certIssuer := "" |}.

(** The group [g] is one of a category that the table resolves among
    [cat_ids]. *)
Definition referenced (self : TechDetector) (cat_ids : list Z) (g : Z) : Prop :=
  ∃ cat_id cat_info,
    cat_id ∈ cat_ids
    ∧ categories self !! pretty cat_id = Some (IsDict cat_info)
    ∧ g ∈ default [] (cat_groups cat_info).

(** ** Vocabulary of the further statements *)

(** What a header of the capture puts into the bundle: its key, when it
    has one, and its value. *)
Definition header_key `{Runtime} (h : har_pair) : option string :=
  let name := str_lower (or_empty (get_or_none (pair_name h))) in
  if nonempty name then Some name else None.

Definition pair_text (h : har_pair) : string :=
  or_empty (get_or_none (pair_value h)).

(** The same for a cookie. *)
Definition cookie_key (c : har_pair) : option string :=
  match get_or_none (pair_name c) with
  | Some name => if nonempty name then Some name else None
  | None => None
  end.

(** The same for a [<meta>] tag. *)
Definition meta_key (tag : meta_tag) : option string :=
  let name := py_or (meta_name tag)
                (py_or (meta_property tag) (meta_http_equiv tag)) in
  if is_truthy name && is_truthy (meta_content tag)
  then Some (or_empty name) else None.

Definition meta_text (tag : meta_tag) : string := or_empty (meta_content tag).

(** The mime type of an entry can be read, and has or lacks [html]. *)
Definition mime_has_html `{Runtime} (e : har_entry) : Prop :=
  ∃ mime, entry_mimeType e = Ok (Some mime)
          ∧ contains "html" (str_lower mime) = true.

Definition mime_lacks_html `{Runtime} (e : har_entry) : Prop :=
  ∃ mime, entry_mimeType e = Ok (Some mime)
          ∧ contains "html" (str_lower mime) = false.

(** The number of characters of a string: the bytes that do not continue
    a character. *)
Fixpoint char_count (s : string) : nat :=
  match s with
  | EmptyString => 0
  | String c s' =>
      if continuation (byte_of_ascii c) then char_count s'
      else S (char_count s')
  end.

(** The bundle without any signal. *)
Definition no_signals : signals :=
  {| sig_url := ""; sig_html := ""; sig_headers := ∅; sig_cookies := ∅;
     sig_scripts := []; sig_meta := ∅; sig_dns := ∅; sig_certIssuer := "" |}.

(** The name under which the categories table shows a category id, if it
    does. *)
Definition category_display (self : TechDetector) (cat_id : Z) : option string :=
  match categories self !! pretty cat_id with
  | Some (IsDict cat_info) =>
      Some (default ("Category " +:+ pretty cat_id) (cat_name cat_info))
  | _ => None
  end.

(** The URL of the request of an entry and the mime type of its response
    as the loop over the scripts takes them, and what the loop appends for
    the entry. *)
Definition entry_url (e : har_entry) : string :=
  field_or (request_url (field_or (entry_request e) no_request)) "".

Definition entry_mime (e : har_entry) : string :=
  field_or
    (content_mimeType
       (field_or (response_content (field_or (entry_response e) no_response))
          no_content)) "".

Definition script_url_of `{Runtime} (e : har_entry) : option string :=
  if contains "javascript" (str_lower (entry_mime e))
     || endswith (entry_url e) ".js"
  then Some (entry_url e) else None.

(** No member that the parse reads through [get] is [null] in the entry. *)
Definition null_free_entry (e : har_entry) : Prop :=
  entry_request e ≠ Null
  ∧ entry_response e ≠ Null
  ∧ ∀ response, entry_response e = Val response →
      response_headers response ≠ Null
      ∧ response_cookies response ≠ Null
      ∧ response_content response ≠ Null
      ∧ ∀ content, response_content response = Val content →
          content_mimeType content ≠ Null.

(** The check that leaves a label succeeds: the spec of the signal matches
    the value of the bundle for it. *)
Definition label_hit `{Runtime} (b : signals) (t : technology) (label : string)
    : Prop :=
  (label = "url"
   ∧ ∃ p, tech_url t = Some p ∧ _check_pattern (sig_url b) p = true)
  ∨ (label = "html"
     ∧ ∃ p, tech_html t = Some p
            ∧ (_check_pattern_with_version (sig_html b) p).1 = true)
  ∨ (label = "scripts"
     ∧ ∃ p script,
         tech_scripts t = Some p
         ∧ script ∈ from_option script_srcs [] (analyze_soup (sig_html b))
                    ++ sig_scripts b
         ∧ (_check_pattern_with_version script p).1 = true)
  ∨ (∃ items n p,
       tech_headers t = Some items ∧ (n, p) ∈ items
       ∧ label = "headers:" +:+ n
       ∧ (_check_pattern_with_version (header_value (sig_headers b) n) p).1
         = true)
  ∨ (∃ items n p,
       tech_cookies t = Some items ∧ (n, p) ∈ items
       ∧ label = "cookies:" +:+ n
       ∧ _check_pattern (get_str (sig_cookies b) n) p = true)
  ∨ (∃ items n p,
       tech_meta t = Some items ∧ (n, p) ∈ items
       ∧ label = "meta:" +:+ n
       ∧ (_check_pattern_with_version (get_str (sig_meta b) n) p).1 = true)
  ∨ (∃ items n p v,
       tech_dns t = Some items ∧ (n, p) ∈ items
       ∧ label = "dns:" +:+ n
       ∧ v ∈ default [] (sig_dns b !! str_upper n)
       ∧ _check_pattern v p = true)
  ∨ (label = "certIssuer"
     ∧ ∃ p, tech_certIssuer t = Some p
            ∧ _check_pattern (sig_certIssuer b) p = true).

(** The value of a table is a dict. *)
Definition is_dict {A : Type} (e : table_entry A) : bool :=
  match e with
  | IsDict _ => true
  | NotDict => false
  end.

(** The dict without any key given to [analyze_json]. *)
Definition no_json_data : json_data :=
  JsonData Absent Absent Absent Absent Absent Absent Absent Absent Absent.

(** The entries of a technology table whose value is a dict, and the
    instance with that table. *)
Definition dict_entries (techs : list (string * table_entry technology))
    : list (string * table_entry technology) :=
  List.filter (λ item, is_dict item.2) techs.

Definition without_non_dicts (self : TechDetector) : TechDetector :=
  {| technologies := dict_entries (technologies self);
     categories := categories self;
     groups := groups self;
     detected := detected self |}.

(** The instance holds the tables that were loaded. *)
Definition holds_tables (self : TechDetector)
    (techs : list (string * table_entry technology))
    (cats : gmap string (table_entry category))
    (grps : gmap string (table_entry group)) : Prop :=
  technologies self = techs ∧ categories self = cats ∧ groups self = grps.

(** ** Loading the technology table ([data_loader.py]) *)

(** What [_load_json_file] and [_download_json] return when they return a
    value: a dict, or a JSON value of another kind. *)
Inductive json_doc (D : Type) : Type :=
| JsonDict (d : D)
| JsonOther.
Arguments JsonDict {D} d.
Arguments JsonOther {D}.

Definition techs_table : Type := list (string * table_entry technology).

(** The module's cache of the table and the file [TECHNOLOGIES_JSON_PATH],
    as [_load_json_file] reads it: [None] when there is no file or it
    cannot be read as JSON. *)
Record loader_state : Type := LoaderState {
  TECHNOLOGIES_CACHE : option techs_table;
  technologies_json : option (json_doc techs_table)
}.

(** What a call finds outside: the answer of [_download_json] to a URL
    ([None] for any failure), and the file [_save_json_file] leaves, given
    the file before and the data; a failure to write is logged and leaves
    a file of any content. *)
Record world : Type := World {
  _download_json : string → option (json_doc techs_table);
  _save_json_file : option (json_doc techs_table) → techs_table
                    → option (json_doc techs_table)
}.

Definition REMOTE_BASE : string :=
  "https://raw.githubusercontent.com/enthec/webappanalyzer/main/src".

(** [["_.json"] + [f"{c}.json" for c in "abcdefghijklmnopqrstuvwxyz"]] *)
Definition alphabet_files : list string :=
  "_.json"
  :: map (λ c, String c ".json")
       (list_ascii_of_string "abcdefghijklmnopqrstuvwxyz").

(** [d.update(data)] *)
Definition dict_update {V : Type} (d data : list (string * V))
    : list (string * V) :=
  foldl (λ acc item, dict_set item.1 item.2 acc) d data.

(** The dict a shard file gives, and [{}] when the download fails or
    gives no dict. *)
Definition shard (w : world) (filename : string) : techs_table :=
  match _download_json w (REMOTE_BASE +:+ "/technologies/" +:+ filename) with
  | Some (JsonDict data) => data
  | _ => []
  end.

(** The loop over [alphabet_files]. *)
Definition merge_shards (w : world) (files : list string) : techs_table :=
  foldl (λ all_techs filename,
           match _download_json w
                   (REMOTE_BASE +:+ "/technologies/" +:+ filename) with
           | Some (JsonDict data) => dict_update all_techs data
           | _ => all_techs
           end)
        [] files.

(** [load_technologies]: the state afterwards and the table returned. *)
Definition load_technologies (w : world) (st : loader_state)
    : loader_state * techs_table :=
  match TECHNOLOGIES_CACHE st with
  | Some cached => (st, cached)
  | None =>
      match technologies_json st with
      | Some (JsonDict local) =>
          ({| TECHNOLOGIES_CACHE := Some local;
              technologies_json := technologies_json st |}, local)
      | _ =>
          let all_techs := merge_shards w alphabet_files in
          ({| TECHNOLOGIES_CACHE := Some all_techs;
              technologies_json :=
                match all_techs with
                | [] => technologies_json st
                | _ :: _ => _save_json_file w (technologies_json st) all_techs
                end |},
           all_techs)
      end
  end.

(** A new process: no cache, and the files as they are. *)
Definition restart (st : loader_state) : loader_state :=
  {| TECHNOLOGIES_CACHE := None; technologies_json := technologies_json st |}.

(** ** The names of the capture files ([capture.py]) *)

Definition is_slug_char (c : ascii) : bool :=
  let n := N_of_ascii c in
  ((97 <=? n)%N && (n <=? 122)%N) || ((48 <=? n)%N && (n <=? 57)%N).

Definition DASH : ascii := "-"%char.

(** [re.sub(r"[^a-z0-9]+", "-", s)]: every maximal run of characters
    outside [a-z0-9] becomes one ["-"]; [in_run] says that the character
    before was of such a run.  A character that is not ASCII is a sequence
    of bytes outside [a-z0-9], so a run of such characters is a run of
    such bytes. *)
Fixpoint sub_runs (in_run : bool) (s : string) : string :=
  match s with
  | EmptyString => EmptyString
  | String c s' =>
      if is_slug_char c then String c (sub_runs false s')
      else if in_run then sub_runs true s'
      else String DASH (sub_runs true s')
  end.

(** [s.strip("-")], from the left and from the right. *)
Fixpoint lstrip_dash (s : string) : string :=
  match s with
  | EmptyString => EmptyString
  | String c s' => if Ascii.eqb c DASH then lstrip_dash s' else s
  end.

Fixpoint rstrip_dash (s : string) : string :=
  match s with
  | EmptyString => EmptyString
  | String c s' =>
      let r := rstrip_dash s' in
      if Ascii.eqb c DASH && negb (nonempty r) then EmptyString
      else String c r
  end.

Definition strip_dash (s : string) : string := rstrip_dash (lstrip_dash s).

(** [slug] in [build_capture_paths]. *)
Definition capture_slug `{Runtime} (url : string) : string :=
  let s := strip_dash (sub_runs false (str_lower url)) in
  if nonempty s then s else "capture".

Section CapturePaths.
Context {rt : Runtime}.

(** [pathlib.Path] and its [/]; the two values of
    [datetime.utcnow().strftime(...)]; the directories of the
    environment. *)
Variable Path : Type.
Variable joinpath : Path → string → Path.
Variable ts day : string.
Variable env_capture_dir env_screenshot_dir : Path.

Definition build_capture_paths (url : string) (with_screenshot : bool)
    (har_dir screenshot_dir : option Path) : Path * option Path :=
  let slug := capture_slug url in
  let base_har_dir := joinpath (default env_capture_dir har_dir) day in
  let har_path := joinpath base_har_dir (slug +:+ "-" +:+ ts +:+ ".har") in
  let screenshot_path :=
    if with_screenshot
    then Some (joinpath
                 (joinpath (default env_screenshot_dir screenshot_dir) day)
                 (slug +:+ "-" +:+ ts +:+ ".png"))
    else None in
  (har_path, screenshot_path).

End CapturePaths.

(** ** The checks of the credentials ([web.py]) *)

(** [s.split(sep, 1)] when [sep] occurs in [s]: what is before its first
    occurrence and what is after. *)
Fixpoint split_once (sep : ascii) (s : string) : option (string * string) :=
  match s with
  | EmptyString => None
  | String c s' =>
      if Ascii.eqb c sep then Some (EmptyString, s')
      else match split_once sep s' with
           | Some (before, after) => Some (String c before, after)
           | None => None
           end
  end.

(** What a dependency of an endpoint does: it returns, raises
    [HTTPException] with the status 401, or raises [IndexError]. *)
Inductive auth_outcome : Type :=
| Granted
| Unauthorized
| IndexError.

Section WebAuth.
Context {rt : Runtime}.

(** [str.strip()]. *)
Variable str_strip : string → string.

(** The settings of the environment. *)
Variable api_bearer basic_user basic_pass : string.

(** The body of [try:] up to the unpacking of [user, pwd]: [None] when it
    raises. *)
Definition basic_credentials (header : string) : option (string * string) :=
  match split_once " " header with
  | None => None
  | Some (_, encoded) =>
      match b64decode encoded with
      | None => None
      | Some data =>
          match decode_utf8 Strict data with
          | None => None
          | Some decoded => split_once ":" decoded
          end
      end
  end.

Definition _check_api_token (header : string) : auth_outcome :=
  let want_auth :=
    nonempty api_bearer || (nonempty basic_user && nonempty basic_pass) in
  if negb want_auth then Granted
  else
    let basic_branch :=
      if startswith (str_lower header) "basic "
      then match basic_credentials header with
           | Some (user, pwd) =>
               if nonempty basic_user && nonempty basic_pass
                  && String.eqb user basic_user && String.eqb pwd basic_pass
               then Granted else Unauthorized
           | None => Unauthorized
           end
      else Unauthorized in
    if startswith (str_lower header) "bearer "
    then match split_once " " header with
         | None => IndexError
         | Some (_, rest) =>
             let token := str_strip rest in
             if nonempty api_bearer && String.eqb token api_bearer
             then Granted
             else if nonempty basic_user && nonempty basic_pass
                     && String.eqb token (basic_user +:+ ":" +:+ basic_pass)
             then Granted
             else basic_branch
         end
    else basic_branch.

Definition _check_basic (header : string) : auth_outcome :=
  if negb (nonempty basic_user && nonempty basic_pass) then Granted
  else
    if startswith (str_lower header) "basic "
    then match basic_credentials header with
         | Some (user, pwd) =>
             if String.eqb user basic_user && String.eqb pwd basic_pass
             then Granted else Unauthorized
         | None => Unauthorized
         end
    else Unauthorized.

End WebAuth.

(** ** Examples for the loader and the checks of the credentials *)

(** A remote with the shards [a.json], [b.json] and [g.json], of which
    the last two hold the key [Beta], and a file system that takes every
    write. *)
Definition example_remote (url : string) : option (json_doc techs_table) :=
  if String.eqb url (REMOTE_BASE +:+ "/technologies/a.json")
  then Some (JsonDict [("Alpha", IsDict example_alpha)])
  else if String.eqb url (REMOTE_BASE +:+ "/technologies/b.json")
  then Some (JsonDict [("Beta", IsDict example_broken);
                       ("Broken", IsDict example_broken)])
  else if String.eqb url (REMOTE_BASE +:+ "/technologies/g.json")
  then Some (JsonDict [("Gamma", IsDict example_gamma);
                       ("Beta", IsDict example_beta)])
  else if String.eqb url (REMOTE_BASE +:+ "/technologies/r.json")
  then Some JsonOther
  else None.

Definition example_world : world :=
  {| _download_json := example_remote;
     _save_json_file := λ _ data, Some (JsonDict data) |}.

(** A remote that does not answer and a file system that takes no
    write. *)
Definition offline_world : world :=
  {| _download_json := λ _, None;
     _save_json_file := λ file _, file |}.

Definition first_start : loader_state :=
  {| TECHNOLOGIES_CACHE := None; technologies_json := None |}.

(** Every character of [s] is of [a-z0-9] or is ["-"]. *)
Definition slug_alphabet (s : string) : Prop :=
  Forall (λ c, is_slug_char c = true ∨ c = DASH) (list_ascii_of_string s).

(** ** Vocabulary of the statements on exceptions and on labels *)


(** The call returns [a], or it raises an exception that a call of
    [re.search] raised. *)
Definition settles `{Runtime} {A : Type} (r : result A) (a : A) : Prop :=
  r = Ok a ∨ ∃ e pat text, r = Raise e ∧ re_raises pat text = Some e.

(** The label of a check, once when the check succeeds. *)
Definition hit (succeeds : bool) (label : string) : list string :=
  if succeeds then [label] else [].


(** The candidates at the positions where they come for the first time,
    in the order of the positions. *)
Definition first_occurrences (l : list string) : list string :=
  omap (λ j, s ← l !! j;
             if bool_decide (s ∈ take j l) then None else Some s)
       (seq 0 (length l)).



(** ** Facts about strings *)

Lemma append_empty (s : string) : EmptyString +:+ s = s.
Proof. reflexivity. Qed.

Lemma append_cons (c : ascii) (s t : string) :
  String c s +:+ t = String c (s +:+ t).
Proof. reflexivity. Qed.

Lemma dotstar_eol_no_lf s : has_lf s = false → dotstar_eol s = Some EmptyString.
Proof.
  induction s as [|c s IH]; [done|].
  unfold has_lf. cbn -[Ascii.eqb]. intros [Hc Hs]%orb_false_iff.
  rewrite Ascii.eqb_sym, Hc. by apply IH.
Qed.

Lemma strip_cons c p :
  startswith (String c p) SEPARATOR = false →
  _strip_wappalyzer_pattern (String c p) = String c (_strip_wappalyzer_pattern p).
Proof.
  intros Hp. cbn -[startswith]. by rewrite Hp.
Qed.

Lemma strip_without_separator p :
  contains SEPARATOR p = false → _strip_wappalyzer_pattern p = p.
Proof.
  induction p as [|c p IH]; [done|].
  intros [Hhd Htl]%orb_false_iff.
  by rewrite (strip_cons _ _ Hhd), (IH Htl).
Qed.

Lemma startswith_separator_app c p s :
  startswith (String c p) SEPARATOR = false →
  startswith (String c (p +:+ SEPARATOR +:+ s)) SEPARATOR = false.
Proof.
  destruct p as [|d p]; rewrite ?append_empty, ?append_cons;
    cbn -[Ascii.eqb]; destruct (Ascii.eqb BACKSLASH c); done.
Qed.

Lemma strip_at_separator p s :
  contains SEPARATOR p = false → has_lf s = false →
  _strip_wappalyzer_pattern (p +:+ SEPARATOR +:+ s) = p.
Proof.
  intros Hp Hs. induction p as [|c p IH].
  - rewrite append_empty. unfold SEPARATOR. rewrite !append_cons, append_empty.
    cbn -[dotstar_eol]. by rewrite (dotstar_eol_no_lf _ Hs).
  - apply orb_false_iff in Hp as [Hhd Htl]. rewrite append_cons.
    by rewrite (strip_cons _ _ (startswith_separator_app _ _ s Hhd)), (IH Htl).
Qed.

Lemma replace_scan_absent old new s :
  contains old s = false → replace_scan old new s 0 = s.
Proof.
  induction s as [|c s IH]; [done|].
  intros [Hhd Htl]%orb_false_iff. cbn -[startswith].
  by rewrite Hhd, (IH Htl).
Qed.

Lemma str_replace_absent old new s :
  nonempty old = true → contains old s = false → str_replace old new s = s.
Proof. destruct old; [done|]. intros _. apply replace_scan_absent. Qed.

(** ** Facts about the pattern helpers *)


Section PatternFacts.
Context {rt : Runtime}.

Lemma any_pattern_matches_app text ps qs :
  any_pattern_matches text (ps ++ qs)
  = any_pattern_matches text ps || any_pattern_matches text qs.
Proof.
  induction ps as [|p ps IH]; [done|]. cbn.
  by destruct (re_search _ text).
Qed.

Lemma any_pattern_matches_stripped text ps qs :
  map _strip_wappalyzer_pattern ps = map _strip_wappalyzer_pattern qs →
  any_pattern_matches text ps = any_pattern_matches text qs.
Proof.
  revert qs. induction ps as [|p ps IH]; intros [|q qs] Heq; try done.
  cbn in *. injection Heq as -> Hrest. by rewrite (IH _ Hrest).
Qed.

Lemma any_pattern_matches_skip text pre bad post :
  fails text bad →
  any_pattern_matches text (pre ++ bad :: post)
  = any_pattern_matches text (pre ++ post).
Proof.
  unfold fails. intros Hbad. rewrite !any_pattern_matches_app. f_equal. cbn.
  by destruct (re_search _ text).
Qed.

Lemma first_versioned_match_skip text pre es :
  Forall (λ e, fails text e.1) pre →
  first_versioned_match text (pre ++ es) = first_versioned_match text es.
Proof.
  induction 1 as [|[p v] pre Hp _ IH]; [done|]. cbn in *.
  unfold fails in Hp. by destruct (re_search _ text).
Qed.

Lemma first_versioned_match_drop text pre bad post :
  fails text bad.1 →
  first_versioned_match text (pre ++ bad :: post)
  = first_versioned_match text (pre ++ post).
Proof.
  intros Hbad. induction pre as [|[p v] pre IH].
  - destruct bad as [p v]. cbn in *. unfold fails in Hbad.
    by destruct (re_search _ text).
  - cbn. by rewrite IH.
Qed.

Lemma first_versioned_match_stripped text es fs :
  map (λ e, (_strip_wappalyzer_pattern e.1, e.2)) es
  = map (λ e, (_strip_wappalyzer_pattern e.1, e.2)) fs →
  first_versioned_match text es = first_versioned_match text fs.
Proof.
  revert fs. induction es as [|[p v] es IH]; intros [|[q w] fs] Heq; try done.
  cbn in *. injection Heq as -> -> Hrest. by rewrite (IH _ Hrest).
Qed.

Lemma truthy_PList_app pre x post : truthy (PList (pre ++ x :: post)) = true.
Proof. by destruct pre. Qed.

Lemma truthy_PDict_app pre x post : truthy (PDict (pre ++ x :: post)) = true.
Proof. by destruct pre. Qed.

End PatternFacts.

(** ** The metadata suffix of a pattern *)

(** C9, as amended: when no line feed follows the first occurrence of the
    two characters [\;] in a regex string, that occurrence and all that
    follows it are removed before the regex is compiled, and what is
    removed has no effect on the outcome: in a list or a versioned map the
    string stands for the bare pattern before the occurrence, and alone it
    is searched as that pattern. *)
Theorem strip_wappalyzer_pattern_cuts_metadata `{Runtime}
    (text p s v : string) (pre post : list string)
    (pre' post' : list (string * string)) :
  contains SEPARATOR p = false →
  has_lf s = false →
  let pattern := p +:+ SEPARATOR +:+ s in
  _strip_wappalyzer_pattern pattern = p
  ∧ _check_pattern text (PStr pattern)
    = nonempty text && is_match (re_search p text)
  ∧ _check_pattern text (PList (pre ++ pattern :: post))
    = _check_pattern text (PList (pre ++ p :: post))
  ∧ _check_pattern_with_version text (PList (pre ++ pattern :: post))
    = _check_pattern_with_version text (PList (pre ++ p :: post))
  ∧ _check_pattern_with_version text (PDict (pre' ++ (pattern, v) :: post'))
    = _check_pattern_with_version text (PDict (pre' ++ (p, v) :: post')).
Proof.
  intros Hp Hs pattern.
  assert (Hcut : _strip_wappalyzer_pattern pattern = p)
    by by apply strip_at_separator.
  assert (Hbare : _strip_wappalyzer_pattern p = p)
    by by apply strip_without_separator.
  assert (Hlist : any_pattern_matches text (pre ++ pattern :: post)
                  = any_pattern_matches text (pre ++ p :: post)).
  { apply any_pattern_matches_stripped.
    by rewrite !map_app, !map_cons, Hcut, Hbare. }
  split_and!.
  - done.
  - unfold _check_pattern.
    assert (truthy (PStr pattern) = true) as ->.
    { unfold pattern. destruct p; by rewrite ?append_empty, ?append_cons. }
    destruct (nonempty text); [|done]. cbn. rewrite Hcut.
    by destruct (re_search p text).
  - unfold _check_pattern. by rewrite !truthy_PList_app, Hlist.
  - unfold _check_pattern_with_version. by rewrite !truthy_PList_app, Hlist.
  - unfold _check_pattern_with_version. rewrite !truthy_PDict_app.
    destruct (negb (nonempty text) || negb true); [done|].
    apply first_versioned_match_stripped.
    by rewrite !map_app, !map_cons; cbn; rewrite Hcut, Hbare.
Qed.

Lemma strip_wappalyzer_pattern_cuts_metadata_witness :
  contains SEPARATOR "nginx" = false
  ∧ has_lf "version:1" = false
  ∧ _strip_wappalyzer_pattern ("nginx" +:+ SEPARATOR +:+ "version:1") = "nginx".
Proof.
  split; [reflexivity|]. split; [reflexivity|].
  apply (@strip_wappalyzer_pattern_cuts_metadata ref_runtime
           "my nginx" "nginx" "version:1" "" [] [] [] []); reflexivity.
Defined.

(** C9 as stated fails: a line feed after the two characters keeps the
    regex [\;.*$] from matching, and nothing is removed, where the claim
    has the string cut down to ["a"]. *)
Lemma strip_wappalyzer_pattern_keeps_metadata_before_line_feed :
  let pattern := "a" +:+ SEPARATOR +:+ "b" +:+ String LF "c" in
  _strip_wappalyzer_pattern pattern = pattern
  ∧ _strip_wappalyzer_pattern pattern ≠ "a".
Proof. split; [reflexivity|discriminate]. Qed.

(** ** Facts about dicts kept in insertion order *)

Lemma dict_set_fresh {V : Type} (k : string) (v : V) (d : list (string * V)) :
  k ∉ d.*1 → dict_set k v d = d ++ [(k, v)].
Proof.
  induction d as [|[k' v'] d IH]; [done|].
  cbn. intros Hk. apply not_elem_of_cons in Hk as [Hne Hk].
  destruct (String.eqb_spec k k'); [done|]. by rewrite IH.
Qed.


(** ** Facts about the sort *)

Lemma insert_by_confidence_Permutation d l :
  insert_by_confidence d l ≡ₚ d :: l.
Proof.
  induction l as [|x l IH]; [done|]. cbn.
  destruct (confidence x <=? confidence d)%Z; [done|].
  by rewrite IH, Permutation_swap.
Qed.

Lemma sort_by_confidence_Permutation l : sort_by_confidence l ≡ₚ l.
Proof.
  induction l as [|d l IH]; [done|]. cbn.
  by rewrite insert_by_confidence_Permutation, IH.
Qed.

Lemma insert_by_confidence_sorted d l :
  StronglySorted descending l → StronglySorted descending (insert_by_confidence d l).
Proof.
  induction 1 as [|x l Hl IH Hx]; cbn; [repeat constructor|].
  destruct (Z.leb_spec (confidence x) (confidence d)).
  - constructor; [by constructor|]. constructor; [done|].
    eapply Forall_impl; [exact Hx|]. unfold descending. cbn. lia.
  - constructor; [done|].
    rewrite insert_by_confidence_Permutation. constructor; [|done].
    unfold descending. lia.
Qed.

Lemma sort_by_confidence_sorted l : StronglySorted descending (sort_by_confidence l).
Proof.
  induction l as [|d l IH]; cbn; [constructor|].
  by apply insert_by_confidence_sorted.
Qed.

Lemma insert_by_confidence_stable c d l :
  filter (λ x, confidence x = c) (insert_by_confidence d l)
  = filter (λ x, confidence x = c) (d :: l).
Proof.
  induction l as [|x l IH]; [done|]. cbn.
  destruct (Z.leb_spec (confidence x) (confidence d)) as [Hle|Hlt]; [done|].
  rewrite filter_cons, IH, !filter_cons.
  destruct (decide (confidence x = c)), (decide (confidence d = c)); try done.
  lia.
Qed.

Lemma sort_by_confidence_stable c l :
  filter (λ x, confidence x = c) (sort_by_confidence l)
  = filter (λ x, confidence x = c) l.
Proof.
  induction l as [|d l IH]; [done|].
  change (sort_by_confidence (d :: l))
    with (insert_by_confidence d (sort_by_confidence l)).
  by rewrite insert_by_confidence_stable, !filter_cons, IH.
Qed.

(** A list that goes down in confidence and keeps the order of the
    elements of each confidence is determined: every stable sort gives the
    list that [sort_by_confidence] gives. *)
Lemma sorted_stable_unique l1 l2 :
  StronglySorted descending l1 →
  StronglySorted descending l2 →
  (∀ c, filter (λ x, confidence x = c) l1 = filter (λ x, confidence x = c) l2) →
  l1 = l2.
Proof.
  intros Hs1. revert l2.
  induction Hs1 as [|x l1 Hs1 IH Hx]; intros l2 Hs2 Hf.
  - destruct l2 as [|y l2]; [done|].
    specialize (Hf (confidence y)). rewrite filter_cons in Hf.
    by destruct (decide (confidence y = confidence y)).
  - destruct Hs2 as [|y l2 Hs2 Hy].
    { specialize (Hf (confidence x)). rewrite filter_cons in Hf.
      by destruct (decide (confidence x = confidence x)). }
    assert (confidence y = confidence x) as Hc.
    { destruct (decide (confidence y = confidence x)) as [|Hne]; [done|].
      exfalso.
      assert (x ∈ l2) as Hx2.
      { pose proof (Hf (confidence x)) as Hfx. rewrite !filter_cons in Hfx.
        destruct (decide (confidence x = confidence x)); [|done].
        destruct (decide (confidence y = confidence x)); [done|].
        assert (x ∈ filter (λ d, confidence d = confidence x) l2) as Hin
          by (rewrite <- Hfx; left).
        by apply list_elem_of_filter in Hin as [_ Hin]. }
      assert (y ∈ l1) as Hy1.
      { pose proof (Hf (confidence y)) as Hfy. rewrite !filter_cons in Hfy.
        destruct (decide (confidence y = confidence y)); [|done].
        destruct (decide (confidence x = confidence y)); [done|].
        assert (y ∈ filter (λ d, confidence d = confidence y) l1) as Hin
          by (rewrite Hfy; left).
        by apply list_elem_of_filter in Hin as [_ Hin]. }
      rewrite Forall_forall in Hx, Hy.
      pose proof (Hx y Hy1). pose proof (Hy x Hx2). unfold descending in *. lia. }
    assert (x = y) as <-.
    { pose proof (Hf (confidence x)) as Hfx. rewrite !filter_cons in Hfx.
      destruct (decide (confidence x = confidence x)); [|done].
      destruct (decide (confidence y = confidence x)); [|done].
      by injection Hfx. }
    f_equal. apply IH; [done|]. intros c. specialize (Hf c).
    rewrite !filter_cons in Hf.
    destruct (decide (confidence x = c)); [by injection Hf|done].
Qed.

Lemma stable_sort_is_sort_by_confidence l l' :
  StronglySorted descending l' →
  (∀ c, filter (λ x, confidence x = c) l' = filter (λ x, confidence x = c) l) →
  l' = sort_by_confidence l.
Proof.
  intros Hs Hf. apply sorted_stable_unique; [done|apply sort_by_confidence_sorted|].
  intros c. by rewrite sort_by_confidence_stable.
Qed.

(** ** Facts about the loop over the technologies *)

Section EngineFacts.
Context {rt : Runtime}.

Lemma analyze_loop b techs det :
  NoDup techs.*1 →
  (∀ k, k ∈ det.*1 → k ∉ techs.*1) →
  foldl (analyze_step b) det techs = det ++ table_detections b techs.
Proof.
  revert det. induction techs as [|[k e] techs IH]; intros det Hnd Hfresh.
  - by rewrite app_nil_r.
  - apply NoDup_cons in Hnd as [Hk Hnd]. cbn in Hk.
    cbn -[analyze_step]. unfold analyze_step at 2. cbn [fst snd].
    destruct (detected_entry_of b e) as [entry|] eqn:He; cbn [fmap option_fmap option_map].
    + rewrite dict_set_fresh.
      2: { intros Hin. apply (Hfresh k Hin). cbn. left. }
      rewrite IH; [by rewrite <- app_assoc|done|].
      intros k'. rewrite fmap_app, elem_of_app. cbn.
      intros [Hin| ->%list_elem_of_singleton]; [|done].
      intros Hin'. apply (Hfresh k' Hin). cbn. by right.
    + apply IH; [done|]. intros k' Hin Hin'.
      apply (Hfresh k' Hin). cbn. by right.
Qed.

Lemma analyze_detected self b :
  NoDup (technologies self).*1 →
  detected (analyze self b).1 = table_detections b (technologies self).
Proof.
  intros Hnd. cbn. rewrite analyze_loop; [done|done|].
  intros k Hk. by apply elem_of_nil in Hk.
Qed.

Lemma format_result_name self item : name (format_result self item) = item.1.
Proof. done. Qed.

Lemma format_result_confidence self item :
  confidence (format_result self item) = det_confidence item.2.
Proof. done. Qed.

Lemma analyze_result self b :
  (analyze self b).2
  = sort_by_confidence
      (format_result (analyze self b).1 <$> detected (analyze self b).1).
Proof. done. Qed.

Lemma elem_of_analyze self b d :
  d ∈ (analyze self b).2 ↔
  ∃ item, item ∈ detected (analyze self b).1
          ∧ d = format_result (analyze self b).1 item.
Proof.
  rewrite analyze_result, sort_by_confidence_Permutation, list_elem_of_fmap.
  split; intros (item & H1 & H2); eauto.
Qed.

Lemma elem_of_table_detections b techs k entry :
  (k, entry) ∈ table_detections b techs ↔
  ∃ e, (k, e) ∈ techs ∧ detected_entry_of b e = Some entry.
Proof.
  unfold table_detections. rewrite list_elem_of_omap. split.
  - intros [[k' e] [Hin Heq]]. cbn in Heq.
    destruct (detected_entry_of b e) eqn:He; [|done].
    cbn in Heq. injection Heq as -> ->. eauto.
  - intros [e [Hin He]]. exists (k, e). split; [done|]. cbn. by rewrite He.
Qed.

Lemma detected_entry_of_Some b e entry :
  detected_entry_of b e = Some entry ↔
  ∃ t, e = IsDict t ∧ (tech_checks b t).1 ≠ []
       ∧ entry = {| det_versions := elements (tech_checks b t).2;
                    det_confidence := confidence_of (tech_checks b t).1;
                    det_matches := (tech_checks b t).1;
                    det_categories := default [] (tech_cats t) |}.
Proof.
  destruct e as [t|]; cbn.
  - destruct (tech_checks b t).1 eqn:Hm.
    + split; [done|]. intros (t' & [= <-] & Hne & _). by rewrite Hm in Hne.
    + split.
      * intros [= <-]. exists t. by rewrite Hm.
      * intros (t' & [= <-] & _ & ->). by rewrite Hm.
  - split; [done|]. by intros (t & ? & _).
Qed.



Lemma analyze_elem_intro self b n t :
  NoDup (technologies self).*1 →
  (n, IsDict t) ∈ technologies self →
  (tech_checks b t).1 ≠ [] →
  ∃ d, d ∈ (analyze self b).2 ∧ name d = n.
Proof.
  intros Hnd Hin Hne. set (entry := {|
    det_versions := elements (tech_checks b t).2;
    det_confidence := confidence_of (tech_checks b t).1;
    det_matches := (tech_checks b t).1;
    det_categories := default [] (tech_cats t) |}).
  exists (format_result (analyze self b).1 (n, entry)). split; [|done].
  apply elem_of_analyze. exists (n, entry). split; [|done].
  rewrite analyze_detected by done. apply elem_of_table_detections.
  exists (IsDict t). split; [done|].
  apply detected_entry_of_Some. by exists t.
Qed.

End EngineFacts.

Lemma example_technologies_NoDup : NoDup example_technologies.*1.
Proof. apply (bool_decide_unpack _). reflexivity. Qed.

Section EngineTheorems.
Context {rt : Runtime}.

Lemma filter_formatted self c (items : list (string * detected_entry)) :
  name <$> filter (λ d, confidence d = c) (format_result self <$> items)
  = (filter (λ x, det_confidence x.2 = c) items).*1.
Proof.
  induction items as [|item items IH]; [done|].
  rewrite fmap_cons, !filter_cons, format_result_confidence.
  destruct (decide (det_confidence item.2 = c)); [|done].
  by rewrite !fmap_cons, IH.
Qed.

Lemma table_detections_sublist b techs :
  (table_detections b techs).*1 `sublist_of` techs.*1.
Proof.
  induction techs as [|[k e] techs IH]; [done|].
  unfold table_detections. cbn.
  destruct (detected_entry_of b e); cbn.
  - by apply sublist_skip.
  - by apply sublist_cons.
Qed.

(** C3: the list [analyze] returns goes down in confidence, and the
    detections of one confidence come in the order in which the technology
    table goes through their technologies. *)
Theorem analyze_sorted_stable (self : TechDetector) (b : signals) :
  NoDup (technologies self).*1 →
  StronglySorted descending (analyze self b).2
  ∧ (∀ c, name <$> filter (λ d, confidence d = c) (analyze self b).2
          = (filter (λ x, det_confidence x.2 = c)
               (table_detections b (technologies self))).*1)
  ∧ (table_detections b (technologies self)).*1
      `sublist_of` (technologies self).*1.
Proof.
  intros Hnd. split_and!.
  - rewrite analyze_result. apply sort_by_confidence_sorted.
  - intros c.
    by rewrite analyze_result, sort_by_confidence_stable, filter_formatted,
      analyze_detected.
  - apply table_detections_sublist.
Qed.



End EngineTheorems.

Lemma analyze_sorted_stable_witness :
  NoDup example_technologies.*1
  ∧ StronglySorted descending
      (@analyze ref_runtime example_detector example_signals).2.
Proof.
  split; [exact example_technologies_NoDup|].
  apply (@analyze_sorted_stable ref_runtime example_detector example_signals).
  exact example_technologies_NoDup.
Defined.

Lemma example_gamma_in_table :
  ("Gamma", IsDict example_gamma) ∈ technologies example_detector.
Proof. apply list_elem_of_In. cbn. tauto. Qed.


Lemma example_gamma_labels :
  (@tech_checks ref_runtime example_signals example_gamma).1 ≠ [].
Proof. vm_compute. discriminate. Qed.


Section SkipTheorems.
Context {rt : Runtime}.

Lemma check_pattern_empty_text p :
  _check_pattern "" p = false ∧ _check_pattern_with_version "" p = (false, None).
Proof. done. Qed.

Lemma check_pattern_empty_spec text p :
  truthy p = false →
  _check_pattern text p = false ∧ _check_pattern_with_version text p = (false, None).
Proof.
  intros Hp. unfold _check_pattern, _check_pattern_with_version.
  by rewrite Hp, orb_true_r.
Qed.

Lemma check_pattern_PList text ps :
  _check_pattern text (PList ps) = nonempty text && any_pattern_matches text ps.
Proof. unfold _check_pattern. destruct (nonempty text), ps; done. Qed.

Lemma check_pattern_PDict text es :
  _check_pattern text (PDict es)
  = nonempty text && any_pattern_matches text es.*1.
Proof. unfold _check_pattern. destruct (nonempty text), es; done. Qed.

Lemma check_pattern_with_version_PList text ps :
  _check_pattern_with_version text (PList ps)
  = (nonempty text && any_pattern_matches text ps, None).
Proof. unfold _check_pattern_with_version. destruct (nonempty text), ps; done. Qed.

Lemma check_pattern_with_version_PDict text es :
  _check_pattern_with_version text (PDict es)
  = if nonempty text then first_versioned_match text es else (false, None).
Proof. unfold _check_pattern_with_version. destruct (nonempty text), es; done. Qed.

End SkipTheorems.

(** ** What stays on the instance *)

(** C5, as amended: [analyze] leaves the three tables as they are and
    starts from an empty detection map, so what a call returns, and what it
    leaves on the instance, does not depend on the calls before it; the
    detection map of the last call, with the match list of each
    technology, stays on the instance as [self.detected], and the list
    returned is made from it. *)
Theorem analyze_independent_of_history `{Runtime}
    (self : TechDetector) (b1 b2 : signals)
    (det : list (string * detected_entry)) :
  analyze (analyze self b1).1 b2 = analyze self b2
  ∧ analyze {| technologies := technologies self;
               categories := categories self;
               groups := groups self;
               detected := det |} b2 = analyze self b2
  ∧ technologies (analyze self b1).1 = technologies self
  ∧ categories (analyze self b1).1 = categories self
  ∧ groups (analyze self b1).1 = groups self
  ∧ (analyze self b1).2
    = sort_by_confidence
        (format_result (analyze self b1).1 <$> detected (analyze self b1).1).
Proof. done. Qed.

(** C5 as stated fails: after [analyze] has returned, the instance holds
    the detection map of the call, match lists included. *)
Lemma analyze_leaves_detected_on_instance :
  let self' := (@analyze ref_runtime example_detector example_signals).1 in
  detected self' ≠ []
  ∧ (λ item, (item.1, det_matches item.2)) <$> detected self'
    = [("Alpha", ["url"; "headers:Server"]);
       ("Beta", ["url"; "cookies:sid"]);
       ("Gamma", ["url"; "scripts"; "scripts"])].
Proof. vm_compute. split; [discriminate|reflexivity]. Qed.

(** ** The groups of a detection *)

Lemma elem_of_add_groups (g : Z) (ids : gset Z) (l : list Z) :
  g ∈ foldl (λ ids grp_id, ids ∪ {[grp_id]}) ids l ↔ g ∈ ids ∨ g ∈ l.
Proof.
  revert ids. induction l as [|x l IH]; intros ids; cbn.
  - rewrite elem_of_nil. tauto.
  - rewrite IH, elem_of_union, elem_of_singleton, elem_of_cons. tauto.
Qed.

Lemma elem_of_resolve_categories self cat_ids g :
  g ∈ (resolve_categories self cat_ids).2 ↔ referenced self cat_ids g.
Proof.
  unfold resolve_categories, referenced.
  set (step := λ (acc : list string * gset Z) (cat_id : Z), _).
  assert (Hgen : ∀ acc,
    g ∈ (foldl step acc cat_ids).2 ↔
    g ∈ acc.2 ∨ ∃ cat_id cat_info,
      cat_id ∈ cat_ids
      ∧ categories self !! pretty cat_id = Some (IsDict cat_info)
      ∧ g ∈ default [] (cat_groups cat_info)).
  { induction cat_ids as [|c cat_ids IH]; intros acc; cbn [foldl].
    - split; [by left|]. intros [?|(? & ? & []%elem_of_nil & _)]. done.
    - rewrite IH. unfold step.
      destruct (categories self !! pretty c) as [[ci|]|] eqn:Hc; cbn [snd].
      + rewrite elem_of_add_groups. split.
        * intros [[?|?]|(c' & ci' & ? & ? & ?)]; [by left| |].
          -- right. exists c, ci. by rewrite elem_of_cons; auto.
          -- right. exists c', ci'. by rewrite elem_of_cons; auto.
        * intros [?|(c' & ci' & [->|?]%elem_of_cons & Hc' & ?)]; [by auto| |].
          -- rewrite Hc in Hc'. injection Hc' as <-. auto.
          -- right. by exists c', ci'.
      + split.
        * intros [?|(c' & ci' & ? & ? & ?)]; [by left|].
          right. exists c', ci'. by rewrite elem_of_cons; auto.
        * intros [?|(c' & ci' & [->|?]%elem_of_cons & Hc' & ?)]; [by auto| |].
          -- by rewrite Hc in Hc'.
          -- right. by exists c', ci'.
      + split.
        * intros [?|(c' & ci' & ? & ? & ?)]; [by left|].
          right. exists c', ci'. by rewrite elem_of_cons; auto.
        * intros [?|(c' & ci' & [->|?]%elem_of_cons & Hc' & ?)]; [by auto| |].
          -- by rewrite Hc in Hc'.
          -- right. by exists c', ci'. }
  rewrite Hgen. cbn. rewrite elem_of_empty. tauto.
Qed.

Lemma NoDup_omap_inj {A B : Type} (f : A → option B) (l : list A) :
  NoDup l →
  (∀ x y z, x ∈ l → y ∈ l → f x = Some z → f y = Some z → x = y) →
  NoDup (omap f l).
Proof.
  induction 1 as [|x l Hx Hnd IH]; intros Hinj; cbn; [constructor|].
  assert (NoDup (omap f l)) as Hrec.
  { apply IH. intros a c z Ha Hc. apply Hinj; by apply elem_of_cons; right. }
  destruct (f x) as [z|] eqn:Hfx; [|done].
  constructor; [|done].
  intros (y & Hy & Hfy)%list_elem_of_omap.
  assert (x = y) as -> ; [|done].
  apply (Hinj x y z); [by left|by apply elem_of_cons; right|done|done].
Qed.

(** C8, as amended: the groups of a detection are named once for each
    distinct group id that a resolved category of the technology refers to,
    also when two categories share a group id; so no name comes twice as
    long as distinct group ids of the technology have distinct names. *)
Theorem group_names_once_per_group_id `{Runtime}
    (self : TechDetector) (b : signals) (d : detection) :
  d ∈ (analyze self b).2 →
  ∃ ids : list Z,
    NoDup ids
    ∧ (∀ g, g ∈ ids ↔ referenced self (cats_of self (name d)) g)
    ∧ group_names d = omap (group_display self) ids
    ∧ ((∀ g1 g2 n, g1 ∈ ids → g2 ∈ ids →
          group_display self g1 = Some n → group_display self g2 = Some n →
          g1 = g2) →
       NoDup (group_names d)).
Proof.
  intros (item & _ & ->)%elem_of_analyze.
  exists (elements (resolve_categories self (cats_of self item.1)).2).
  split_and!.
  - apply NoDup_elements.
  - intros g. rewrite elem_of_elements. apply elem_of_resolve_categories.
  - done.
  - intros Hinj. by apply NoDup_omap_inj; [apply NoDup_elements|].
Qed.

Lemma group_names_once_per_group_id_witness :
  ∃ d, d ∈ (@analyze ref_runtime example_detector example_signals).2
       ∧ ∃ ids : list Z,
           NoDup ids ∧ group_names d = omap (group_display example_detector) ids.
Proof.
  destruct (@analyze_elem_intro ref_runtime example_detector example_signals
              "Gamma" example_gamma example_technologies_NoDup
              example_gamma_in_table example_gamma_labels) as (d & Hd & _).
  exists d. split; [exact Hd|].
  destruct (@group_names_once_per_group_id ref_runtime example_detector
              example_signals d Hd) as (ids & Hnd & _ & Hnames & _).
  by exists ids.
Defined.

(** C8 as stated fails: two group ids of one display name give the name
    twice. *)
Lemma group_names_repeat_shared_display_name :
  group_names <$> (@analyze ref_runtime example_detector example_signals).2
  = [["Content"; "Content"]; ["Content"; "Content"]; []]
  ∧ ¬ NoDup ["Content"; "Content"].
Proof.
  split; [vm_compute; reflexivity|].
  intros Hnd. apply NoDup_cons in Hnd as [Hin _]. apply Hin. left.
Qed.

(** ** The entry points *)

(** C10: [detect_technologies] analyzes the HAR file when [har_path] is a
    string that is not empty, whatever the other arguments; else it hands
    [json_data] to [analyze_json] when there is one, whatever the signal
    arguments; and [analyze_json] analyzes the HAR file when its dict has
    the key [har_path], whatever the other keys. *)
Theorem detect_technologies_precedence `{Runtime}
    (techs : list (string * table_entry technology))
    (cats : gmap string (table_entry category))
    (grps : gmap string (table_entry group))
    (global_detector : option TechDetector) :
  let detector := default (new_TechDetector techs cats grps) global_detector in
  let detect := detect_technologies techs cats grps global_detector in
  (∀ har_path sigs jd,
     nonempty har_path = true →
     detect (DetectArgs sigs (Some har_path) jd) = analyze_har detector har_path)
  ∧ (∀ har_path sigs jd,
       is_truthy har_path = false →
       detect (DetectArgs sigs har_path (Some jd)) = analyze_json detector jd)
  ∧ (∀ self har_path url html headers cookies scripts meta dns certIssuer,
       har_path ≠ Absent →
       analyze_json self
         (JsonData har_path url html headers cookies scripts meta dns certIssuer)
       = analyze_har self (str_of_field har_path)).
Proof.
  intros detector detect. split_and!.
  - intros har_path sigs jd Hp. unfold detect, detect_technologies. cbn.
    by rewrite Hp.
  - intros har_path sigs jd Hp. unfold detect, detect_technologies. cbn.
    by rewrite Hp.
  - intros self har_path url html headers cookies scripts meta dns certIssuer Hp.
    unfold analyze_json. cbn. by destruct har_path.
Qed.

Lemma detect_technologies_precedence_witness :
  let detect :=
    @detect_technologies ref_runtime example_technologies example_categories
      example_groups None in
  detect (DetectArgs example_signals (Some "script.har")
            (Some (JsonData (Val "other.har") Absent Absent Absent Absent
                     Absent Absent Absent Absent)))
  = @analyze_har ref_runtime example_detector "script.har"
  ∧ @analyze_json ref_runtime example_detector
      (JsonData (Val "script.har") (Val "http://example.test/") Absent Absent
         Absent Absent Absent Absent Absent)
    = @analyze_har ref_runtime example_detector "script.har".
Proof.
  pose proof (@detect_technologies_precedence ref_runtime example_technologies
                example_categories example_groups None) as (H1 & _ & H3).
  split.
  - apply H1. reflexivity.
  - apply H3. discriminate.
Defined.

(** ** The signal extractor *)

Lemma parse_har_file_unreadable `{Runtime} path :
  json_load path = None → parse_har_file path = Ok EMPTY_HAR_RESULT.
Proof. unfold parse_har_file. by intros ->. Qed.

Lemma parse_har_document_no_entries `{Runtime} doc :
  document_log doc = Absent
  ∨ (∃ log, document_log doc = Val log
            ∧ (log_entries log = Absent ∨ log_entries log = Null
               ∨ log_entries log = Val [])) →
  parse_har_document doc = Ok EMPTY_HAR_RESULT.
Proof.
  unfold parse_har_document.
  intros [Hlog|(log & Hlog & [He|[He|He]])]; cbn; rewrite Hlog; cbn;
    by rewrite ?He.
Qed.

(** C1 fails on the code: a capture whose only entry has [null] for the
    mime type of its content makes [parse_har_file] raise, at the [.lower()]
    of the search for the main entry; the loop over the scripts reads the
    same member behind [or ""] and does not raise. *)
Theorem parse_har_file_raises_on_null_mime_type `{Runtime} (har_path : string) :
  json_load har_path = Some null_mime_capture →
  parse_har_file har_path = Raise AttributeError
  ∧ ∃ urls,
      entry_scripts
        [HarEntry (Val (HarRequest (Val "http://example.test/")))
           (Val (HarResponse Absent Absent (Val (HarContent Null Absent Absent))))]
      = Ok urls.
Proof.
  intros Hload. split.
  - unfold parse_har_file. by rewrite Hload.
  - cbn. by eexists.
Qed.

Lemma parse_har_file_raises_on_null_mime_type_witness :
  @json_load ref_runtime "null_mime.har" = Some null_mime_capture
  ∧ @parse_har_file ref_runtime "null_mime.har" = Raise AttributeError.
Proof.
  split; [reflexivity|].
  apply (@parse_har_file_raises_on_null_mime_type ref_runtime "null_mime.har").
  reflexivity.
Defined.

(** ** Facts about the decoder *)

Lemma utf8_segments_bytes_bounded (n : nat) (bs : list byte) :
  (length bs ≤ n)%nat → concat (segment_bytes <$> utf8_segments bs) = bs.
Proof.
  revert bs. induction n as [|n IH]; intros bs Hn.
  - destruct bs; [done|cbn in Hn; lia].
  - destruct bs as [|b0 r0]; [done|]. cbn [utf8_segments].
    repeat case_match; subst;
      rewrite ?fmap_cons; cbn [fmap list_fmap concat segment_bytes app];
      rewrite ?IH by (cbn in *; lia); done.
Qed.

Lemma utf8_segments_bytes (bs : list byte) :
  concat (segment_bytes <$> utf8_segments bs) = bs.
Proof. by apply (utf8_segments_bytes_bounded (length bs)). Qed.

Lemma valid_bytes_sublist (segs : list segment) :
  concat (valid_bytes <$> segs) `sublist_of` concat (segment_bytes <$> segs).
Proof.
  induction segs as [|[bs|bs] segs IH]; cbn; [done| |].
  - by apply sublist_app.
  - by apply sublist_inserts_l.
Qed.

Lemma str_of_bytes_app (xs ys : list byte) :
  str_of_bytes (xs ++ ys) = str_of_bytes xs +:+ str_of_bytes ys.
Proof.
  unfold str_of_bytes. induction xs as [|x xs IH]; [done|].
  cbn. by rewrite IH.
Qed.

Lemma decode_segments_ignore (segs : list segment) :
  decode_segments Ignore segs = Some (str_of_bytes (concat (valid_bytes <$> segs))).
Proof.
  induction segs as [|[bs|bs] segs IH]; [done| |done].
  cbn [decode_segments]. rewrite IH, fmap_cons. cbn [concat valid_bytes].
  by rewrite str_of_bytes_app.
Qed.

Lemma decode_utf8_ignore (bs : list byte) :
  ∃ kept, kept `sublist_of` bs
          ∧ decode_utf8 Ignore bs = Some (str_of_bytes kept).
Proof.
  exists (concat (valid_bytes <$> utf8_segments bs)). split.
  - rewrite <- (utf8_segments_bytes bs) at 2. apply valid_bytes_sublist.
  - apply decode_segments_ignore.
Qed.

Lemma bind_Ok {A B : Type} (m : result A) (k : A → result B) (r : B) :
  m ≫= k = Ok r → ∃ a, m = Ok a ∧ k a = Ok r.
Proof. destruct m as [a|e]; [|done]. intros Hk. by exists a. Qed.

Lemma parse_har_document_html `{Runtime} (doc : har_document) (r : har_result) :
  parse_har_document doc = Ok r →
  res_html r ≠ "" →
  ∃ log first rest found response content text,
    document_log doc = Val log
    ∧ log_entries log = Val (first :: rest)
    ∧ first_html_entry (first :: rest) = Ok found
    ∧ entry_response (default first found) = Val response
    ∧ response_content response = Val content
    ∧ content_text content = Val text
    ∧ res_html r = body_text content text.
Proof.
  intros Hparse Hhtml. unfold parse_har_document in Hparse.
  cbn -[entry_scripts first_html_entry har_soup body_text] in Hparse.
  repeat match type of Hparse with
  | context [match ?x with Absent => _ | Null => _ | Val _ => _ end] =>
      destruct x eqn:?;
      cbn -[entry_scripts first_html_entry har_soup body_text] in Hparse;
      try discriminate
  | context [match ?x with [] => _ | _ :: _ => _ end] =>
      destruct x eqn:?;
      cbn -[entry_scripts first_html_entry har_soup body_text] in Hparse;
      try discriminate
  | _ ≫= _ = Ok _ =>
      apply bind_Ok in Hparse as (? & ? & Hparse);
      cbn -[entry_scripts first_html_entry har_soup body_text] in Hparse
  | Ok _ = Ok _ => injection Hparse as <-; cbn in Hhtml; try done
  end.
  all: match goal with
       | Ht : content_text _ = Val ?t |- _ => destruct (nonempty t); [|done]
       end.
  all: do 7 eexists; split_and!; try eassumption; reflexivity.
Qed.

(** ** The body of the main entry *)

(** C6, as amended: [parse_har_file] never raises on account of the body:
    where the content of the main entry says [base64] and the text decodes,
    the html is the decoded bytes read as UTF-8 with the bytes that are not
    valid left out (nothing is put in their place); where the decoding
    raises the text stays as it is; without [base64] the text is taken as
    it is; and the html of a parsed capture, when not empty, is this text
    of the content of the main entry. *)
Theorem body_text_decoding `{Runtime}
    (content : har_content) (text : string)
    (doc : har_document) (r : har_result) :
  (content_encoding content = Val "base64" →
     match b64decode text with
     | Some bs =>
         ∃ kept, kept `sublist_of` bs
                 ∧ decode_utf8 Ignore bs = Some (str_of_bytes kept)
                 ∧ body_text content text = str_of_bytes kept
     | None => body_text content text = text
     end)
  ∧ (content_encoding content ≠ Val "base64" → body_text content text = text)
  ∧ (parse_har_document doc = Ok r →
     res_html r ≠ "" →
     ∃ log first rest found response content text,
       document_log doc = Val log
       ∧ log_entries log = Val (first :: rest)
       ∧ first_html_entry (first :: rest) = Ok found
       ∧ entry_response (default first found) = Val response
       ∧ response_content response = Val content
       ∧ content_text content = Val text
       ∧ res_html r = body_text content text).
Proof.
  split_and!.
  - intros Henc. unfold body_text. rewrite Henc.
    destruct (b64decode text) as [bs|]; [|done].
    destruct (decode_utf8_ignore bs) as (kept & Hsub & Hdec).
    exists kept. cbn. by rewrite Hdec.
  - intros Henc. unfold body_text.
    destruct (content_encoding content) as [| |enc]; [done..|].
    destruct (decide (enc = "base64")) as [->|Hne]; [done|].
    repeat (case_match; try done).
    all: subst; by destruct Hne.
  - apply parse_har_document_html.
Qed.

Lemma body_text_decoding_witness :
  content_encoding (HarContent (Val "text/html") (Val "aGVsbG8=") (Val "base64"))
  = Val "base64"
  ∧ ∃ kept, kept `sublist_of` [x68; x65; x6c; x6c; x6f]
            ∧ body_text (HarContent (Val "text/html") (Val "aGVsbG8=")
                           (Val "base64")) "aGVsbG8="
              = str_of_bytes kept.
Proof.
  split; [reflexivity|].
  destruct (proj1 (@body_text_decoding ref_runtime
              (HarContent (Val "text/html") (Val "aGVsbG8=") (Val "base64"))
              "aGVsbG8=" base64_capture EMPTY_HAR_RESULT) eq_refl)
    as (kept & Hsub & _ & Hbody).
  by exists kept.
Defined.

(** C6 as stated fails: the bytes that are not valid UTF-8 are left out,
    not replaced.  The body [Yf9i] decodes to the bytes 61 FF 62; the html
    is [ab], where replacing would give [a], U+FFFD, [b]. *)
Lemma body_text_drops_invalid_bytes :
  let content := HarContent (Val "text/html") (Val "Yf9i") (Val "base64") in
  b64decode "Yf9i" = Some [x61; xff; x62]
  ∧ body_text content "Yf9i" = "ab"
  ∧ decode_utf8 Replace [x61; xff; x62]
    = Some ("a" +:+ REPLACEMENT_CHARACTER +:+ "b")
  ∧ body_text content "Yf9i" ≠ "a" +:+ REPLACEMENT_CHARACTER +:+ "b".
Proof. vm_compute. repeat split; discriminate. Qed.

(** * Further properties of the code *)

(** ** Dicts filled by a loop *)

Lemma foldl_snoc {A B : Type} (f : A → B → A) (a : A) (l : list B) (x : B) :
  foldl f a (l ++ [x]) = f (foldl f a l) x.
Proof. by rewrite foldl_app. Qed.

Lemma foldl_ext_in {A B : Type} (f g : A → B → A) (a : A) (l : list B) :
  (∀ a x, f a x = g a x) → foldl f a l = foldl g a l.
Proof.
  intros Hfg. revert a. induction l as [|x l IH]; intros a; [done|].
  cbn. by rewrite Hfg, IH.
Qed.

(** A dict filled by [d[key(x)] = val(x)] for the [x] that have a key holds,
    under a key, the value of the last [x] with that key. *)
Lemma filled_dict_lookup {A : Type} (key : A → option string) (val : A → string)
    (l : list A) (k v : string) :
  foldl (λ m x, match key x with Some n => <[n := val x]> m | None => m end)
        (∅ : gmap string string) l !! k = Some v
  ↔ ∃ pre x post, l = pre ++ x :: post ∧ key x = Some k ∧ val x = v
                  ∧ Forall (λ y, key y ≠ Some k) post.
Proof.
  induction l as [|x l IH] using rev_ind.
  - cbn. rewrite lookup_empty. split; [done|].
    intros (pre & x & post & Hl & _). by destruct pre.
  - rewrite foldl_snoc. destruct (key x) as [n|] eqn:Hx.
    + destruct (decide (n = k)) as [->|Hne].
      * rewrite lookup_insert_eq. split.
        -- intros [= <-]. exists l, x, []. by repeat split.
        -- intros (pre & y & post & Hl & Hy & Hv & Hpost).
           destruct post as [|z post _] using rev_ind.
           ++ apply app_inj_tail in Hl as [_ ->]. by rewrite Hv.
           ++ rewrite app_comm_cons, app_assoc in Hl.
              apply app_inj_tail in Hl as [_ ->].
              apply Forall_app in Hpost as [_ Hz].
              apply Forall_inv in Hz. congruence.
      * rewrite lookup_insert_ne by done. rewrite IH. split.
        -- intros (pre & y & post & -> & Hy & Hv & Hpost).
           exists pre, y, (post ++ [x]). rewrite <- app_assoc. repeat split; try done.
           apply Forall_app. split; [done|]. apply Forall_singleton.
           rewrite Hx. congruence.
        -- intros (pre & y & post & Hl & Hy & Hv & Hpost).
           destruct post as [|z post _] using rev_ind.
           ++ apply app_inj_tail in Hl as [_ ->]. congruence.
           ++ rewrite app_comm_cons, app_assoc in Hl.
              apply app_inj_tail in Hl as [-> ->].
              apply Forall_app in Hpost as [Hpost _].
              by exists pre, y, post.
    + rewrite IH. split.
      * intros (pre & y & post & -> & Hy & Hv & Hpost).
        exists pre, y, (post ++ [x]). rewrite <- app_assoc. repeat split; try done.
        apply Forall_app. split; [done|]. apply Forall_singleton.
        by rewrite Hx.
      * intros (pre & y & post & Hl & Hy & Hv & Hpost).
        destruct post as [|z post _] using rev_ind.
        -- apply app_inj_tail in Hl as [_ ->]. congruence.
        -- rewrite app_comm_cons, app_assoc in Hl.
           apply app_inj_tail in Hl as [-> ->].
           apply Forall_app in Hpost as [Hpost _].
           by exists pre, y, post.
Qed.

(** ** The headers, cookies and meta tags of the bundle *)

Section BundleDicts.
Context {rt : Runtime}.

Lemma collect_headers_filled hs :
  collect_headers hs
  = foldl (λ m h, match header_key h with
                  | Some n => <[n := pair_text h]> m
                  | None => m
                  end) ∅ hs.
Proof.
  apply foldl_ext_in. intros m h. unfold header_key, pair_text.
  by destruct (nonempty _).
Qed.

Lemma collect_cookies_filled cs :
  collect_cookies cs
  = foldl (λ m c, match cookie_key c with
                  | Some n => <[n := pair_text c]> m
                  | None => m
                  end) ∅ cs.
Proof.
  apply foldl_ext_in. intros m c. unfold cookie_key, pair_text.
  destruct (get_or_none (pair_name c)) as [n|]; [|done].
  by destruct (nonempty n).
Qed.

Lemma collect_meta_filled s :
  collect_meta s
  = foldl (λ m tag, match meta_key tag with
                    | Some n => <[n := meta_text tag]> m
                    | None => m
                    end) ∅ (soup_metas s).
Proof.
  apply foldl_ext_in. intros m tag. unfold meta_key, meta_text.
  by destruct (_ && _).
Qed.

(** X1: the headers of the bundle hold, under a name in lower case, the
    value of the last header of the main entry with that name in lower
    case; a header without a name gives nothing, one without a value the
    empty string. *)
Theorem collect_headers_last_wins (hs : list har_pair) (k v : string) :
  (collect_headers hs !! k = Some v
   ↔ ∃ pre h post, hs = pre ++ h :: post ∧ header_key h = Some k
                   ∧ pair_text h = v
                   ∧ Forall (λ h', header_key h' ≠ Some k) post)
  ∧ (collect_headers hs !! k = Some v →
     nonempty k = true ∧ ∃ name, k = str_lower name).
Proof.
  rewrite collect_headers_filled.
  assert (Hiff := filled_dict_lookup header_key pair_text hs k v).
  split; [exact Hiff|].
  intros (pre & h & post & _ & Hk & _)%Hiff. unfold header_key in Hk.
  destruct (nonempty _) eqn:Hne; [|done]. injection Hk as <-. eauto.
Qed.

(** X2: the cookies of the bundle hold, under a name, the value of the last
    cookie of the main entry with that name, names taken as they are; a
    cookie without a name gives nothing, one without a value the empty
    string. *)
Theorem collect_cookies_last_wins (cs : list har_pair) (k v : string) :
  (collect_cookies cs !! k = Some v
   ↔ ∃ pre c post, cs = pre ++ c :: post ∧ cookie_key c = Some k
                   ∧ pair_text c = v
                   ∧ Forall (λ c', cookie_key c' ≠ Some k) post)
  ∧ (collect_cookies cs !! k = Some v → nonempty k = true)
  ∧ (∀ name, nonempty name = true →
       collect_cookies (cs ++ [HarPair (Val name) Absent]) !! name = Some ""
       ∧ collect_cookies (cs ++ [HarPair (Val name) Null]) !! name = Some "").
Proof.
  rewrite collect_cookies_filled.
  assert (Hiff := filled_dict_lookup cookie_key pair_text cs k v).
  split_and!; [exact Hiff| |].
  - intros (pre & c & post & _ & Hk & _)%Hiff. unfold cookie_key in Hk.
    destruct (get_or_none _) as [n|]; [|done].
    destruct (nonempty n) eqn:Hne; [|done]. by injection Hk as <-.
  - intros name Hname. unfold collect_cookies.
    rewrite !foldl_snoc. cbn. rewrite Hname.
    by rewrite !lookup_insert_eq.
Qed.

(** X3: the meta of the bundle holds, under the [name] of a tag, else its
    [property], else its [http-equiv], the [content] of the last tag so
    named; only tags with such a name and a content, both not empty, count,
    so no key and no value of the meta is empty. *)
Theorem collect_meta_last_wins (s : soup) (k v : string) :
  (collect_meta s !! k = Some v
   ↔ ∃ pre tag post, soup_metas s = pre ++ tag :: post
                     ∧ meta_key tag = Some k ∧ meta_text tag = v
                     ∧ Forall (λ tag', meta_key tag' ≠ Some k) post)
  ∧ (collect_meta s !! k = Some v → nonempty k = true ∧ nonempty v = true)
  ∧ (∀ tag n, meta_name tag = Some n → nonempty n = true →
       is_truthy (meta_content tag) = true → meta_key tag = Some n)
  ∧ (∀ tag p, is_truthy (meta_name tag) = false →
       meta_property tag = Some p → nonempty p = true →
       is_truthy (meta_content tag) = true → meta_key tag = Some p)
  ∧ (∀ tag e, is_truthy (meta_name tag) = false →
       is_truthy (meta_property tag) = false →
       meta_http_equiv tag = Some e → nonempty e = true →
       is_truthy (meta_content tag) = true → meta_key tag = Some e).
Proof.
  rewrite collect_meta_filled.
  assert (Hiff := filled_dict_lookup meta_key meta_text (soup_metas s) k v).
  split_and!; [exact Hiff| | | |].
  - intros (pre & tag & post & _ & Hk & Hv)%Hiff.
    destruct Hv as [<- _]. unfold meta_key, meta_text in *.
    destruct (is_truthy (py_or _ _)) eqn:Hn; [|done].
    destruct (is_truthy (meta_content tag)) eqn:Hc; [|done].
    injection Hk as <-. split.
    + by destruct (py_or _ _) as [[]|].
    + by destruct (meta_content tag) as [[]|].
  - intros tag n Hn Hne Hc. unfold meta_key, py_or. rewrite Hn, Hc.
    cbn. rewrite Hne. cbn. by rewrite Hne.
  - intros tag p Hn Hp Hne Hc. unfold meta_key, py_or. rewrite Hn, Hp, Hc.
    cbn. rewrite Hne. cbn. by rewrite Hne.
  - intros tag e Hn Hp He Hne Hc. unfold meta_key, py_or.
    rewrite Hn, Hp, He, Hc. cbn. by rewrite Hne.
Qed.

End BundleDicts.

(** ** The main entry *)

Section MainEntry.
Context {rt : Runtime}.

Lemma first_html_entry_cons e rest :
  first_html_entry (e :: rest)
  = mime ← entry_mimeType e;
    lowered ← py_lower mime;
    if contains "html" lowered then Ok (Some e) else first_html_entry rest.
Proof. done. Qed.

Lemma first_html_entry_has e rest :
  mime_has_html e → first_html_entry (e :: rest) = Ok (Some e).
Proof.
  intros (mime & Hm & Hc). rewrite first_html_entry_cons, Hm. cbn.
  by rewrite Hc.
Qed.

Lemma first_html_entry_lacks e rest :
  mime_lacks_html e → first_html_entry (e :: rest) = first_html_entry rest.
Proof.
  intros (mime & Hm & Hc). rewrite first_html_entry_cons, Hm. cbn.
  by rewrite Hc.
Qed.

Lemma first_html_entry_Ok_inv e rest found :
  first_html_entry (e :: rest) = Ok found →
  (mime_has_html e ∧ found = Some e)
  ∨ (mime_lacks_html e ∧ first_html_entry rest = Ok found).
Proof.
  rewrite first_html_entry_cons.
  destruct (entry_mimeType e) as [[mime|]|] eqn:Hm; cbn; [|done..].
  destruct (contains "html" (str_lower mime)) eqn:Hc.
  - intros [= <-]. left. split; [|done]. by exists mime.
  - intros Hrest. right. split; [|done]. by exists mime.
Qed.

(** X4: the search for the main entry stops at the first entry whose mime
    type, in lower case, contains [html]: it gives an entry exactly when
    the entries before it lack [html] and it has it, and gives none exactly
    when every entry lacks it. *)
Theorem first_html_entry_first_match (entries : list har_entry) (e : har_entry) :
  (first_html_entry entries = Ok (Some e)
   ↔ ∃ pre post, entries = pre ++ e :: post
                 ∧ Forall mime_lacks_html pre ∧ mime_has_html e)
  ∧ (first_html_entry entries = Ok None ↔ Forall mime_lacks_html entries).
Proof.
  split.
  - split.
    + induction entries as [|x rest IH]; [done|].
      intros [[Hx [= ->]]|[Hx Hrest]]%first_html_entry_Ok_inv.
      * by exists [], rest.
      * destruct (IH Hrest) as (pre & post & -> & Hpre & He).
        exists (x :: pre), post. split_and!; [done|by constructor|done].
    + intros (pre & post & -> & Hpre & He).
      induction Hpre as [|x pre Hx _ IH]; cbn [app].
      * by apply first_html_entry_has.
      * by rewrite first_html_entry_lacks.
  - split.
    + induction entries as [|x rest IH]; [done|].
      intros [[_ [=]]|[Hx Hrest]]%first_html_entry_Ok_inv.
      constructor; [done|by apply IH].
    + induction 1 as [|x rest Hx _ IH]; [done|].
      by rewrite first_html_entry_lacks.
Qed.

End MainEntry.

(** ** The scripts of the bundle *)

Lemma dedupe_elem_of (seen : gset string) (l : list string) (x : string) :
  x ∈ dedupe seen l ↔ x ∈ l ∧ x ∉ seen.
Proof.
  revert seen. induction l as [|s l IH]; intros seen; cbn.
  - rewrite elem_of_nil. tauto.
  - case_bool_decide as Hs.
    + rewrite IH, elem_of_cons. split; [tauto|].
      intros [[->|?] ?]; [done|tauto].
    + rewrite !elem_of_cons, IH, elem_of_union, elem_of_singleton.
      destruct (decide (x = s)) as [->|]; tauto.
Qed.

Lemma dedupe_NoDup (seen : gset string) (l : list string) : NoDup (dedupe seen l).
Proof.
  revert seen. induction l as [|s l IH]; intros seen; cbn; [constructor|].
  case_bool_decide; [done|]. constructor; [|done].
  rewrite dedupe_elem_of, elem_of_union, elem_of_singleton. tauto.
Qed.

Lemma dedupe_sublist (seen : gset string) (l : list string) :
  dedupe seen l `sublist_of` l.
Proof.
  revert seen. induction l as [|s l IH]; intros seen; cbn; [done|].
  case_bool_decide; [by apply sublist_cons|by apply sublist_skip].
Qed.

Lemma dedupe_first_kept (seen : gset string) (l : list string) (x : string) :
  x ∉ seen → dedupe seen (x :: l) = x :: dedupe (seen ∪ {[x]}) l.
Proof. intros Hx. cbn. by rewrite bool_decide_false. Qed.

Lemma dedupe_NoDup_id (seen : gset string) (l : list string) :
  NoDup l → (∀ x, x ∈ l → x ∉ seen) → dedupe seen l = l.
Proof.
  intros Hnd. revert seen. induction Hnd as [|s l Hs Hnd IH]; intros seen Hseen.
  - done.
  - rewrite dedupe_first_kept by (apply Hseen; left). f_equal. apply IH.
    intros x Hx. rewrite elem_of_union, elem_of_singleton.
    intros [Hin| ->]; [|done]. apply (Hseen x); [by right|done].
Qed.

Lemma dedupe_seen_ext (seen1 seen2 : gset string) (l : list string) :
  seen1 = seen2 → dedupe seen1 l = dedupe seen2 l.
Proof. by intros ->. Qed.

Lemma dedupe_app (seen : gset string) (l1 l2 : list string) :
  dedupe seen (l1 ++ l2)
  = dedupe seen l1 ++ dedupe (seen ∪ list_to_set l1) l2.
Proof.
  revert seen. induction l1 as [|s l1 IH]; intros seen; cbn.
  - by rewrite union_empty_r_L.
  - case_bool_decide as Hs.
    + rewrite IH. f_equal. apply dedupe_seen_ext.
      rewrite (assoc_L (∪)). f_equal. apply leibniz_equiv. intros x.
      rewrite elem_of_union, elem_of_singleton. split; [tauto|].
      intros [Hx| ->]; tauto.
    + cbn. rewrite IH. do 2 f_equal. apply dedupe_seen_ext.
      by rewrite (assoc_L (∪)).
Qed.

Lemma dedupe_snoc (l : list string) (s : string) :
  dedupe ∅ (l ++ [s])
  = dedupe ∅ l ++ (if bool_decide (s ∈ l) then [] else [s]).
Proof.
  rewrite dedupe_app. f_equal. cbn. rewrite union_empty_l_L.
  case_bool_decide as H1; case_bool_decide as H2; try done.
  - by apply elem_of_list_to_set in H1.
  - destruct H1. by apply elem_of_list_to_set.
Qed.

Lemma omap_ext_in {A B : Type} (f g : A → option B) (l : list A) :
  (∀ x, x ∈ l → f x = g x) → omap f l = omap g l.
Proof.
  induction l as [|x l IH]; intros Hfg; [done|]. cbn.
  rewrite (Hfg x) by left. rewrite IH; [done|].
  intros y Hy. apply Hfg. by right.
Qed.

Lemma first_occurrences_snoc (l : list string) (s : string) :
  first_occurrences (l ++ [s])
  = first_occurrences l ++ (if bool_decide (s ∈ l) then [] else [s]).
Proof.
  unfold first_occurrences.
  rewrite length_app, seq_app, omap_app. cbn [length seq omap list_omap].
  rewrite Nat.add_0_l. f_equal.
  - apply omap_ext_in. intros j Hj. apply elem_of_seq in Hj.
    rewrite lookup_app_l by lia. by rewrite take_app_le by lia.
  - rewrite list_lookup_middle by done. cbn.
    rewrite take_app_le by lia. rewrite firstn_all.
    by case_bool_decide.
Qed.

Lemma dedupe_first_occurrences (l : list string) :
  dedupe ∅ l = first_occurrences l.
Proof.
  induction l as [|s l IH] using rev_ind; [done|].
  by rewrite dedupe_snoc, first_occurrences_snoc, IH.
Qed.

Lemma dedupe_place (pre post : list string) (s : string) :
  s ∉ pre →
  dedupe ∅ (pre ++ s :: post)
  = dedupe ∅ pre ++ s :: dedupe (list_to_set (pre ++ [s])) post.
Proof.
  intros Hs. rewrite dedupe_app. f_equal. cbn. rewrite union_empty_l_L.
  rewrite bool_decide_false by by rewrite elem_of_list_to_set.
  do 2 f_equal. rewrite list_to_set_app_L. cbn. by rewrite union_empty_r_L.
Qed.

(** X5: the loop that removes duplicates keeps each distinct script once,
    at the place of its first occurrence: the result is the candidates at
    the positions where they come for the first time, in the order of the
    positions; a candidate is appended to what the candidates before it
    gave exactly when it is not among them, so it comes right after the
    distinct candidates before its first occurrence; the result has no
    duplicates, the same elements as the candidates, and is the candidates
    with some left out; a list without duplicates comes back as it is. *)
Theorem dedupe_keeps_first_occurrences (candidates : list string) :
  NoDup (dedupe ∅ candidates)
  ∧ (∀ s, s ∈ dedupe ∅ candidates ↔ s ∈ candidates)
  ∧ dedupe ∅ candidates `sublist_of` candidates
  ∧ (∀ s rest, candidates = s :: rest → head (dedupe ∅ candidates) = Some s)
  ∧ (NoDup candidates → dedupe ∅ candidates = candidates)
  ∧ dedupe ∅ candidates = first_occurrences candidates
  ∧ (∀ pre s, candidates = pre ++ [s] →
       dedupe ∅ candidates
       = dedupe ∅ pre ++ (if bool_decide (s ∈ pre) then [] else [s]))
  ∧ (∀ pre s post, candidates = pre ++ s :: post → s ∉ pre →
       dedupe ∅ candidates
       = dedupe ∅ pre ++ s :: dedupe (list_to_set (pre ++ [s])) post).
Proof.
  split_and!.
  - apply dedupe_NoDup.
  - intros s. rewrite dedupe_elem_of. split; [tauto|]. intros Hs.
    split; [done|]. apply not_elem_of_empty.
  - apply dedupe_sublist.
  - intros s rest ->. by rewrite dedupe_first_kept by apply not_elem_of_empty.
  - intros Hnd. apply dedupe_NoDup_id; [done|]. intros x _.
    apply not_elem_of_empty.
  - apply dedupe_first_occurrences.
  - intros pre s ->. apply dedupe_snoc.
  - intros pre s post ->. apply dedupe_place.
Qed.

(** ** What a parse that succeeds returns *)

Lemma nonempty_false (s : string) : nonempty s = false ↔ s = "".
Proof. by destruct s. Qed.

Lemma nonempty_true (s : string) : nonempty s = true ↔ s ≠ "".
Proof. by destruct s. Qed.

Lemma parsed_soup_inv `{Runtime} (html : string) (parsed : option soup) :
  (if nonempty html then har_soup html ≫= λ s, Ok (Some s) else Ok None)
  = Ok parsed →
  (html = "" ∧ parsed = None)
  ∨ (html ≠ "" ∧ ∃ s, har_soup html = Ok s ∧ parsed = Some s).
Proof.
  destruct (nonempty html) eqn:Hh.
  - intros (s & Hs & [= <-])%bind_Ok. right.
    split; [by apply nonempty_true|]. by exists s.
  - intros [= <-]. left. split; [by apply nonempty_false|done].
Qed.

Ltac step_parse H :=
  repeat match type of H with
  | context [match ?x with Absent => _ | Null => _ | Val _ => _ end] =>
      destruct x eqn:?;
      cbn -[entry_scripts first_html_entry har_soup body_text nonempty] in H;
      try discriminate
  | context [match ?x with [] => _ | _ :: _ => _ end] =>
      destruct x eqn:?;
      cbn -[entry_scripts first_html_entry har_soup body_text nonempty] in H;
      try discriminate
  | _ ≫= _ = Ok _ =>
      apply bind_Ok in H as (? & ? & H);
      cbn -[entry_scripts first_html_entry har_soup body_text nonempty] in H
  end.

Lemma parse_har_document_inv `{Runtime} (doc : har_document) (r : har_result) :
  parse_har_document doc = Ok r →
  r = EMPTY_HAR_RESULT
  ∨ ∃ log first rest found candidates,
      document_log doc = Val log
      ∧ log_entries log = Val (first :: rest)
      ∧ first_html_entry (first :: rest) = Ok found
      ∧ entry_scripts (first :: rest) = Ok candidates
      ∧ let main := default first found in
        let request := field_or (entry_request main) no_request in
        let response := field_or (entry_response main) no_response in
        let content := field_or (response_content response) no_content in
        let text := field_or (content_text content) "" in
        res_url r = field_or (request_url request) ""
        ∧ res_headers r
          = collect_headers (field_or (response_headers response) [])
        ∧ res_cookies r
          = collect_cookies (field_or (response_cookies response) [])
        ∧ res_html r = (if nonempty text then body_text content text else "")
        ∧ (res_html r = "" →
           res_scripts r = dedupe ∅ candidates ∧ res_meta r = ∅)
        ∧ (res_html r ≠ "" →
           ∃ s, har_soup (res_html r) = Ok s
                ∧ res_scripts r = dedupe ∅ (candidates ++ inline_scripts s)
                ∧ res_meta r = collect_meta s).
Proof.
  intros Hparse. unfold parse_har_document in Hparse.
  cbn -[entry_scripts first_html_entry har_soup body_text nonempty] in Hparse.
  step_parse Hparse.
  all: try (left; congruence).
  all: injection Hparse as <-; right.
  all: match goal with
       | Hp : (if nonempty ?h then _ else _) = Ok _ |- _ =>
           apply parsed_soup_inv in Hp as [[Hh ->]|[Hh (s & Hs & ->)]]
       end.
  all: do 5 eexists; do 4 (split; [first [eassumption|reflexivity]|]).
  all: cbn zeta;
       repeat (progress
         (repeat match goal with
                 | Hf : ?x = _ |- context [?x] => rewrite Hf
                 end;
          cbn -[body_text nonempty dedupe collect_headers collect_cookies
                collect_meta inline_scripts har_soup])).
  all: split_and!; try reflexivity.
  all: try (intros _; rewrite ?app_nil_r; done).
  all: try (intros Hhtml; by destruct Hh).
  all: try (intros _; by exists s).
Qed.

(** X6: a parse that succeeds gives the empty bundle, or a capture with
    entries whose bundle is: the URL of the request of the main entry; the
    headers and cookies of its response; the text of its content, decoded
    where it says so, as html; as scripts the script URLs of all entries
    followed by the inline scripts of the html, without duplicates; as
    meta the meta tags of the html; the last two from the entries alone
    and empty when there is no html. *)
Theorem parse_har_document_fields `{Runtime} (doc : har_document) (r : har_result) :
  parse_har_document doc = Ok r →
  r = EMPTY_HAR_RESULT
  ∨ ∃ log first rest found candidates,
      document_log doc = Val log
      ∧ log_entries log = Val (first :: rest)
      ∧ first_html_entry (first :: rest) = Ok found
      ∧ entry_scripts (first :: rest) = Ok candidates
      ∧ let main := default first found in
        let request := field_or (entry_request main) no_request in
        let response := field_or (entry_response main) no_response in
        let content := field_or (response_content response) no_content in
        let text := field_or (content_text content) "" in
        res_url r = field_or (request_url request) ""
        ∧ res_headers r
          = collect_headers (field_or (response_headers response) [])
        ∧ res_cookies r
          = collect_cookies (field_or (response_cookies response) [])
        ∧ res_html r = (if nonempty text then body_text content text else "")
        ∧ (res_html r = "" →
           res_scripts r = dedupe ∅ candidates ∧ res_meta r = ∅)
        ∧ (res_html r ≠ "" →
           ∃ s, har_soup (res_html r) = Ok s
                ∧ res_scripts r = dedupe ∅ (candidates ++ inline_scripts s)
                ∧ res_meta r = collect_meta s).
Proof. apply parse_har_document_inv. Qed.

Lemma parse_har_document_fields_witness :
  @parse_har_document ref_runtime script_capture
  = Ok {| res_url := "http://example.test/app.js";
          res_html := "";
          res_headers := {[ "server" := "nginx" ]};
          res_cookies := ∅;
          res_scripts := ["http://example.test/app.js"];
          res_meta := ∅ |}
  ∧ ∃ candidates,
      @entry_scripts ref_runtime
        [HarEntry (Val (HarRequest (Val "http://example.test/app.js")))
           (Val (HarResponse (Val [HarPair (Val "Server") (Val "nginx")]) Absent
                   (Val (HarContent (Val "text/javascript") Absent Absent))))]
      = Ok candidates.
Proof.
  assert (Hp : @parse_har_document ref_runtime script_capture
    = Ok {| res_url := "http://example.test/app.js";
            res_html := "";
            res_headers := {[ "server" := "nginx" ]};
            res_cookies := ∅;
            res_scripts := ["http://example.test/app.js"];
            res_meta := ∅ |}) by (vm_compute; reflexivity).
  split; [exact Hp|].
  destruct (@parse_har_document_fields ref_runtime _ _ Hp)
    as [Hempty|(log & first & rest & found & candidates
                & Hlog & Hentries & _ & Hscripts & _)].
  - discriminate Hempty.
  - injection Hlog as <-. injection Hentries as <- <-. by exists candidates.
Defined.

(** ** The script URLs of the entries *)

Section EntryScripts.
Context {rt : Runtime}.

Lemma entry_scripts_cons_inv e rest candidates :
  entry_scripts (e :: rest) = Ok candidates →
  entry_request e ≠ Null
  ∧ ∃ more, entry_scripts rest = Ok more
            ∧ candidates = from_option (λ u, [u]) [] (script_url_of e) ++ more.
Proof.
  cbn -[entry_mimeType]. unfold entry_mimeType, script_url_of, entry_mime, entry_url.
  destruct (entry_request e) as [| |req] eqn:Hreq; cbn; [|done|].
  - destruct (entry_response e) as [| |resp]; cbn; [|done|].
    + intros (more & Hmore & [= <-])%bind_Ok. split; [done|]. exists more.
      split; [done|]. by destruct (_ || _).
    + destruct (response_content resp) as [| |c]; cbn; [|done|].
      * intros (more & Hmore & [= <-])%bind_Ok. split; [done|]. exists more.
        split; [done|]. by destruct (_ || _).
      * intros (more & Hmore & [= <-])%bind_Ok. split; [done|]. exists more.
        split; [done|]. destruct (content_mimeType c); by destruct (_ || _).
  - destruct (entry_response e) as [| |resp]; cbn; [|done|].
    + intros (more & Hmore & [= <-])%bind_Ok. split; [done|]. exists more.
      split; [done|]. destruct (request_url req); by destruct (_ || _).
    + destruct (response_content resp) as [| |c]; cbn; [|done|].
      * intros (more & Hmore & [= <-])%bind_Ok. split; [done|]. exists more.
        split; [done|]. destruct (request_url req); by destruct (_ || _).
      * intros (more & Hmore & [= <-])%bind_Ok. split; [done|]. exists more.
        split; [done|].
        destruct (request_url req), (content_mimeType c); by destruct (_ || _).
Qed.

(** X7: when the loop over the entries does not raise, the script
    candidates it gives are, in the order of the entries, the request URL
    of each entry whose mime type in lower case contains [javascript] or
    whose URL ends in [.js], a missing or [null] URL or mime type counting
    as the empty string. *)
Theorem entry_scripts_candidates (entries : list har_entry)
    (candidates : list string) :
  entry_scripts entries = Ok candidates →
  candidates = omap script_url_of entries.
Proof.
  revert candidates. induction entries as [|e rest IH]; intros candidates.
  - by intros [= <-].
  - intros (_ & more & Hmore & ->)%entry_scripts_cons_inv.
    cbn. rewrite <- (IH more Hmore). by destruct (script_url_of e).
Qed.

End EntryScripts.

Lemma entry_scripts_candidates_witness :
  @entry_scripts ref_runtime
    [HarEntry (Val (HarRequest (Val "http://example.test/app.js"))) Absent;
     HarEntry (Val (HarRequest (Val "http://example.test/"))) Absent;
     HarEntry (Val (HarRequest (Val "http://example.test/x")))
       (Val (HarResponse Absent Absent
               (Val (HarContent (Val "application/JavaScript") Null Absent))))]
  = Ok ["http://example.test/app.js"; "http://example.test/x"]
  ∧ ["http://example.test/app.js"; "http://example.test/x"]
    = omap (@script_url_of ref_runtime)
        [HarEntry (Val (HarRequest (Val "http://example.test/app.js"))) Absent;
         HarEntry (Val (HarRequest (Val "http://example.test/"))) Absent;
         HarEntry (Val (HarRequest (Val "http://example.test/x")))
           (Val (HarResponse Absent Absent
                   (Val (HarContent (Val "application/JavaScript") Null
                           Absent))))].
Proof.
  split; [reflexivity|].
  apply (@entry_scripts_candidates ref_runtime). reflexivity.
Defined.

(** ** The inline scripts *)

Lemma str_take_prefix (n : nat) (s : string) : startswith s (str_take n s) = true.
Proof.
  revert n. induction s as [|c s IH]; intros n; [done|]. cbn -[continuation].
  destruct (continuation _).
  - cbn. by rewrite Ascii.eqb_refl, IH.
  - destruct n; [done|]. cbn. by rewrite Ascii.eqb_refl, IH.
Qed.

Lemma str_take_char_count (n : nat) (s : string) :
  (char_count (str_take n s) ≤ n)%nat.
Proof.
  revert n. induction s as [|c s IH]; intros n; cbn -[continuation]; [lia|].
  destruct (continuation (byte_of_ascii c)) eqn:Hc.
  - cbn -[continuation]. rewrite Hc. apply IH.
  - destruct n; [cbn; lia|]. cbn -[continuation]. rewrite Hc.
    specialize (IH n). lia.
Qed.

Lemma str_take_short (n : nat) (s : string) :
  (char_count s ≤ n)%nat → str_take n s = s.
Proof.
  revert n. induction s as [|c s IH]; intros n; cbn -[continuation]; [done|].
  destruct (continuation (byte_of_ascii c)) eqn:Hc.
  - intros Hn. by rewrite IH.
  - destruct n; [lia|]. intros Hn. rewrite IH; [done|lia].
Qed.

Lemma char_count_le_length (s : string) : (char_count s ≤ String.length s)%nat.
Proof.
  induction s as [|c s IH]; cbn -[continuation]; [lia|].
  destruct (continuation _); lia.
Qed.

(** X8: every inline script of the bundle is the start of the text of a
    [<script>] tag without [src] (or with an empty one), cut after 500
    characters: it has at most 500 characters, and is the whole text when
    that has no more. *)
Theorem inline_scripts_truncated (s : soup) (script : string) :
  script ∈ inline_scripts s ↔
  ∃ tag body, tag ∈ soup_scripts s
              ∧ is_truthy (script_src tag) = false
              ∧ script_string tag = Some body ∧ nonempty body = true
              ∧ script = str_take 500 body
              ∧ startswith body script = true
              ∧ (char_count script ≤ 500)%nat
              ∧ ((char_count body ≤ 500)%nat → script = body).
Proof.
  unfold inline_scripts. rewrite list_elem_of_omap. split.
  - intros (tag & Hin & Htag).
    destruct (is_truthy (script_src tag)) eqn:Hsrc; [done|].
    destruct (script_string tag) as [body|] eqn:Hbody; [|done].
    cbn in Htag. destruct (nonempty body) eqn:Hne; [|done].
    cbn in Htag. injection Htag as <-. exists tag, body.
    split_and!; try done.
    + apply str_take_prefix.
    + apply str_take_char_count.
    + apply str_take_short.
  - intros (tag & body & Hin & Hsrc & Hbody & Hne & -> & _).
    exists tag. split; [done|]. rewrite Hsrc, Hbody. cbn. by rewrite Hne.
Qed.

(** ** When the parse raises and when it does not *)

Section ParseOutcome.
Context {rt : Runtime}.

Lemma har_soup_Ok_inv html s :
  har_soup html = Ok s →
  BeautifulSoup html Lxml = Some s
  ∨ (BeautifulSoup html Lxml = None ∧ BeautifulSoup html HtmlParser = Some s).
Proof.
  unfold har_soup. destruct (BeautifulSoup html Lxml) as [s'|].
  - intros [= ->]. by left.
  - destruct (BeautifulSoup html HtmlParser) as [s'|]; [|done].
    intros [= ->]. by right.
Qed.

(** X9: the parse returns a bundle with html only when one of the two HTML
    parsers took that html, [lxml] first: when both raise there is no
    bundle, the second exception escapes. *)
Theorem parse_har_document_needs_parser (doc : har_document) (r : har_result) :
  parse_har_document doc = Ok r →
  res_html r ≠ "" →
  ∃ s, (BeautifulSoup (res_html r) Lxml = Some s
        ∨ (BeautifulSoup (res_html r) Lxml = None
           ∧ BeautifulSoup (res_html r) HtmlParser = Some s))
       ∧ res_meta r = collect_meta s.
Proof.
  intros [->|(log & first & rest & found & candidates & _ & _ & _ & _ & Hr)]
    %parse_har_document_inv Hhtml; [done|].
  cbn zeta in Hr. destruct Hr as (_ & _ & _ & _ & _ & Hsoup).
  destruct (Hsoup Hhtml) as (s & Hs & _ & Hmeta).
  exists s. split; [by apply har_soup_Ok_inv|done].
Qed.

Lemma null_free_mimeType e :
  null_free_entry e → ∃ mime, entry_mimeType e = Ok (Some mime).
Proof.
  intros (_ & Hresp & Hfields). unfold entry_mimeType. cbn.
  destruct (entry_response e) as [| |resp]; [by eexists|done|].
  destruct (Hfields resp eq_refl) as (_ & _ & Hc & Hm). cbn.
  destruct (response_content resp) as [| |c]; [by eexists|done|].
  specialize (Hm c eq_refl). cbn.
  destruct (content_mimeType c); [by eexists|done|by eexists].
Qed.

Lemma null_free_first_html_entry entries :
  Forall null_free_entry entries →
  ∃ found, first_html_entry entries = Ok found
           ∧ ∀ e, found = Some e → e ∈ entries.
Proof.
  induction 1 as [|e rest He _ (found & Hfound & Hin)].
  - exists None. by split.
  - destruct (null_free_mimeType e He) as (mime & Hm).
    rewrite first_html_entry_cons, Hm. cbn.
    destruct (contains "html" (str_lower mime)).
    + exists (Some e). split; [done|]. intros ? [= <-]. left.
    + exists found. split; [done|]. intros e' ->. right. by apply Hin.
Qed.

Lemma null_free_entry_scripts entries :
  Forall null_free_entry entries → ∃ candidates, entry_scripts entries = Ok candidates.
Proof.
  induction 1 as [|e rest He _ (more & Hmore)]; [by eexists|].
  destruct (null_free_mimeType e He) as (mime & Hm).
  destruct He as (Hreq & _). cbn -[entry_mimeType].
  destruct (entry_request e) as [| |req]; [|done|]; cbn -[entry_mimeType];
    rewrite Hm, Hmore; cbn; by eexists.
Qed.

Lemma parsed_soup_total html :
  (∀ html, ∃ p s, BeautifulSoup html p = Some s) →
  ∃ parsed,
    (if nonempty html then har_soup html ≫= λ s, Ok (Some s) else Ok None)
    = Ok parsed.
Proof.
  intros Hparser. destruct (nonempty html); [|by eexists].
  destruct (Hparser html) as (p & s & Hs). unfold har_soup.
  destruct p.
  - rewrite Hs. by eexists.
  - destruct (BeautifulSoup html Lxml); [by eexists|]. rewrite Hs. by eexists.
Qed.

(** X10: on a document of the HAR format, that is one in which every
    member the parse reads is missing, [null] or of the type the format
    gives it, with lists of objects (what [har_document] holds; on other
    JSON the parse can raise), the parse does not raise when no member it
    reads through [get] is [null] (the log, and in every entry the
    request, the response, and its headers, cookies, content and mime
    type), as long as one of the HTML parsers takes every text. *)
Theorem parse_har_document_null_free (doc : har_document) :
  document_log doc ≠ Null →
  (∀ log entries, document_log doc = Val log →
     log_entries log = Val entries → Forall null_free_entry entries) →
  (∀ html, ∃ p s, BeautifulSoup html p = Some s) →
  ∃ r, parse_har_document doc = Ok r.
Proof.
  intros Hlog Hentries Hparser. unfold parse_har_document.
  cbn -[first_html_entry entry_scripts har_soup nonempty body_text].
  destruct (document_log doc) as [| |log] eqn:Hl;
    [eexists; reflexivity|done|].
  cbn -[first_html_entry entry_scripts har_soup nonempty body_text].
  destruct (log_entries log) as [| |[|first rest]] eqn:He;
    cbn -[first_html_entry entry_scripts har_soup nonempty body_text];
    [eexists; reflexivity..|].
  pose proof (Hentries log _ eq_refl He) as Hfree.
  destruct (null_free_first_html_entry _ Hfree) as (found & Hfound & Hin).
  destruct (null_free_entry_scripts _ Hfree) as (candidates & Hcand).
  rewrite Hfound.
  cbn -[first_html_entry entry_scripts har_soup nonempty body_text].
  assert (null_free_entry (default first found)) as Hmain.
  { rewrite Forall_forall in Hfree. apply Hfree.
    destruct found as [e|]; [by apply Hin|left]. }
  destruct Hmain as (Hreq & Hresp & Hfields).
  destruct (entry_request (default first found)) as [| |req]; [|done|];
    cbn -[first_html_entry entry_scripts har_soup nonempty body_text].
  all: destruct (entry_response (default first found)) as [| |resp];
    [|done|];
    cbn -[first_html_entry entry_scripts har_soup nonempty body_text].
  all: try (destruct (Hfields resp eq_refl) as (Hh & Hc & Hcontent & _);
            (destruct (response_headers resp) as [| |hs]; [|done|]);
            cbn -[first_html_entry entry_scripts har_soup nonempty body_text];
            (destruct (response_cookies resp) as [| |cs]; [|done|]);
            cbn -[first_html_entry entry_scripts har_soup nonempty body_text];
            (destruct (response_content resp) as [| |content]; [|done|]);
            cbn -[first_html_entry entry_scripts har_soup nonempty body_text]).
  all: rewrite Hcand;
    cbn -[first_html_entry entry_scripts har_soup nonempty body_text].
  all: match goal with
       | |- context [har_soup ?h] =>
           destruct (parsed_soup_total h Hparser) as (parsed & ->)
       end.
  all: cbn; eexists; reflexivity.
Qed.

End ParseOutcome.

Lemma parse_har_document_null_free_witness :
  document_log base64_capture ≠ Null
  ∧ ∃ r, @parse_har_document ref_runtime base64_capture = Ok r.
Proof.
  split; [discriminate|].
  apply (@parse_har_document_null_free ref_runtime base64_capture).
  - discriminate.
  - intros log entries [= <-] [= <-]. constructor; [|constructor].
    unfold null_free_entry. cbn. split_and!; [discriminate..|].
    intros resp [= <-]. cbn. split_and!; [discriminate..|].
    by intros c [= <-].
  - intros html. by exists Lxml, (Soup [] []).
Defined.

Lemma parse_har_document_needs_parser_witness :
  ∃ s, @BeautifulSoup ref_runtime "hello" Lxml = Some s
       ∧ (∅ : gmap string string) = collect_meta s.
Proof.
  assert (Hp : @parse_har_document ref_runtime base64_capture
    = Ok {| res_url := "http://example.test/"; res_html := "hello";
            res_headers := ∅; res_cookies := ∅; res_scripts := [];
            res_meta := ∅ |}) by (vm_compute; reflexivity).
  destruct (@parse_har_document_needs_parser ref_runtime _ _ Hp)
    as (s & [Hs|[Hs _]] & Hmeta); [discriminate| |discriminate Hs].
  by exists s.
Defined.

(** ** The two pattern checks together *)

Lemma replace_scan_nonempty old new s :
  nonempty new = true → nonempty s = true →
  nonempty (replace_scan old new s 0) = true.
Proof.
  intros Hnew Hs. destruct s as [|c s]; [done|]. cbn -[startswith].
  destruct (startswith _ old); [|done]. by destruct new.
Qed.

Lemma str_replace_nonempty old new s :
  nonempty new = true → nonempty s = true →
  nonempty (str_replace old new s) = true.
Proof.
  intros Hnew Hs. destruct old; [by destruct new|].
  by apply replace_scan_nonempty.
Qed.

Lemma substitute_groups_nonempty version i groups :
  nonempty version = true →
  nonempty (substitute_groups version i groups) = true.
Proof.
  revert version i. induction groups as [|g groups IH]; intros version i Hv.
  - done.
  - cbn -[str_replace]. apply IH. destruct g as [g|]; [|done].
    destruct (nonempty g) eqn:Hg; [|done]. by apply str_replace_nonempty.
Qed.

Section BothChecks.
Context {rt : Runtime}.

Lemma first_versioned_match_matched text es :
  (first_versioned_match text es).1 = any_pattern_matches text es.*1.
Proof.
  induction es as [|[p v] es IH]; [done|]. cbn.
  destruct (re_search _ text) as [| |[|g gs]]; try done.
  by destruct (nonempty v).
Qed.

Lemma first_versioned_match_version text es version :
  (first_versioned_match text es).2 = Some version →
  (first_versioned_match text es).1 = true
  ∧ nonempty version = true
  ∧ ∃ pattern template groups,
      (pattern, template) ∈ es
      ∧ re_search (_strip_wappalyzer_pattern pattern) text = Match groups
      ∧ groups ≠ [] ∧ nonempty template = true
      ∧ version = substitute_groups template 1 groups.
Proof.
  induction es as [|[p v] es IH]; [done|]. cbn -[substitute_groups].
  destruct (re_search _ text) as [| |[|g gs]] eqn:Hs.
  - intros (? & ? & q & tpl & groups & Hin & ?)%IH. split_and!; try done.
    exists q, tpl, groups. split; [by right|done].
  - intros (? & ? & q & tpl & groups & Hin & ?)%IH. split_and!; try done.
    exists q, tpl, groups. split; [by right|done].
  - done.
  - clear IH. destruct (nonempty v) eqn:Hv; [|done].
    intros Heq.
    assert (version = substitute_groups v 1 (g :: gs)) as ->
      by (cbn -[substitute_groups] in Heq; congruence).
    split_and!; [done|by apply substitute_groups_nonempty|].
    exists p, v, (g :: gs). split_and!; try done. left.
Qed.

(** X11: the two checks agree on whether a spec matches a text, and a
    versioned map matches as the list of its patterns does; a version comes
    only from a versioned map, from an entry of it whose regex matched with
    groups and whose template is not empty, and is never the empty
    string. *)
Theorem check_pattern_with_version_agrees (text : string) (p : patterns) :
  (_check_pattern_with_version text p).1 = _check_pattern text p
  ∧ (∀ es, _check_pattern text (PDict es) = _check_pattern text (PList es.*1))
  ∧ (∀ version, (_check_pattern_with_version text p).2 = Some version →
       nonempty version = true
       ∧ (_check_pattern_with_version text p).1 = true
       ∧ ∃ es pattern template groups,
           p = PDict es ∧ (pattern, template) ∈ es
           ∧ re_search (_strip_wappalyzer_pattern pattern) text = Match groups
           ∧ groups ≠ [] ∧ nonempty template = true
           ∧ version = substitute_groups template 1 groups).
Proof.
  split_and!.
  - unfold _check_pattern_with_version, _check_pattern.
    destruct (negb (nonempty text) || negb (truthy p)); [done|].
    destruct p as [s|ps|es]; [done..|]. apply first_versioned_match_matched.
  - intros es. by rewrite check_pattern_PDict, check_pattern_PList.
  - intros version. unfold _check_pattern_with_version.
    destruct (negb (nonempty text) || negb (truthy p)); [done|].
    destruct p as [s|ps|es]; [done..|].
    intros (Hm & Hne & q & tpl & groups & Hrest)%first_versioned_match_version.
    split_and!; try done. by exists es, q, tpl, groups.
Qed.

End BothChecks.

(** ** The labels of a technology *)

Lemma note_elem_of label r w l :
  l ∈ (note label r w).1 ↔ l ∈ w.1 ∨ (l = label ∧ r.1 = true).
Proof.
  unfold note. destruct r.1; cbn.
  - rewrite elem_of_app, list_elem_of_singleton. tauto.
  - split; [tauto|]. by intros [?|[_ ?]].
Qed.

(** A loop whose turns each append one label, or nothing, by a rule that
    does not look at the labels so far. *)
Lemma foldl_labels {A : Type} (f : work → A → work) (lab : A → string)
    (hit : A → Prop) (items : list A) (w : work) (l : string) :
  (∀ w x, l ∈ (f w x).1 ↔ l ∈ w.1 ∨ (l = lab x ∧ hit x)) →
  l ∈ (foldl f w items).1 ↔ l ∈ w.1 ∨ ∃ x, x ∈ items ∧ l = lab x ∧ hit x.
Proof.
  intros Hf. revert w. induction items as [|x items IH]; intros w; cbn.
  - split; [tauto|]. intros [?|(x & []%elem_of_nil & _)]. done.
  - rewrite IH, Hf. split.
    + intros [[?|[? ?]]|(y & ? & ?)]; [tauto| |].
      * right. exists x. split; [left|done].
      * right. exists y. split; [by right|done].
    + intros [?|(y & [->|?]%elem_of_cons & ?)]; [tauto|tauto|].
      right. by exists y.
Qed.

Lemma check_pattern_nonempty `{Runtime} text p :
  _check_pattern text p = true → nonempty text = true.
Proof. unfold _check_pattern. by destruct (nonempty text). Qed.

Lemma check_pattern_with_version_nonempty `{Runtime} text p :
  (_check_pattern_with_version text p).1 = true → nonempty text = true.
Proof. unfold _check_pattern_with_version. by destruct (nonempty text). Qed.

Lemma nonempty_map_lookup {V : Type} (m : gmap string V) k v :
  m !! k = Some v → nonempty_map m = true.
Proof.
  intros Hk. apply bool_decide_eq_true. intros ->.
  by rewrite lookup_empty in Hk.
Qed.

Lemma get_str_nonempty (m : gmap string string) k :
  nonempty (get_str m k) = true → nonempty_map m = true.
Proof.
  unfold get_str. destruct (m !! k) eqn:Hk; [|done].
  intros _. by eapply nonempty_map_lookup.
Qed.

Section Labels.
Context {rt : Runtime}.

Lemma header_value_nonempty headers n :
  nonempty (header_value headers n) = true → nonempty_map headers = true.
Proof.
  unfold header_value. destruct (headers !! n) as [v|] eqn:Hn.
  - intros _. by eapply nonempty_map_lookup.
  - apply get_str_nonempty.
Qed.

Lemma check_url_labels b t w l :
  l ∈ (check_url b t w).1 ↔
  l ∈ w.1 ∨ (l = "url" ∧ ∃ p, tech_url t = Some p
                              ∧ _check_pattern (sig_url b) p = true).
Proof.
  unfold check_url. destruct (tech_url t) as [p|].
  - destruct (nonempty (sig_url b)) eqn:Hu.
    + rewrite note_elem_of. cbn. split; [|intros [?|[? (? & [= <-] & ?)]]; tauto].
      intros [?|[? ?]]; [tauto|]. right. split; [done|by exists p].
    + split; [tauto|]. intros [?|[_ (? & [= <-] & Hc)]]; [done|].
      apply check_pattern_nonempty in Hc. congruence.
  - split; [tauto|]. by intros [?|[_ (? & ? & _)]].
Qed.

Lemma check_certIssuer_labels b t w l :
  l ∈ (check_certIssuer b t w).1 ↔
  l ∈ w.1 ∨ (l = "certIssuer"
             ∧ ∃ p, tech_certIssuer t = Some p
                    ∧ _check_pattern (sig_certIssuer b) p = true).
Proof.
  unfold check_certIssuer. destruct (tech_certIssuer t) as [p|].
  - destruct (nonempty (sig_certIssuer b)) eqn:Hu.
    + rewrite note_elem_of. cbn. split; [|intros [?|[? (? & [= <-] & ?)]]; tauto].
      intros [?|[? ?]]; [tauto|]. right. split; [done|by exists p].
    + split; [tauto|]. intros [?|[_ (? & [= <-] & Hc)]]; [done|].
      apply check_pattern_nonempty in Hc. congruence.
  - split; [tauto|]. by intros [?|[_ (? & ? & _)]].
Qed.

Lemma check_html_labels b t w l :
  l ∈ (check_html b t w).1 ↔
  l ∈ w.1 ∨ (l = "html"
             ∧ ∃ p, tech_html t = Some p
                    ∧ (_check_pattern_with_version (sig_html b) p).1 = true).
Proof.
  unfold check_html. destruct (tech_html t) as [p|].
  - destruct (nonempty (sig_html b)) eqn:Hu.
    + rewrite note_elem_of. split; [|intros [?|[? (? & [= <-] & ?)]]; tauto].
      intros [?|[? ?]]; [tauto|]. right. split; [done|by exists p].
    + split; [tauto|]. intros [?|[_ (? & [= <-] & Hc)]]; [done|].
      apply check_pattern_with_version_nonempty in Hc. congruence.
  - split; [tauto|]. by intros [?|[_ (? & ? & _)]].
Qed.

Lemma check_scripts_labels scripts t w l :
  l ∈ (check_scripts scripts t w).1 ↔
  l ∈ w.1 ∨ (l = "scripts"
             ∧ ∃ p script, tech_scripts t = Some p ∧ script ∈ scripts
                           ∧ (_check_pattern_with_version script p).1 = true).
Proof.
  unfold check_scripts. destruct (tech_scripts t) as [p|].
  - rewrite (foldl_labels _ (λ _, "scripts")
               (λ script, (_check_pattern_with_version script p).1 = true)).
    + split; intros [?|Hr]; try tauto; right.
      * destruct Hr as (script & ? & ? & ?). split; [done|]. by exists p, script.
      * destruct Hr as (? & q & script & [= <-] & ? & ?). by exists script.
    + intros w' script. apply note_elem_of.
  - split; [tauto|]. by intros [?|[_ (? & ? & ? & _)]].
Qed.

Lemma check_headers_labels b t w l :
  l ∈ (check_headers b t w).1 ↔
  l ∈ w.1
  ∨ ∃ items n p,
      tech_headers t = Some items ∧ (n, p) ∈ items ∧ l = "headers:" +:+ n
      ∧ (_check_pattern_with_version (header_value (sig_headers b) n) p).1
        = true.
Proof.
  unfold check_headers. destruct (tech_headers t) as [items|].
  - destruct (nonempty_map (sig_headers b)) eqn:Hm.
    + rewrite (foldl_labels _ (λ x, "headers:" +:+ x.1)
                 (λ x, (_check_pattern_with_version
                          (header_value (sig_headers b) x.1) x.2).1 = true)).
      * split; intros [?|Hr]; try tauto; right.
        -- destruct Hr as ([n p] & ? & ? & ?). by exists items, n, p.
        -- destruct Hr as (? & n & p & [= <-] & ? & ? & ?). by exists (n, p).
      * intros w' [n p]. cbn.
        destruct (nonempty (header_value (sig_headers b) n)) eqn:Hv.
        -- apply note_elem_of.
        -- split; [tauto|]. intros [?|[_ Hc]]; [done|].
           apply check_pattern_with_version_nonempty in Hc. congruence.
    + split; [tauto|]. intros [?|(? & n & p & _ & _ & _ & Hc)]; [done|].
      apply check_pattern_with_version_nonempty, header_value_nonempty in Hc.
      congruence.
  - split; [tauto|]. by intros [?|(? & ? & ? & ? & _)].
Qed.

Lemma check_cookies_labels b t w l :
  l ∈ (check_cookies b t w).1 ↔
  l ∈ w.1
  ∨ ∃ items n p,
      tech_cookies t = Some items ∧ (n, p) ∈ items ∧ l = "cookies:" +:+ n
      ∧ _check_pattern (get_str (sig_cookies b) n) p = true.
Proof.
  unfold check_cookies. destruct (tech_cookies t) as [items|].
  - destruct (nonempty_map (sig_cookies b)) eqn:Hm.
    + rewrite (foldl_labels _ (λ x, "cookies:" +:+ x.1)
                 (λ x, _check_pattern (get_str (sig_cookies b) x.1) x.2 = true)).
      * split; intros [?|Hr]; try tauto; right.
        -- destruct Hr as ([n p] & ? & ? & ?). by exists items, n, p.
        -- destruct Hr as (? & n & p & [= <-] & ? & ? & ?). by exists (n, p).
      * intros w' [n p]. cbn. rewrite note_elem_of. cbn.
        destruct (nonempty (get_str (sig_cookies b) n)) eqn:Hv; [done|].
        split; [intros [?|[_ ?]]; [tauto|done]|].
        intros [?|[_ Hc]]; [tauto|].
        apply check_pattern_nonempty in Hc. congruence.
    + split; [tauto|]. intros [?|(? & n & p & _ & _ & _ & Hc)]; [done|].
      apply check_pattern_nonempty, get_str_nonempty in Hc. congruence.
  - split; [tauto|]. by intros [?|(? & ? & ? & ? & _)].
Qed.

Lemma check_meta_labels b t w l :
  l ∈ (check_meta b t w).1 ↔
  l ∈ w.1
  ∨ ∃ items n p,
      tech_meta t = Some items ∧ (n, p) ∈ items ∧ l = "meta:" +:+ n
      ∧ (_check_pattern_with_version (get_str (sig_meta b) n) p).1 = true.
Proof.
  unfold check_meta. destruct (tech_meta t) as [items|].
  - destruct (nonempty_map (sig_meta b)) eqn:Hm.
    + rewrite (foldl_labels _ (λ x, "meta:" +:+ x.1)
                 (λ x, (_check_pattern_with_version
                          (get_str (sig_meta b) x.1) x.2).1 = true)).
      * split; intros [?|Hr]; try tauto; right.
        -- destruct Hr as ([n p] & ? & ? & ?). by exists items, n, p.
        -- destruct Hr as (? & n & p & [= <-] & ? & ? & ?). by exists (n, p).
      * intros w' [n p]. cbn.
        destruct (nonempty (get_str (sig_meta b) n)) eqn:Hv.
        -- apply note_elem_of.
        -- split; [tauto|]. intros [?|[_ Hc]]; [done|].
           apply check_pattern_with_version_nonempty in Hc. congruence.
    + split; [tauto|]. intros [?|(? & n & p & _ & _ & _ & Hc)]; [done|].
      apply check_pattern_with_version_nonempty, get_str_nonempty in Hc.
      congruence.
  - split; [tauto|]. by intros [?|(? & ? & ? & ? & _)].
Qed.

Lemma check_dns_labels b t w l :
  l ∈ (check_dns b t w).1 ↔
  l ∈ w.1
  ∨ ∃ items n p v,
      tech_dns t = Some items ∧ (n, p) ∈ items ∧ l = "dns:" +:+ n
      ∧ v ∈ default [] (sig_dns b !! str_upper n)
      ∧ _check_pattern v p = true.
Proof.
  unfold check_dns. destruct (tech_dns t) as [items|].
  - destruct (nonempty_map (sig_dns b)) eqn:Hm.
    + rewrite (foldl_labels _ (λ x, "dns:" +:+ x.1)
                 (λ x, ∃ v, v ∈ default [] (sig_dns b !! str_upper x.1)
                            ∧ _check_pattern v x.2 = true)).
      * split; intros [?|Hr]; try tauto; right.
        -- destruct Hr as ([n p] & ? & ? & v & ? & ?). by exists items, n, p, v.
        -- destruct Hr as (? & n & p & v & [= <-] & ? & ? & ? & ?).
           exists (n, p). split_and!; try done. by exists v.
      * intros w' [n p]. cbn.
        rewrite (foldl_labels _ (λ _, "dns:" +:+ n)
                   (λ v, _check_pattern v p = true)).
        -- split; intros [?|Hr]; try tauto; right.
           ++ destruct Hr as (v & ? & ? & ?). split; [done|]. by exists v.
           ++ destruct Hr as (? & v & ? & ?). by exists v.
        -- intros w'' v. rewrite note_elem_of. cbn. tauto.
    + split; [tauto|]. intros [?|(? & n & p & v & _ & _ & _ & Hv & _)]; [done|].
      destruct (sig_dns b !! str_upper n) eqn:Hn;
        [|by apply elem_of_nil in Hv].
      apply nonempty_map_lookup in Hn. congruence.
  - split; [tauto|]. by intros [?|(? & ? & ? & ? & ? & _)].
Qed.

Lemma scripts_hit_app t (l : string) (xs ys : list string) :
  (l = "scripts"
   ∧ ∃ p script, tech_scripts t = Some p ∧ script ∈ xs ++ ys
                 ∧ (_check_pattern_with_version script p).1 = true)
  ↔ (l = "scripts"
     ∧ ∃ p script, tech_scripts t = Some p ∧ script ∈ xs
                   ∧ (_check_pattern_with_version script p).1 = true)
    ∨ (l = "scripts"
       ∧ ∃ p script, tech_scripts t = Some p ∧ script ∈ ys
                     ∧ (_check_pattern_with_version script p).1 = true).
Proof.
  split.
  - intros (Hl & p & script & Hp & [Hin|Hin]%elem_of_app & Hm).
    + left. split; [done|]. by exists p, script.
    + right. split; [done|]. by exists p, script.
  - intros [(Hl & p & script & Hp & Hin & Hm)|(Hl & p & script & Hp & Hin & Hm)];
      (split; [done|]); exists p, script; rewrite elem_of_app; tauto.
Qed.

Lemma tech_checks_labels b t l :
  l ∈ (tech_checks b t).1 ↔ label_hit b t l.
Proof.
  unfold tech_checks, label_hit.
  rewrite check_certIssuer_labels, check_dns_labels, check_meta_labels,
    check_cookies_labels, check_headers_labels, check_scripts_labels.
  rewrite scripts_hit_app.
  destruct (analyze_soup (sig_html b)) as [s|]; cbn [from_option].
  - rewrite check_scripts_labels, check_html_labels, check_url_labels.
    cbn [fst]. rewrite elem_of_nil. tauto.
  - rewrite check_html_labels, check_url_labels. cbn [fst].
    rewrite elem_of_nil.
    assert (¬ (l = "scripts"
               ∧ ∃ p script, tech_scripts t = Some p ∧ script ∈ []
                             ∧ (_check_pattern_with_version script p).1 = true))
      as Hnone by (by intros (_ & ? & ? & _ & []%elem_of_nil & _)).
    tauto.
Qed.

End Labels.

Section LabelTheorems.
Context {rt : Runtime}.

(** X12: a label is among the matches of a technology exactly when the
    check it names succeeds: the spec of the technology for the signal
    matches the value of the bundle, for a script one of the scripts of the
    markup or of the bundle, for a header, cookie, meta or DNS label the
    value looked up under the name of the spec. *)
Theorem tech_checks_label_iff (b : signals) (t : technology) (label : string) :
  label ∈ (tech_checks b t).1 ↔ label_hit b t label.
Proof. apply tech_checks_labels. Qed.

(** X13: a header of the bundle is found under the name of the spec as it
    is written, and when there is none, or an empty one, under that name in
    lower case; a spec that matches the value found leaves the label
    [headers:] with the name as written. *)
Theorem header_found_by_lower_case_name (b : signals) (t : technology)
    (items : list (string * patterns)) (n v : string) (p : patterns) :
  tech_headers t = Some items →
  (n, p) ∈ items →
  is_truthy (sig_headers b !! n) = false →
  sig_headers b !! str_lower n = Some v →
  (_check_pattern_with_version v p).1 = true →
  header_value (sig_headers b) n = v
  ∧ ("headers:" +:+ n) ∈ (tech_checks b t).1
  ∧ (∀ exact, nonempty exact = true →
       header_value (<[n := exact]> (sig_headers b)) n = exact).
Proof.
  intros Ht Hin Hexact Hlower Hmatch.
  assert (header_value (sig_headers b) n = v) as Hv.
  { unfold header_value, get_str. rewrite Hlower. cbn.
    destruct (sig_headers b !! n) as [x|]; [|done]. cbn in Hexact.
    by rewrite Hexact. }
  split_and!; [done| |].
  - apply tech_checks_labels. unfold label_hit. do 3 right. left.
    exists items, n, p. by rewrite Hv.
  - intros exact Hne. unfold header_value. rewrite lookup_insert_eq.
    by rewrite Hne.
Qed.

End LabelTheorems.

Lemma header_found_by_lower_case_name_witness :
  is_truthy (sig_headers example_signals !! "Server") = false
  ∧ ("headers:" +:+ "Server")
      ∈ (@tech_checks ref_runtime example_signals example_alpha).1.
Proof.
  split; [reflexivity|].
  apply (@header_found_by_lower_case_name ref_runtime example_signals
           example_alpha [("Server", PStr "nginx")] "Server" "nginx"
           (PStr "nginx")).
  - reflexivity.
  - left.
  - reflexivity.
  - reflexivity.
  - reflexivity.
Defined.

(** ** The categories of a detection *)

Lemma resolve_categories_names self cat_ids :
  (resolve_categories self cat_ids).1 = omap (category_display self) cat_ids.
Proof.
  unfold resolve_categories.
  set (step := λ (acc : list string * gset Z) (cat_id : Z), _).
  assert (Hgen : ∀ acc, (foldl step acc cat_ids).1
                        = acc.1 ++ omap (category_display self) cat_ids).
  { induction cat_ids as [|c cat_ids IH]; intros acc; cbn [foldl].
    - by rewrite app_nil_r.
    - rewrite IH. unfold step. cbn [omap list_omap]. unfold category_display at 2.
      destruct (categories self !! pretty c) as [[ci|]|]; cbn; [|done..].
      by rewrite <- app_assoc. }
  apply Hgen.
Qed.

(** X14: the category names of a detection are the names under which the
    categories table shows the category ids of the technology, in the
    order of the ids and as often as an id comes; an id the table does not
    hold a dict for gives nothing, and a category without a name is shown
    as [Category] and its id. *)
Theorem category_names_in_order `{Runtime}
    (self : TechDetector) (b : signals) (d : detection) :
  d ∈ (analyze self b).2 →
  category_names d = omap (category_display self) (cats_of self (name d))
  ∧ (∀ cat_id,
       categories self !! pretty cat_id = Some (IsDict (Category None None)) →
       category_display self cat_id = Some ("Category " +:+ pretty cat_id))
  ∧ (∀ cat_id, categories self !! pretty cat_id = None →
       category_display self cat_id = None).
Proof.
  intros (item & _ & ->)%elem_of_analyze. split_and!.
  - unfold format_result. cbn [category_names].
    by rewrite resolve_categories_names.
  - intros cat_id Hc. unfold category_display. by rewrite Hc.
  - intros cat_id Hc. unfold category_display. by rewrite Hc.
Qed.

Lemma category_names_in_order_witness :
  ∃ d, d ∈ (@analyze ref_runtime example_detector example_signals).2
       ∧ category_names d
         = omap (category_display example_detector)
             (cats_of example_detector (name d)).
Proof.
  destruct (@analyze_elem_intro ref_runtime example_detector example_signals
              "Gamma" example_gamma example_technologies_NoDup
              example_gamma_in_table example_gamma_labels) as (d & Hd & _).
  exists d. split; [exact Hd|].
  apply (@category_names_in_order ref_runtime example_detector example_signals
           d Hd).
Defined.

(** ** Lookups in a dict kept in insertion order *)

Lemma dict_get_elem_of {V : Type} (d : list (string * V)) k v :
  NoDup d.*1 → (k, v) ∈ d → dict_get k d = Some v.
Proof.
  induction d as [|[k' v'] d IH]; intros Hnd Hin.
  - by apply elem_of_nil in Hin.
  - apply NoDup_cons in Hnd as [Hk Hnd]. cbn.
    apply elem_of_cons in Hin as [[= -> ->]|Hin].
    + by rewrite String.eqb_refl.
    + destruct (String.eqb_spec k k') as [->|]; [|by apply IH].
      destruct Hk. apply list_elem_of_fmap. by exists (k', v).
Qed.

Lemma dict_get_None {V : Type} (d : list (string * V)) k :
  k ∉ d.*1 → dict_get k d = None.
Proof.
  induction d as [|[k' v'] d IH]; [done|]. cbn.
  intros [Hne Hk]%not_elem_of_cons.
  destruct (String.eqb_spec k k'); [done|]. by apply IH.
Qed.

Section Instance.
Context {rt : Runtime}.





(** *** Without signals *)

Lemma tech_checks_no_signals t : (tech_checks no_signals t).1 = [].
Proof.
  destruct (tech_checks no_signals t).1 as [|l ls] eqn:Hw; [done|].
  assert (Hl : l ∈ (tech_checks no_signals t).1) by (rewrite Hw; left).
  apply tech_checks_labels in Hl.
  destruct Hl as [(_ & p & _ & Hp)|[(_ & p & _ & Hp)|[(_ & p & s & _ & Hs & _)
    |[(items & n & p & _ & _ & _ & Hp)|[(items & n & p & _ & _ & _ & Hp)
    |[(items & n & p & _ & _ & _ & Hp)|[(items & n & p & v & _ & _ & _ & Hv & _)
    |(_ & p & _ & Hp)]]]]]]].
  - by apply check_pattern_nonempty in Hp.
  - by apply check_pattern_with_version_nonempty in Hp.
  - cbn in Hs. by apply elem_of_nil in Hs.
  - by apply check_pattern_with_version_nonempty, header_value_nonempty in Hp.
  - by apply check_pattern_nonempty, get_str_nonempty in Hp.
  - by apply check_pattern_with_version_nonempty, get_str_nonempty in Hp.
  - cbn in Hv. rewrite lookup_empty in Hv. by apply elem_of_nil in Hv.
  - by apply check_pattern_nonempty in Hp.
Qed.

Lemma detected_entry_of_no_signals e : detected_entry_of no_signals e = None.
Proof.
  destruct e as [t|]; [|done]. unfold detected_entry_of.
  by rewrite tech_checks_no_signals.
Qed.

Lemma analyze_loop_none b techs det :
  (∀ item, item ∈ techs → detected_entry_of b item.2 = None) →
  foldl (analyze_step b) det techs = det.
Proof.
  induction techs as [|item techs IH]; intros Hnone; [done|]. cbn.
  unfold analyze_step at 2. rewrite Hnone by left.
  apply IH. intros item' Hin. apply Hnone. by right.
Qed.

Lemma analyze_no_signals self :
  detected (analyze self no_signals).1 = [] ∧ (analyze self no_signals).2 = [].
Proof.
  assert (Hdet : detected (analyze self no_signals).1 = []).
  { cbn. apply analyze_loop_none. intros item _.
    apply detected_entry_of_no_signals. }
  split; [done|]. by rewrite analyze_result, Hdet.
Qed.

(** X17: without any signal nothing is detected, whatever the tables hold,
    and [self.detected] is left empty; [analyze_json] of a dict without
    any key is that call. *)
Theorem nothing_detected_without_signals (self : TechDetector) :
  detected (analyze self no_signals).1 = []
  ∧ (analyze self no_signals).2 = []
  ∧ analyze_json self no_json_data = Ok (analyze self no_signals).
Proof.
  split_and!; [apply analyze_no_signals..|done].
Qed.

(** X18: [analyze_har] of a file that cannot be read, or is not JSON,
    does not raise and returns the empty list. *)
Theorem analyze_har_unreadable (self : TechDetector) (har_path : string) :
  json_load har_path = None →
  ∃ self', analyze_har self har_path = Ok (self', [])
           ∧ detected self' = []
           ∧ technologies self' = technologies self.
Proof.
  intros Hload. unfold analyze_har.
  rewrite parse_har_file_unreadable by done. cbn -[analyze].
  change (Signals _ _ _ _ _ _ _ _) with no_signals.
  destruct (analyze_no_signals self) as [Hdet Hres].
  exists (analyze self no_signals).1. split_and!; [|done..].
  by rewrite <- Hres, <- surjective_pairing.
Qed.

(** *** Values of the technology table that are not dicts *)

Lemma analyze_tables self1 self2 b :
  technologies self1 = technologies self2 →
  categories self1 = categories self2 →
  groups self1 = groups self2 →
  analyze self1 b = analyze self2 b.
Proof.
  destruct self1, self2. cbn. by intros -> -> ->.
Qed.

Lemma dict_entries_sublist techs : dict_entries techs `sublist_of` techs.
Proof.
  induction techs as [|[k e] techs IH]; [done|]. cbn.
  destruct (is_dict e); by constructor.
Qed.

Lemma table_detections_dict_entries b techs :
  table_detections b (dict_entries techs) = table_detections b techs.
Proof.
  induction techs as [|[k e] techs IH]; [done|].
  destruct e as [t|].
  - change (dict_entries ((k, IsDict t) :: techs))
      with ((k, IsDict t) :: dict_entries techs).
    unfold table_detections in *. cbn -[dict_entries detected_entry_of].
    by rewrite IH.
  - change (dict_entries ((k, NotDict) :: techs)) with (dict_entries techs).
    by rewrite IH.
Qed.

Lemma format_result_ext self1 self2 item :
  dict_get item.1 (technologies self1) = dict_get item.1 (technologies self2) →
  categories self1 = categories self2 →
  groups self1 = groups self2 →
  format_result self1 item = format_result self2 item.
Proof.
  intros Ht Hc Hg. unfold format_result, cats_of, resolve_categories,
    resolve_groups, group_display.
  by rewrite Ht, Hc, Hg.
Qed.

End Instance.

Section Tables.
Context {rt : Runtime}.

Lemma dict_entries_NoDup techs : NoDup techs.*1 → NoDup (dict_entries techs).*1.
Proof.
  intros Hnd. eapply sublist_NoDup; [done|].
  apply fmap_sublist, dict_entries_sublist.
Qed.

Lemma elem_of_dict_entries techs k t :
  (k, IsDict t) ∈ techs → (k, IsDict t) ∈ dict_entries techs.
Proof.
  induction techs as [|[k' e] techs IH]; intros Hin.
  - by apply elem_of_nil in Hin.
  - apply elem_of_cons in Hin as [[= <- <-]|Hin].
    + left.
    + cbn. destruct (is_dict e); [right|]; by apply IH.
Qed.

Lemma dict_get_dict_entries techs k t :
  NoDup techs.*1 → (k, IsDict t) ∈ techs →
  dict_get k (dict_entries techs) = dict_get k techs.
Proof.
  intros Hnd Hin.
  rewrite (dict_get_elem_of techs k (IsDict t)) by done.
  apply dict_get_elem_of; [by apply dict_entries_NoDup|].
  by apply elem_of_dict_entries.
Qed.

(** X19: the entries of the technology table whose value is not a dict
    have no effect: [analyze] returns the list it returns for the table
    without them, and leaves the same [self.detected]. *)
Theorem analyze_ignores_non_dict_entries (self : TechDetector) (b : signals) :
  NoDup (technologies self).*1 →
  (analyze (without_non_dicts self) b).2 = (analyze self b).2
  ∧ detected (analyze (without_non_dicts self) b).1
    = detected (analyze self b).1.
Proof.
  intros Hnd.
  assert (Hdet : detected (analyze (without_non_dicts self) b).1
                 = detected (analyze self b).1).
  { rewrite !analyze_detected by (try apply dict_entries_NoDup; done).
    apply table_detections_dict_entries. }
  split; [|done].
  rewrite !analyze_result, Hdet. f_equal.
  apply Forall_fmap_ext_1, Forall_forall. intros [n entry] Hin.
  rewrite analyze_detected in Hin by done.
  apply elem_of_table_detections in Hin as (e & Hin & He).
  destruct e as [t|]; [|done].
  apply format_result_ext; [|done..].
  cbn -[dict_get]. by eapply dict_get_dict_entries.
Qed.

(** *** The shared instance *)

Lemma analyze_holds self b techs cats grps :
  holds_tables self techs cats grps →
  holds_tables (analyze self b).1 techs cats grps.
Proof. done. Qed.

Lemma analyze_har_tables self1 self2 path :
  technologies self1 = technologies self2 →
  categories self1 = categories self2 →
  groups self1 = groups self2 →
  analyze_har self1 path = analyze_har self2 path.
Proof.
  intros Ht Hc Hg. unfold analyze_har.
  destruct (parse_har_file path) as [data|e]; [|done].
  cbn -[analyze]. f_equal. by apply analyze_tables.
Qed.

Lemma analyze_har_holds self path self' r techs cats grps :
  holds_tables self techs cats grps →
  analyze_har self path = Ok (self', r) →
  holds_tables self' techs cats grps.
Proof.
  intros Hself. unfold analyze_har.
  destruct (parse_har_file path) as [data|e]; [|done].
  cbn -[analyze]. intros [= <- _]. by apply analyze_holds.
Qed.

(** X20: the instance that [detect_technologies] keeps between calls
    holds the loaded tables, and a call through it gives what a call
    through a new instance gives, as result and as instance kept; so every
    call of [detect_technologies] gives what its first call would. *)
Theorem detect_technologies_shared_instance
    (techs : list (string * table_entry technology))
    (cats : gmap string (table_entry category))
    (grps : gmap string (table_entry group))
    (g : TechDetector) (args : detect_args) :
  holds_tables g techs cats grps →
  detect_technologies techs cats grps (Some g) args
  = detect_technologies techs cats grps None args
  ∧ ∀ g' r,
      detect_technologies techs cats grps (Some g) args = Ok (g', r) →
      holds_tables g' techs cats grps.
Proof.
  intros (Ht & Hc & Hg). unfold detect_technologies. cbn [default].
  set (fresh := new_TechDetector techs cats grps).
  destruct (is_truthy (arg_har_path args)).
  { split; [by apply analyze_har_tables|].
    intros g' r. by apply analyze_har_holds. }
  destruct (arg_json_data args) as [jd|].
  - unfold analyze_json. destruct (jd_har_path jd).
    + split; [f_equal; by apply analyze_tables|].
      intros g' r [= <- _]. by apply analyze_holds.
    + split; [by apply analyze_har_tables|].
      intros g' r. by apply analyze_har_holds.
    + split; [by apply analyze_har_tables|].
      intros g' r. by apply analyze_har_holds.
  - split; [f_equal; by apply analyze_tables|].
    intros g' r [= <- _]. by apply analyze_holds.
Qed.

End Tables.

Lemma analyze_ignores_non_dict_entries_witness :
  NoDup (technologies example_detector).*1
  ∧ ("Raw", NotDict) ∈ technologies example_detector
  ∧ (@analyze ref_runtime (without_non_dicts example_detector)
       example_signals).2
    = (@analyze ref_runtime example_detector example_signals).2.
Proof.
  split_and!.
  - apply example_technologies_NoDup.
  - repeat first [left | right].
  - apply (@analyze_ignores_non_dict_entries ref_runtime example_detector
             example_signals), example_technologies_NoDup.
Defined.

Lemma detect_technologies_shared_instance_witness :
  holds_tables (@analyze ref_runtime example_detector example_signals).1
    example_technologies example_categories example_groups
  ∧ @detect_technologies ref_runtime example_technologies example_categories
      example_groups
      (Some (@analyze ref_runtime example_detector example_signals).1)
      (DetectArgs no_signals (Some "script.har") None)
    = @detect_technologies ref_runtime example_technologies example_categories
        example_groups None (DetectArgs no_signals (Some "script.har") None).
Proof.
  split.
  - vm_compute. done.
  - apply (@detect_technologies_shared_instance ref_runtime). vm_compute. done.
Defined.




Lemma analyze_har_unreadable_witness :
  @json_load ref_runtime "missing.har" = None
  ∧ ∃ self',
      @analyze_har ref_runtime example_detector "missing.har" = Ok (self', [])
      ∧ detected self' = []
      ∧ technologies self' = technologies example_detector.
Proof.
  split; [reflexivity|].
  apply (@analyze_har_unreadable ref_runtime example_detector "missing.har").
  reflexivity.
Defined.

(** ** Loading the technology table *)

Lemma dict_get_dict_set {V : Type} (d : list (string * V)) k k' v :
  dict_get k (dict_set k' v d)
  = if String.eqb k k' then Some v else dict_get k d.
Proof.
  induction d as [|[k0 v0] d IH]; cbn.
  - by destruct (String.eqb k k').
  - destruct (String.eqb_spec k' k0) as [->|Hne]; cbn.
    + by destruct (String.eqb k k0).
    + rewrite IH. destruct (String.eqb_spec k k0) as [->|]; [|done].
      by destruct (String.eqb_spec k0 k').
Qed.

Lemma dict_set_keys {V : Type} (d : list (string * V)) k k' v :
  k ∈ (dict_set k' v d).*1 ↔ k = k' ∨ k ∈ d.*1.
Proof.
  induction d as [|[k0 v0] d IH]; cbn.
  - rewrite list_elem_of_singleton, elem_of_nil. tauto.
  - destruct (String.eqb_spec k' k0) as [->|Hne]; cbn.
    + rewrite !elem_of_cons. tauto.
    + rewrite !elem_of_cons, IH. tauto.
Qed.

Lemma dict_set_NoDup {V : Type} (d : list (string * V)) k v :
  NoDup d.*1 → NoDup (dict_set k v d).*1.
Proof.
  induction d as [|[k0 v0] d IH]; cbn; intros Hnd.
  - apply NoDup_singleton.
  - apply NoDup_cons in Hnd as [Hk0 Hnd].
    destruct (String.eqb_spec k k0) as [->|Hne]; cbn.
    + by apply NoDup_cons.
    + apply NoDup_cons. split; [|by apply IH].
      rewrite dict_set_keys. intros [->|Hin]; done.
Qed.

Lemma dict_update_NoDup {V : Type} (d data : list (string * V)) :
  NoDup d.*1 → NoDup (dict_update d data).*1.
Proof.
  revert d. induction data as [|[k v] data IH]; intros d Hnd; [done|].
  apply IH. by apply dict_set_NoDup.
Qed.

Lemma dict_get_dict_update {V : Type} (d data : list (string * V)) k :
  NoDup data.*1 →
  dict_get k (dict_update d data)
  = match dict_get k data with
    | Some v => Some v
    | None => dict_get k d
    end.
Proof.
  revert d. induction data as [|[k1 v1] data IH]; intros d Hnd; [done|].
  apply NoDup_cons in Hnd as [Hk1 Hnd].
  change (dict_update d ((k1, v1) :: data))
    with (dict_update (dict_set k1 v1 d) data).
  rewrite IH, dict_get_dict_set by done. cbn.
  destruct (String.eqb_spec k k1) as [->|Hne]; [|done].
  by rewrite dict_get_None.
Qed.

Lemma merge_step w all_techs filename :
  match _download_json w (REMOTE_BASE +:+ "/technologies/" +:+ filename) with
  | Some (JsonDict data) => dict_update all_techs data
  | _ => all_techs
  end = dict_update all_techs (shard w filename).
Proof.
  unfold shard.
  by destruct (_download_json w _) as [[data|]|].
Qed.

Lemma merge_shards_snoc w files filename :
  merge_shards w (files ++ [filename])
  = dict_update (merge_shards w files) (shard w filename).
Proof.
  unfold merge_shards. by rewrite foldl_snoc, merge_step.
Qed.

Lemma merge_shards_NoDup w files : NoDup (merge_shards w files).*1.
Proof.
  induction files as [|filename files IH] using rev_ind.
  - apply NoDup_nil_2.
  - rewrite merge_shards_snoc. by apply dict_update_NoDup.
Qed.

Lemma merge_shards_get w files k v :
  Forall (λ f, NoDup (shard w f).*1) files →
  dict_get k (merge_shards w files) = Some v ↔
  ∃ before f after,
    files = before ++ f :: after
    ∧ dict_get k (shard w f) = Some v
    ∧ Forall (λ f', dict_get k (shard w f') = None) after.
Proof.
  induction files as [|filename files IH] using rev_ind; intros Hnd.
  - split; [done|]. intros (before & f & after & Heq & _).
    by destruct before.
  - apply Forall_app in Hnd as [Hnd Hf%Forall_inv].
    rewrite merge_shards_snoc, dict_get_dict_update by done.
    destruct (dict_get k (shard w filename)) as [v'|] eqn:Hlast.
    + split.
      * intros [= ->]. exists files, filename, []. by split_and!.
      * intros (before & f & after & Heq & Hv & Hafter).
        destruct after as [|f' after _] using rev_ind.
        -- apply app_inj_tail in Heq as [_ ->]. congruence.
        -- rewrite app_comm_cons, app_assoc in Heq.
           apply app_inj_tail in Heq as [_ ->].
           apply Forall_app in Hafter as [_ Hf'%Forall_inv]. congruence.
    + rewrite IH by done. split.
      * intros (before & f & after & -> & Hv & Hafter).
        exists before, f, (after ++ [filename]). split_and!; [|done|].
        -- by rewrite <- app_assoc.
        -- apply Forall_app. split; [done|]. by apply Forall_singleton.
      * intros (before & f & after & Heq & Hv & Hafter).
        destruct after as [|f' after _] using rev_ind.
        -- apply app_inj_tail in Heq as [_ ->]. congruence.
        -- rewrite app_comm_cons, app_assoc in Heq.
           apply app_inj_tail in Heq as [-> ->].
           apply Forall_app in Hafter as [Hafter _].
           by exists before, f, after.
Qed.

Lemma load_technologies_download_state w st :
  TECHNOLOGIES_CACHE st = None →
  (∀ local, technologies_json st ≠ Some (JsonDict local)) →
  load_technologies w st
  = ({| TECHNOLOGIES_CACHE := Some (merge_shards w alphabet_files);
        technologies_json :=
          match merge_shards w alphabet_files with
          | [] => technologies_json st
          | _ :: _ =>
              _save_json_file w (technologies_json st)
                (merge_shards w alphabet_files)
          end |},
     merge_shards w alphabet_files).
Proof.
  intros Hcache Hlocal. unfold load_technologies. rewrite Hcache.
  generalize (merge_shards w alphabet_files). intros all_techs.
  destruct (technologies_json st) as [[local|]|] eqn:Hfile; [|done..].
  by destruct (Hlocal local).
Qed.

Lemma load_technologies_download w st :
  TECHNOLOGIES_CACHE st = None →
  (∀ local, technologies_json st ≠ Some (JsonDict local)) →
  (load_technologies w st).2 = merge_shards w alphabet_files.
Proof.
  intros Hcache Hlocal. by rewrite load_technologies_download_state.
Qed.

Lemma load_technologies_cache w st :
  TECHNOLOGIES_CACHE (load_technologies w st).1
  = Some (load_technologies w st).2.
Proof.
  unfold load_technologies.
  destruct (TECHNOLOGIES_CACHE st) eqn:Hc; [exact Hc|].
  generalize (merge_shards w alphabet_files). intros all_techs.
  by destruct (technologies_json st) as [[local|]|].
Qed.

(** X21: [load_technologies] answers from the cache once it has been
    called: a second call returns the table of the first and changes
    nothing, whatever the local file and the remote have become; this
    holds also for the empty table of a first call whose downloads all
    failed. *)
Theorem load_technologies_cached (w1 w2 : world) (st : loader_state) :
  load_technologies w2 (load_technologies w1 st).1 = load_technologies w1 st
  ∧ TECHNOLOGIES_CACHE (load_technologies w1 st).1
    = Some (load_technologies w1 st).2
  ∧ (load_technologies offline_world first_start).2 = []
  ∧ (load_technologies w2 (load_technologies offline_world first_start).1).2
    = []
  ∧ (∀ file,
       load_technologies w2
         {| TECHNOLOGIES_CACHE := TECHNOLOGIES_CACHE (load_technologies w1 st).1;
            technologies_json := file |}
       = ({| TECHNOLOGIES_CACHE :=
               TECHNOLOGIES_CACHE (load_technologies w1 st).1;
             technologies_json := file |},
          (load_technologies w1 st).2))
  ∧ (∀ file,
       (load_technologies w2
          {| TECHNOLOGIES_CACHE :=
               TECHNOLOGIES_CACHE (load_technologies offline_world first_start).1;
             technologies_json := file |}).2 = []).
Proof.
  assert (Hagain : ∀ w st,
    load_technologies w2 (load_technologies w st).1 = load_technologies w st).
  { intros w st'. unfold load_technologies at 1.
    rewrite load_technologies_cache. by rewrite <- surjective_pairing. }
  assert (Hfile : ∀ w st file,
    load_technologies w2
      {| TECHNOLOGIES_CACHE := TECHNOLOGIES_CACHE (load_technologies w st).1;
         technologies_json := file |}
    = ({| TECHNOLOGIES_CACHE := TECHNOLOGIES_CACHE (load_technologies w st).1;
          technologies_json := file |},
       (load_technologies w st).2)).
  { intros w st' file. unfold load_technologies at 1.
    cbn [TECHNOLOGIES_CACHE]. by rewrite load_technologies_cache. }
  split_and!.
  - apply Hagain.
  - apply load_technologies_cache.
  - vm_compute. reflexivity.
  - rewrite Hagain. vm_compute. reflexivity.
  - apply Hfile.
  - intros file. rewrite Hfile. vm_compute. reflexivity.
Qed.

(** X22: when the table is downloaded, a key that several shard files
    hold gets the value of the last of them in the order of
    [alphabet_files], and the table has each key once. *)
Theorem load_technologies_last_shard_wins (w : world) (st : loader_state)
    (k : string) (v : table_entry technology) :
  TECHNOLOGIES_CACHE st = None →
  (∀ local, technologies_json st ≠ Some (JsonDict local)) →
  Forall (λ f, NoDup (shard w f).*1) alphabet_files →
  NoDup (load_technologies w st).2.*1
  ∧ (dict_get k (load_technologies w st).2 = Some v ↔
     ∃ before f after,
       alphabet_files = before ++ f :: after
       ∧ dict_get k (shard w f) = Some v
       ∧ Forall (λ f', dict_get k (shard w f') = None) after).
Proof.
  intros Hcache Hlocal Hnd. rewrite load_technologies_download by done.
  split; [apply merge_shards_NoDup|by apply merge_shards_get].
Qed.

(** X23: a table that was downloaded and written is the table of the next
    process, which reads it from the file and downloads nothing. *)
Theorem load_technologies_round_trip (w w' : world) (st : loader_state) :
  TECHNOLOGIES_CACHE st = None →
  (∀ local, technologies_json st ≠ Some (JsonDict local)) →
  (load_technologies w st).2 ≠ [] →
  _save_json_file w (technologies_json st) (load_technologies w st).2
  = Some (JsonDict (load_technologies w st).2) →
  (load_technologies w' (restart (load_technologies w st).1)).2
  = (load_technologies w st).2.
Proof.
  intros Hcache Hlocal.
  rewrite load_technologies_download_state by done. cbn [fst snd].
  generalize (merge_shards w alphabet_files). intros all_techs Hne Hsave.
  destruct all_techs as [|item all_techs]; [done|].
  unfold restart, load_technologies.
  cbn [TECHNOLOGIES_CACHE technologies_json]. by rewrite Hsave.
Qed.

Lemma example_shards_NoDup :
  Forall (λ f, NoDup (shard example_world f).*1) alphabet_files.
Proof. apply (bool_decide_unpack _). vm_compute. reflexivity. Qed.

Lemma first_start_no_local local :
  technologies_json first_start ≠ Some (JsonDict local).
Proof. cbn. discriminate. Qed.

Lemma load_technologies_last_shard_wins_witness :
  TECHNOLOGIES_CACHE first_start = None
  ∧ dict_get "Beta" (load_technologies example_world first_start).2
    = Some (IsDict example_beta)
  ∧ (load_technologies example_world first_start).2.*1
    = ["Alpha"; "Beta"; "Broken"; "Gamma"].
Proof.
  split; [reflexivity|]. split; [|vm_compute; reflexivity].
  apply (load_technologies_last_shard_wins example_world first_start
           "Beta" (IsDict example_beta) eq_refl first_start_no_local
           example_shards_NoDup).
  exists ("_.json" :: map (λ c, String c ".json")
                        (list_ascii_of_string "abcdef")),
    "g.json",
    (map (λ c, String c ".json")
       (list_ascii_of_string "hijklmnopqrstuvwxyz")).
  split; [vm_compute; reflexivity|]. split; [vm_compute; reflexivity|].
  apply (bool_decide_unpack _). vm_compute. reflexivity.
Defined.

Lemma example_download_not_empty :
  (load_technologies example_world first_start).2 ≠ [].
Proof. vm_compute. discriminate. Qed.

Lemma load_technologies_round_trip_witness :
  (load_technologies example_world first_start).2 ≠ []
  ∧ (load_technologies offline_world
       (restart (load_technologies example_world first_start).1)).2
    = (load_technologies example_world first_start).2.
Proof.
  split; [apply example_download_not_empty|].
  apply (load_technologies_round_trip example_world offline_world first_start
           eq_refl first_start_no_local example_download_not_empty).
  vm_compute. reflexivity.
Defined.

(** ** The slug of a capture *)

Lemma is_slug_char_not_dash c :
  is_slug_char c = true → Ascii.eqb c DASH = false ∧ Ascii.eqb DASH c = false.
Proof.
  intros Hc. rewrite (Ascii.eqb_sym DASH c).
  destruct (Ascii.eqb_spec c DASH) as [->|]; [|done].
  vm_compute in Hc. discriminate.
Qed.

Lemma startswith_dash s :
  startswith s "-"
  = match s with
    | EmptyString => false
    | String c _ => Ascii.eqb DASH c
    end.
Proof. destruct s as [|c s]; [done|]. cbn. apply andb_true_r. Qed.

Lemma startswith_two_dashes c s :
  startswith (String c s) "--" = Ascii.eqb DASH c && startswith s "-".
Proof. rewrite startswith_dash. cbn. destruct s; by rewrite ?andb_true_r. Qed.

Lemma contains_cons old c s :
  contains old (String c s) = startswith (String c s) old || contains old s.
Proof. done. Qed.

Lemma slug_alphabet_cons c s :
  slug_alphabet (String c s)
  ↔ (is_slug_char c = true ∨ c = DASH) ∧ slug_alphabet s.
Proof. unfold slug_alphabet. cbn. by rewrite Forall_cons. Qed.

Lemma sub_runs_alphabet in_run s : slug_alphabet (sub_runs in_run s).
Proof.
  revert in_run. induction s as [|c s IH]; intros in_run; cbn.
  - constructor.
  - destruct (is_slug_char c) eqn:Hc; [|destruct in_run];
      rewrite ?slug_alphabet_cons; auto.
Qed.

Lemma sub_runs_in_run s : startswith (sub_runs true s) "-" = false.
Proof.
  induction s as [|c s IH]; [done|]. cbn -[startswith].
  destruct (is_slug_char c) eqn:Hc; [|done].
  rewrite startswith_dash. by apply is_slug_char_not_dash.
Qed.

Lemma sub_runs_no_double_dash in_run s :
  contains "--" (sub_runs in_run s) = false.
Proof.
  revert in_run. induction s as [|c s IH]; intros in_run; [done|].
  cbn -[contains startswith].
  destruct (is_slug_char c) eqn:Hc; [|destruct in_run]; [|done|];
    rewrite contains_cons, IH, startswith_two_dashes, orb_false_r.
  - apply is_slug_char_not_dash in Hc as [_ ->]. done.
  - by rewrite sub_runs_in_run, andb_false_r.
Qed.

Lemma lstrip_dash_alphabet s : slug_alphabet s → slug_alphabet (lstrip_dash s).
Proof.
  induction s as [|c s IH]; [done|]. cbn.
  intros Hs. destruct (Ascii.eqb c DASH); [|done].
  apply IH. by apply slug_alphabet_cons in Hs as [_ Hs].
Qed.

Lemma lstrip_dash_no_double_dash s :
  contains "--" s = false → contains "--" (lstrip_dash s) = false.
Proof.
  induction s as [|c s IH]; [done|]. cbn -[contains].
  intros Hs. destruct (Ascii.eqb c DASH); [|done].
  apply IH. rewrite contains_cons in Hs. by apply orb_false_elim in Hs as [_ Hs].
Qed.

Lemma lstrip_dash_start s : startswith (lstrip_dash s) "-" = false.
Proof.
  induction s as [|c s IH]; [done|]. cbn -[startswith].
  destruct (Ascii.eqb c DASH) eqn:Hc; [done|].
  by rewrite startswith_dash, Ascii.eqb_sym.
Qed.

Lemma rstrip_dash_cons c s :
  rstrip_dash (String c s)
  = if Ascii.eqb c DASH && negb (nonempty (rstrip_dash s)) then EmptyString
    else String c (rstrip_dash s).
Proof. done. Qed.

Lemma rstrip_dash_alphabet s : slug_alphabet s → slug_alphabet (rstrip_dash s).
Proof.
  induction s as [|c s IH]; [done|]. rewrite rstrip_dash_cons.
  intros [Hc Hs]%slug_alphabet_cons.
  destruct (_ && _); [constructor|].
  apply slug_alphabet_cons. auto.
Qed.

Lemma rstrip_dash_start_inv s :
  startswith (rstrip_dash s) "-" = true → startswith s "-" = true.
Proof.
  destruct s as [|c s]; [done|]. rewrite rstrip_dash_cons.
  destruct (_ && _); [done|]. by rewrite !startswith_dash.
Qed.

Lemma rstrip_dash_start s :
  startswith s "-" = false → startswith (rstrip_dash s) "-" = false.
Proof.
  intros Hs. destruct (startswith (rstrip_dash s) "-") eqn:Hr; [|done].
  apply rstrip_dash_start_inv in Hr. congruence.
Qed.

Lemma rstrip_dash_no_double_dash s :
  contains "--" s = false → contains "--" (rstrip_dash s) = false.
Proof.
  induction s as [|c s IH]; [done|]. rewrite rstrip_dash_cons, contains_cons.
  intros [Hstart Hs]%orb_false_elim.
  destruct (_ && _); [done|].
  rewrite contains_cons, IH, orb_false_r by done.
  rewrite startswith_two_dashes in *.
  destruct (Ascii.eqb DASH c); [|done]. cbn in *.
  by apply rstrip_dash_start.
Qed.

Lemma rev_app_start s acc1 acc2 :
  nonempty s = true →
  startswith (String.rev_app s acc1) "-" = startswith (String.rev_app s acc2) "-".
Proof.
  revert acc1 acc2. induction s as [|a s IH]; intros acc1 acc2 Hs; [done|].
  cbn [String.rev_app]. destruct s as [|b s].
  - cbn [String.rev_app]. by rewrite !startswith_dash.
  - by apply IH.
Qed.

Lemma endswith_cons c s :
  endswith (String c s) "-"
  = if nonempty s then endswith s "-" else Ascii.eqb DASH c.
Proof.
  unfold endswith, String.rev. change (String.rev_app "-" "") with "-".
  cbn [String.rev_app]. destruct (nonempty s) eqn:Hs.
  - by apply rev_app_start.
  - destruct s; [|done]. cbn [String.rev_app]. by rewrite startswith_dash.
Qed.

Lemma rstrip_dash_end s : endswith (rstrip_dash s) "-" = false.
Proof.
  induction s as [|c s IH]; [done|]. rewrite rstrip_dash_cons.
  destruct (Ascii.eqb c DASH && negb (nonempty (rstrip_dash s))) eqn:Hc;
    [done|].
  rewrite endswith_cons, IH.
  destruct (nonempty (rstrip_dash s)); [done|].
  rewrite andb_true_r in Hc. by rewrite Ascii.eqb_sym.
Qed.

(** X24: the slug of a capture is a safe file name whatever the URL: it
    is not empty, is made of [a-z0-9] and ["-"] only, neither starts nor
    ends with ["-"], and has no two ["-"] in a row. *)
Theorem capture_slug_safe `{Runtime} (url : string) :
  nonempty (capture_slug url) = true
  ∧ slug_alphabet (capture_slug url)
  ∧ startswith (capture_slug url) "-" = false
  ∧ endswith (capture_slug url) "-" = false
  ∧ contains "--" (capture_slug url) = false.
Proof.
  unfold capture_slug.
  destruct (nonempty (strip_dash (sub_runs false (str_lower url)))) eqn:Hs.
  - unfold strip_dash in *. split_and!.
    + done.
    + apply rstrip_dash_alphabet, lstrip_dash_alphabet, sub_runs_alphabet.
    + apply rstrip_dash_start, lstrip_dash_start.
    + apply rstrip_dash_end.
    + apply rstrip_dash_no_double_dash, lstrip_dash_no_double_dash,
        sub_runs_no_double_dash.
  - split_and!; try reflexivity.
    unfold slug_alphabet. cbn. repeat constructor.
Qed.

(** ** The checks of the credentials *)

Lemma basic_is_not_bearer s :
  startswith s "basic " = true → startswith s "bearer " = false.
Proof.
  destruct s as [|a [|b s]].
  - done.
  - cbn -[Ascii.eqb]. by rewrite !andb_false_r.
  - cbn -[Ascii.eqb]. intros [_ [Hb _]%andb_prop]%andb_prop.
    apply Ascii.eqb_eq in Hb as <-. by rewrite andb_false_r.
Qed.

Section WebAuthTheorems.
Context {rt : Runtime}.
Variable str_strip : string → string.
Variable api_bearer basic_user basic_pass : string.

Lemma check_api_token_basic_scheme header :
  nonempty basic_user = true → nonempty basic_pass = true →
  startswith (str_lower header) "basic " = true →
  _check_api_token str_strip api_bearer basic_user basic_pass header
  = _check_basic basic_user basic_pass header.
Proof.
  intros Hu Hp Hbasic. unfold _check_api_token, _check_basic.
  rewrite (basic_is_not_bearer _ Hbasic), Hbasic, Hu, Hp, orb_true_r.
  cbn [negb andb].
  by destruct (basic_credentials header) as [[user pwd]|].
Qed.

Lemma check_basic_granted_inv header :
  nonempty basic_user = true → nonempty basic_pass = true →
  _check_basic basic_user basic_pass header = Granted →
  startswith (str_lower header) "basic " = true
  ∧ basic_credentials header = Some (basic_user, basic_pass).
Proof.
  intros Hu Hp. unfold _check_basic. rewrite Hu, Hp. cbn [negb andb].
  destruct (startswith (str_lower header) "basic "); [|done].
  destruct (basic_credentials header) as [[user pwd]|]; [|done].
  destruct (String.eqb_spec user basic_user) as [->|]; [|done].
  by destruct (String.eqb_spec pwd basic_pass) as [->|].
Qed.

(** X25: with a user and a password set, a request that the check of the
    pages lets through is let through by the check of the API, whatever
    the bearer token set; and on a header of the scheme [Basic] the two
    checks give the same outcome.  What is let through holds the user and
    the password, in base64 and UTF-8, around the first [:]. *)
Theorem basic_credentials_open_the_api (header : string) :
  nonempty basic_user = true → nonempty basic_pass = true →
  (_check_basic basic_user basic_pass header = Granted →
   _check_api_token str_strip api_bearer basic_user basic_pass header
   = Granted
   ∧ basic_credentials header = Some (basic_user, basic_pass))
  ∧ (startswith (str_lower header) "basic " = true →
     _check_api_token str_strip api_bearer basic_user basic_pass header
     = _check_basic basic_user basic_pass header).
Proof.
  intros Hu Hp. split.
  - intros Hgranted.
    destruct (check_basic_granted_inv header Hu Hp Hgranted) as [Hbasic Hcred].
    split; [|done]. by rewrite check_api_token_basic_scheme.
  - by apply check_api_token_basic_scheme.
Qed.

(** X26: without any credential set, both checks let every request
    through; with only a bearer token set, the check of the pages still
    lets every request through, while the check of the API refuses the
    requests of any scheme other than [Bearer] and [Basic], the request
    without the header among them. *)
Theorem checks_without_credentials (header : string) :
  (api_bearer = "" → (basic_user = "" ∨ basic_pass = "") →
   _check_api_token str_strip api_bearer basic_user basic_pass header
   = Granted)
  ∧ ((basic_user = "" ∨ basic_pass = "") →
     _check_basic basic_user basic_pass header = Granted)
  ∧ (nonempty api_bearer = true →
     startswith (str_lower header) "bearer " = false →
     startswith (str_lower header) "basic " = false →
     _check_api_token str_strip api_bearer basic_user basic_pass header
     = Unauthorized).
Proof.
  split_and!.
  - intros -> [->| ->]; unfold _check_api_token; cbn;
      by rewrite ?andb_false_r.
  - intros [->| ->]; unfold _check_basic; cbn; by rewrite ?andb_false_r.
  - intros Hb Hbearer Hbasic. unfold _check_api_token.
    by rewrite Hb, Hbearer, Hbasic.
Qed.

End WebAuthTheorems.

Lemma basic_credentials_open_the_api_witness :
  nonempty "u" = true
  ∧ @_check_basic ref_runtime "u" "p" "Basic dTpw" = Granted
  ∧ @_check_api_token ref_runtime id "secret" "u" "p" "Basic dTpw" = Granted.
Proof.
  split; [reflexivity|]. split; [vm_compute; reflexivity|].
  apply (@basic_credentials_open_the_api ref_runtime id "secret" "u" "p"
           "Basic dTpw" eq_refl eq_refl).
  vm_compute. reflexivity.
Defined.

(** * The labels of a technology, and the exceptions of the regex engine *)

(** ** The labels of a technology, one by one *)




Lemma hit_false label : hit false label = [].
Proof. done. Qed.

Section LabelLists.
Context {rt : Runtime}.














End LabelLists.

Section LabelCount.
Context {rt : Runtime}.


End LabelCount.


(** ** The checks with the exceptions that are not caught *)

Section Settles.
Context {rt : Runtime}.

Lemma settles_Ok {A : Type} (a : A) : settles (Ok a) a.
Proof. by left. Qed.


Lemma settles_never {A : Type} (r : result A) (a : A) :
  (∀ pat text, re_raises pat text = None) → settles r a → r = Ok a.
Proof.
  intros Hnever [->|(e & pat & text & _ & He)]; [done|].
  by rewrite Hnever in He.
Qed.

Lemma settles_bind {A B : Type} (m : result A) (a : A)
    (k : A → result B) (k' : A → B) :
  settles m a → (∀ x, settles (k x) (k' x)) → settles (m ≫= k) (k' a).
Proof.
  intros [->|(e & pat & text & -> & He)] Hk; [apply Hk|].
  right. by exists e, pat, text.
Qed.

Lemma settles_for_each {A B : Type} (body : A → B → result A)
    (f : A → B → A) (l : list B) (a : A) :
  (∀ a x, settles (body a x) (f a x)) →
  settles (for_each body a l) (foldl f a l).
Proof.
  intros Hbody. revert a. induction l as [|x l IH]; intros a; cbn.
  - apply settles_Ok.
  - destruct (Hbody a x) as [->|(e & pat & text & -> & He)]; [apply IH|].
    right. by exists e, pat, text.
Qed.

Lemma search_settles pat text :
  settles (Raising.search pat text) (re_search pat text).
Proof.
  unfold Raising.search. destruct (re_raises pat text) as [e|] eqn:He.
  - right. by exists e, pat, text.
  - by left.
Qed.

Lemma search_Ok pat text r :
  Raising.search pat text = Ok r →
  re_search pat text = r ∧ re_raises pat text = None.
Proof.
  unfold Raising.search. destruct (re_raises pat text); [done|].
  by intros [= ->].
Qed.

Lemma any_pattern_matches_settles text ps :
  settles (Raising.any_pattern_matches text ps) (any_pattern_matches text ps).
Proof.
  induction ps as [|pattern ps IH]; cbn; [apply settles_Ok|].
  destruct (search_settles (_strip_wappalyzer_pattern pattern) text)
    as [->|(e & pat & text' & -> & He)].
  - destruct (re_search _ text); [done..|apply settles_Ok].
  - right. by exists e, pat, text'.
Qed.

Lemma check_pattern_settles text p :
  settles (Raising._check_pattern text p) (_check_pattern text p).
Proof.
  unfold Raising._check_pattern, _check_pattern.
  destruct (negb (nonempty text) || negb (truthy p)); [apply settles_Ok|].
  destruct p; apply any_pattern_matches_settles.
Qed.

Lemma first_versioned_match_settles text es :
  settles (Raising.first_versioned_match text es)
    (first_versioned_match text es).
Proof.
  induction es as [|[pattern version_info] es IH]; cbn; [apply settles_Ok|].
  destruct (search_settles (_strip_wappalyzer_pattern pattern) text)
    as [->|(e & pat & text' & -> & He)].
  - destruct (re_search _ text) as [| |[|g gs]]; [done..|apply settles_Ok|].
    destruct (nonempty version_info); apply settles_Ok.
  - right. by exists e, pat, text'.
Qed.

Lemma check_pattern_with_version_settles text p :
  settles (Raising._check_pattern_with_version text p)
    (_check_pattern_with_version text p).
Proof.
  unfold Raising._check_pattern_with_version, _check_pattern_with_version.
  destruct (negb (nonempty text) || negb (truthy p)); [apply settles_Ok|].
  destruct p as [s|ps|es].
  - apply (settles_bind _ _ _ (λ r, (r, None)));
      [apply any_pattern_matches_settles|intros; apply settles_Ok].
  - apply (settles_bind _ _ _ (λ r, (r, None)));
      [apply any_pattern_matches_settles|intros; apply settles_Ok].
  - apply first_versioned_match_settles.
Qed.

Lemma check_url_settles b t w :
  settles (Raising.check_url b t w) (check_url b t w).
Proof.
  unfold Raising.check_url, check_url.
  destruct (tech_url t) as [p|]; [|apply settles_Ok].
  destruct (nonempty (sig_url b)); [|apply settles_Ok].
  apply (settles_bind _ _ _ (λ r, note "url" (r, None) w));
    [apply check_pattern_settles|intros; apply settles_Ok].
Qed.

Lemma check_html_settles b t w :
  settles (Raising.check_html b t w) (check_html b t w).
Proof.
  unfold Raising.check_html, check_html.
  destruct (tech_html t) as [p|]; [|apply settles_Ok].
  destruct (nonempty (sig_html b)); [|apply settles_Ok].
  apply (settles_bind _ _ _ (λ r, note "html" r w));
    [apply check_pattern_with_version_settles|intros; apply settles_Ok].
Qed.

Lemma check_scripts_settles scripts t w :
  settles (Raising.check_scripts scripts t w) (check_scripts scripts t w).
Proof.
  unfold Raising.check_scripts, check_scripts.
  destruct (tech_scripts t) as [p|]; [|apply settles_Ok].
  apply settles_for_each. intros w' script.
  apply (settles_bind _ _ _ (λ r, note "scripts" r w'));
    [apply check_pattern_with_version_settles|intros; apply settles_Ok].
Qed.

Lemma check_headers_settles b t w :
  settles (Raising.check_headers b t w) (check_headers b t w).
Proof.
  unfold Raising.check_headers, check_headers.
  destruct (tech_headers t) as [items|]; [|apply settles_Ok].
  destruct (nonempty_map (sig_headers b)); [|apply settles_Ok].
  apply settles_for_each. intros w' [n p]. cbn.
  destruct (nonempty (header_value (sig_headers b) n)); [|apply settles_Ok].
  apply (settles_bind _ _ _ (λ r, note ("headers:" +:+ n) r w'));
    [apply check_pattern_with_version_settles|intros; apply settles_Ok].
Qed.

Lemma check_cookies_settles b t w :
  settles (Raising.check_cookies b t w) (check_cookies b t w).
Proof.
  unfold Raising.check_cookies, check_cookies.
  destruct (tech_cookies t) as [items|]; [|apply settles_Ok].
  destruct (nonempty_map (sig_cookies b)); [|apply settles_Ok].
  apply settles_for_each. intros w' [n p]. cbn.
  destruct (nonempty (get_str (sig_cookies b) n)); [|apply settles_Ok].
  apply (settles_bind _ _ _ (λ r, note ("cookies:" +:+ n) (r, None) w'));
    [apply check_pattern_settles|intros; apply settles_Ok].
Qed.

Lemma check_meta_settles b t w :
  settles (Raising.check_meta b t w) (check_meta b t w).
Proof.
  unfold Raising.check_meta, check_meta.
  destruct (tech_meta t) as [items|]; [|apply settles_Ok].
  destruct (nonempty_map (sig_meta b)); [|apply settles_Ok].
  apply settles_for_each. intros w' [n p]. cbn.
  destruct (nonempty (get_str (sig_meta b) n)); [|apply settles_Ok].
  apply (settles_bind _ _ _ (λ r, note ("meta:" +:+ n) r w'));
    [apply check_pattern_with_version_settles|intros; apply settles_Ok].
Qed.

Lemma check_dns_settles b t w :
  settles (Raising.check_dns b t w) (check_dns b t w).
Proof.
  unfold Raising.check_dns, check_dns.
  destruct (tech_dns t) as [items|]; [|apply settles_Ok].
  destruct (nonempty_map (sig_dns b)); [|apply settles_Ok].
  apply settles_for_each. intros w' [n p]. cbn.
  apply settles_for_each. intros w'' v.
  apply (settles_bind _ _ _ (λ r, note ("dns:" +:+ n) (r, None) w''));
    [apply check_pattern_settles|intros; apply settles_Ok].
Qed.

Lemma check_certIssuer_settles b t w :
  settles (Raising.check_certIssuer b t w) (check_certIssuer b t w).
Proof.
  unfold Raising.check_certIssuer, check_certIssuer.
  destruct (tech_certIssuer t) as [p|]; [|apply settles_Ok].
  destruct (nonempty (sig_certIssuer b)); [|apply settles_Ok].
  apply (settles_bind _ _ _ (λ r, note "certIssuer" (r, None) w));
    [apply check_pattern_settles|intros; apply settles_Ok].
Qed.

Lemma tech_checks_settles b t :
  settles (Raising.tech_checks b t) (tech_checks b t).
Proof.
  unfold Raising.tech_checks, tech_checks.
  apply (settles_bind _ _ _
           (λ w, let w := check_html b t w in
                 let w := match analyze_soup (sig_html b) with
                          | Some s => check_scripts (script_srcs s) t w
                          | None => w
                          end in
                 let w := check_scripts (sig_scripts b) t w in
                 let w := check_headers b t w in
                 let w := check_cookies b t w in
                 let w := check_meta b t w in
                 let w := check_dns b t w in
                 check_certIssuer b t w)); [apply check_url_settles|].
  intros w1. cbn zeta.
  apply (settles_bind _ _ _
           (λ w, let w := match analyze_soup (sig_html b) with
                          | Some s => check_scripts (script_srcs s) t w
                          | None => w
                          end in
                 let w := check_scripts (sig_scripts b) t w in
                 let w := check_headers b t w in
                 let w := check_cookies b t w in
                 let w := check_meta b t w in
                 let w := check_dns b t w in
                 check_certIssuer b t w)); [apply check_html_settles|].
  intros w2. cbn zeta.
  apply (settles_bind _ _ _
           (λ w, let w := check_scripts (sig_scripts b) t w in
                 let w := check_headers b t w in
                 let w := check_cookies b t w in
                 let w := check_meta b t w in
                 let w := check_dns b t w in
                 check_certIssuer b t w)).
  { destruct (analyze_soup (sig_html b));
      [apply check_scripts_settles|apply settles_Ok]. }
  intros w3. cbn zeta.
  apply (settles_bind _ _ _
           (λ w, let w := check_headers b t w in
                 let w := check_cookies b t w in
                 let w := check_meta b t w in
                 let w := check_dns b t w in
                 check_certIssuer b t w)); [apply check_scripts_settles|].
  intros w4. cbn zeta.
  apply (settles_bind _ _ _
           (λ w, let w := check_cookies b t w in
                 let w := check_meta b t w in
                 let w := check_dns b t w in
                 check_certIssuer b t w)); [apply check_headers_settles|].
  intros w5. cbn zeta.
  apply (settles_bind _ _ _
           (λ w, let w := check_meta b t w in
                 let w := check_dns b t w in
                 check_certIssuer b t w)); [apply check_cookies_settles|].
  intros w6. cbn zeta.
  apply (settles_bind _ _ _
           (λ w, let w := check_dns b t w in check_certIssuer b t w));
    [apply check_meta_settles|].
  intros w7. cbn zeta.
  apply (settles_bind _ _ _ (λ w, check_certIssuer b t w));
    [apply check_dns_settles|].
  intros w8. apply check_certIssuer_settles.
Qed.

Lemma detected_entry_of_settles b e :
  settles (Raising.detected_entry_of b e) (detected_entry_of b e).
Proof.
  destruct e as [t|]; [|apply settles_Ok].
  unfold Raising.detected_entry_of, detected_entry_of.
  apply (settles_bind _ _ _
           (λ w : work,
              match w.1 with
              | [] => None
              | _ :: _ =>
                  Some {| det_versions := elements w.2;
                          det_confidence := confidence_of w.1;
                          det_matches := w.1;
                          det_categories := default [] (tech_cats t) |}
              end)); [apply tech_checks_settles|].
  intros w. apply settles_Ok.
Qed.

Lemma analyze_loop_settles b det techs :
  ((Raising.analyze_loop b det techs).2 = None
   ∧ (Raising.analyze_loop b det techs).1 = foldl (analyze_step b) det techs)
  ∨ ∃ e pat text, (Raising.analyze_loop b det techs).2 = Some e
                  ∧ re_raises pat text = Some e.
Proof.
  revert det. induction techs as [|item techs IH]; intros det; cbn.
  - by left.
  - unfold analyze_step at 2.
    destruct (detected_entry_of_settles b item.2)
      as [->|(e & pat & text & -> & He)].
    + destruct (detected_entry_of b item.2); apply IH.
    + right. by exists e, pat, text.
Qed.

Lemma analyze_settles self b :
  (Raising.analyze self b).1 = (analyze self b).1
  ∧ (Raising.analyze self b).2 = Ok (analyze self b).2
  ∨ ∃ e pat text, (Raising.analyze self b).2 = Raise e
                  ∧ re_raises pat text = Some e.
Proof.
  unfold Raising.analyze. cbn [fst snd].
  destruct (analyze_loop_settles b [] (technologies self))
    as [[-> ->]|(e & pat & text & -> & He)].
  - by left.
  - right. by exists e, pat, text.
Qed.

Lemma analyze_never_raises self b :
  (∀ pat text, re_raises pat text = None) →
  Raising.analyze self b = ((analyze self b).1, Ok (analyze self b).2).
Proof.
  intros Hnever.
  destruct (analyze_settles self b) as [[H1 H2]|(e & pat & text & _ & He)].
  - rewrite (surjective_pairing (Raising.analyze self b)). by rewrite H1, H2.
  - by rewrite Hnever in He.
Qed.



End Settles.

(** ** A regex that raises *)

Section RaisingSkip.
Context {rt : Runtime}.

















End RaisingSkip.




(** ** The replacements that build a version *)








(** ** The version of a versioned map *)



